(** * The partition consumer of sarama: parsing fetch responses

    A shallow embedding of the fetch-response parser of the consumer
    ([parseMessages], [parseRecords], [parseResponse]), of the outcome
    classification of the broker consumer ([handleResponses]) and of the
    request construction ([fetchNewMessages]), with the properties the
    specification states about them.

    Conventions.  Go's [int32] and [int64] values are integers of [Z]; every
    arithmetic operation of the source is followed by the wrap-around of its
    width.  Instants and durations are integers too, and [Time.Add] is the
    sum.  A method that mutates its receiver takes the receiver's state and
    returns the new one.  A channel is modelled by what was written to it;
    log lines and metrics are left out, except the errors [sendError]
    prints. *)

From stdpp Require Import gmap strings list fin_maps sorting.

Local Open Scope Z_scope.

(** ** Machine integers *)

Module Int.

Definition MaxInt32 : Z := 2147483647.
Definition MinInt32 : Z := -2147483648.
Definition MaxInt64 : Z := 9223372036854775807.
Definition MinInt64 : Z := -9223372036854775808.

(** Two's-complement wrap-around of a result to [w] bits. *)
Definition wrap (w : Z) (x : Z) : Z := (x + 2 ^ (w - 1)) `mod` 2 ^ w - 2 ^ (w - 1).

Definition wrap32 : Z → Z := wrap 32.
Definition wrap64 : Z → Z := wrap 64.

Definition add64 (a b : Z) : Z := wrap64 (a + b).
Definition sub64 (a b : Z) : Z := wrap64 (a - b).
Definition mul32 (a b : Z) : Z := wrap32 (a * b).

Definition is_int32 (x : Z) : Prop := MinInt32 ≤ x ≤ MaxInt32.
Definition is_int64 (x : Z) : Prop := MinInt64 ≤ x ≤ MaxInt64.

End Int.

Import Int.

(** ** Errors *)

(** The errors the consumer distinguishes.  [ErrNoError] is the zero [KError];
    [OtherError] stands for any error value that is none of the named ones
    (decoder failures, transport failures, formatted errors). *)
Inductive error : Type :=
  | ErrNoError
  | ErrOffsetOutOfRange
  | ErrUnknownTopicOrPartition
  | ErrNotLeaderForPartition
  | ErrLeaderNotAvailable
  | ErrReplicaNotAvailable
  | ErrFencedLeaderEpoch
  | ErrUnknownLeaderEpoch
  | ErrMessageTooLarge
  | ErrIncompleteResponse
  | errTimedOut
  | OtherError (text : string).

#[global] Instance error_eq_dec : EqDecision error.
Proof. solve_decision. Defined.

(** [errors.Is(err, target)] on unwrapped error values. *)
Definition errors_Is (err target : error) : bool := bool_decide (err = target).

(** ** Data model *)

Definition bytes : Type := list Byte.byte.

Record RecordHeader : Type := mkRecordHeader {
  hdr_Key : bytes;
  hdr_Value : bytes
}.

(** A record of a record batch (Go's [Record]). *)
Record KRecord : Type := mkKRecord {
  rec_Headers : list RecordHeader;
  rec_OffsetDelta : Z;
  rec_TimestampDelta : Z;
  rec_Key : bytes;
  rec_Value : bytes
}.

Record RecordBatch : Type := mkRecordBatch {
  FirstOffset : Z;
  LastOffsetDelta : Z;
  FirstTimestamp : Z;
  MaxTimestamp : Z;
  ProducerID : Z;
  LogAppendTime : bool;
  IsTransactional : bool;
  Control : bool;
  batch_Records : list KRecord
}.

(** A legacy message with the block that carries it.  [Set] is the nested
    message set of a compressed message. *)
#[warnings="-register-all"]
Inductive MessageBlock : Type :=
  mkMessageBlock
    (mb_Offset : Z)
    (msg_Version : Z)
    (msg_LogAppendTime : bool)
    (msg_Timestamp : Z)
    (msg_Key msg_Value : bytes)
    (msg_Set : option (list MessageBlock)).

Definition mb_Offset (b : MessageBlock) : Z := let '(mkMessageBlock o _ _ _ _ _ _) := b in o.
Definition msg_Version (b : MessageBlock) : Z := let '(mkMessageBlock _ v _ _ _ _ _) := b in v.
Definition msg_LogAppendTime (b : MessageBlock) : bool := let '(mkMessageBlock _ _ l _ _ _ _) := b in l.
Definition msg_Timestamp (b : MessageBlock) : Z := let '(mkMessageBlock _ _ _ t _ _ _) := b in t.
Definition msg_Key (b : MessageBlock) : bytes := let '(mkMessageBlock _ _ _ _ k _ _) := b in k.
Definition msg_Value (b : MessageBlock) : bytes := let '(mkMessageBlock _ _ _ _ _ v _) := b in v.
Definition msg_Set (b : MessageBlock) : option (list MessageBlock) :=
  let '(mkMessageBlock _ _ _ _ _ _ s) := b in s.

Record MessageSet : Type := mkMessageSet {
  set_Messages : list MessageBlock
}.

Inductive ControlRecordType : Type :=
  | ControlRecordAbort
  | ControlRecordCommit
  | ControlRecordUnknown.

Record ControlRecord : Type := mkControlRecord {
  cr_Type : ControlRecordType
}.

(** One entry of a block's [RecordsSet]: the tag [recordsType] with the
    container it selects. *)
Inductive Records : Type :=
  | legacyRecords (MsgSet : MessageSet)
  | defaultRecords (Batch : RecordBatch)
  | unknownRecords (recordsType : Z).

Record AbortedTransaction : Type := mkAbortedTransaction {
  txn_ProducerID : Z;
  txn_FirstOffset : Z
}.

Record FetchResponseBlock : Type := mkFetchResponseBlock {
  Err : error;
  HighWaterMarkOffset : Z;
  PreferredReadReplica : Z;
  recordsNextOffset : option Z;
  AbortedTransactions : list AbortedTransaction;
  RecordsSet : list Records;
  Partial : bool
}.

Record FetchResponse : Type := mkFetchResponse {
  ThrottleTime : Z;
  Blocks : gmap string (gmap Z FetchResponseBlock)
}.

Record ConsumerMessage : Type := mkConsumerMessage {
  Headers : list RecordHeader;
  Timestamp : Z;
  BlockTimestamp : Z;
  Key : bytes;
  Value : bytes;
  Topic : string;
  Partition : Z;
  Offset : Z
}.

Record ConsumerError : Type := mkConsumerError {
  ce_Topic : string;
  ce_Partition : Z;
  ce_Err : error
}.

Inductive IsolationLevel : Type :=
  | ReadUncommitted
  | ReadCommitted.

#[global] Instance IsolationLevel_eq_dec : EqDecision IsolationLevel.
Proof. solve_decision. Defined.

(** The consumer's view of [Config]: [conf.Consumer.Fetch.Max] is
    [Consumer_Fetch_Max], and so on. *)
Record KafkaVersion : Type := mkKafkaVersion {
  v_major : N;
  v_minor : N;
  v_veryMinor : N;
  v_patch : N
}.

Record Config : Type := mkConfig {
  Consumer_Fetch_Min : Z;
  Consumer_Fetch_Default : Z;
  Consumer_Fetch_Max : Z;
  Consumer_MaxWaitTime : Z;
  Consumer_IsolationLevel : IsolationLevel;
  Consumer_Return_Errors : bool;
  RackID : string;
  Version : KafkaVersion
}.

(** A [chan none]: how many values were sent on it and whether it was
    closed. *)
Record signal_chan : Type := mkSignalChan {
  chan_sent : nat;
  chan_closed : bool
}.

Definition chan_send (c : signal_chan) : signal_chan :=
  {| chan_sent := S (chan_sent c); chan_closed := chan_closed c |}.

Definition chan_close (c : signal_chan) : signal_chan :=
  {| chan_sent := chan_sent c; chan_closed := true |}.

Definition invalidPreferredReplicaID : Z := -1.

(** The mutable state of a [partitionConsumer].  [errors] holds what was
    written to the error channel, [logged] what [sendError] printed through
    the logger instead. *)
Record partitionConsumer : Type := mkPartitionConsumer {
  highWaterMarkOffset : Z;
  leaderEpoch : Z;
  preferredReadReplica : Z;
  trigger : signal_chan;
  topic : string;
  partition : Z;
  responseResult : option error;
  fetchSize : Z;
  offset : Z;
  retries : Z;
  paused : Z;
  errors : list ConsumerError;
  logged : list ConsumerError
}.

Definition set_offset (o : Z) (c : partitionConsumer) : partitionConsumer :=
  mkPartitionConsumer (highWaterMarkOffset c) (leaderEpoch c) (preferredReadReplica c)
    (trigger c) (topic c) (partition c) (responseResult c) (fetchSize c) o
    (retries c) (paused c) (errors c) (logged c).

Definition set_fetchSize (f : Z) (c : partitionConsumer) : partitionConsumer :=
  mkPartitionConsumer (highWaterMarkOffset c) (leaderEpoch c) (preferredReadReplica c)
    (trigger c) (topic c) (partition c) (responseResult c) f (offset c)
    (retries c) (paused c) (errors c) (logged c).

Definition set_highWaterMarkOffset (h : Z) (c : partitionConsumer) : partitionConsumer :=
  mkPartitionConsumer h (leaderEpoch c) (preferredReadReplica c)
    (trigger c) (topic c) (partition c) (responseResult c) (fetchSize c) (offset c)
    (retries c) (paused c) (errors c) (logged c).

Definition set_preferredReadReplica (r : Z) (c : partitionConsumer) : partitionConsumer :=
  mkPartitionConsumer (highWaterMarkOffset c) (leaderEpoch c) r
    (trigger c) (topic c) (partition c) (responseResult c) (fetchSize c) (offset c)
    (retries c) (paused c) (errors c) (logged c).

Definition set_responseResult (r : option error) (c : partitionConsumer) : partitionConsumer :=
  mkPartitionConsumer (highWaterMarkOffset c) (leaderEpoch c) (preferredReadReplica c)
    (trigger c) (topic c) (partition c) r (fetchSize c) (offset c)
    (retries c) (paused c) (errors c) (logged c).

Definition set_trigger (t : signal_chan) (c : partitionConsumer) : partitionConsumer :=
  mkPartitionConsumer (highWaterMarkOffset c) (leaderEpoch c) (preferredReadReplica c)
    t (topic c) (partition c) (responseResult c) (fetchSize c) (offset c)
    (retries c) (paused c) (errors c) (logged c).

Definition set_errors (e : list ConsumerError) (c : partitionConsumer) : partitionConsumer :=
  mkPartitionConsumer (highWaterMarkOffset c) (leaderEpoch c) (preferredReadReplica c)
    (trigger c) (topic c) (partition c) (responseResult c) (fetchSize c) (offset c)
    (retries c) (paused c) e (logged c).

Definition set_logged (e : list ConsumerError) (c : partitionConsumer) : partitionConsumer :=
  mkPartitionConsumer (highWaterMarkOffset c) (leaderEpoch c) (preferredReadReplica c)
    (trigger c) (topic c) (partition c) (responseResult c) (fetchSize c) (offset c)
    (retries c) (paused c) (errors c) e.

(** ** sendError *)

Definition sendError (conf : Config) (err : error) (child : partitionConsumer)
  : partitionConsumer :=
  let cErr := {| ce_Topic := topic child; ce_Partition := partition child; ce_Err := err |} in
  if Consumer_Return_Errors conf
  then set_errors (errors child ++ [cErr]) child
  else set_logged (logged child ++ [cErr]) child.

(** ** parseRecords *)

(** The message [parseRecords] appends for the record [rec] at [offset_]. *)
Definition recordMessage (child : partitionConsumer) (batch : RecordBatch) (rec : KRecord)
    (offset_ : Z) : ConsumerMessage :=
  let timestamp := FirstTimestamp batch + rec_TimestampDelta rec in
  let timestamp := if LogAppendTime batch then MaxTimestamp batch else timestamp in
  {| Headers := rec_Headers rec;
     Timestamp := timestamp;
     BlockTimestamp := 0;
     Key := rec_Key rec;
     Value := rec_Value rec;
     Topic := topic child;
     Partition := partition child;
     Offset := offset_ |}.

(** One iteration of the loop over [batch.Records]: the state is the
    consumer and the messages appended so far. *)
Definition parseRecords_step (batch : RecordBatch)
    (st : partitionConsumer * list ConsumerMessage) (rec : KRecord)
  : partitionConsumer * list ConsumerMessage :=
  let '(child, messages) := st in
  let offset_ := add64 (FirstOffset batch) (rec_OffsetDelta rec) in
  if offset_ <? offset child then (child, messages)
  else
    (set_offset (add64 offset_ 1) child,
     messages ++ [recordMessage child batch rec offset_]).

Definition parseRecords_loop (batch : RecordBatch) (recs : list KRecord)
    (st : partitionConsumer * list ConsumerMessage)
  : partitionConsumer * list ConsumerMessage :=
  foldl (parseRecords_step batch) st recs.

Definition parseRecords (child : partitionConsumer) (batch : RecordBatch)
  : partitionConsumer * list ConsumerMessage :=
  let '(child, messages) := parseRecords_loop batch (batch_Records batch) (child, []) in
  if (length messages =? 0)%nat
  then (set_offset (add64 (offset child) 1) child, messages)
  else (child, messages).

(** ** Methods declared outside the consumer

    The parser calls methods of the response, block, records and batch types
    that the decoder files define.  They are taken as an interface: every
    property below that does not name an instance holds for all
    implementations. *)

Inductive result (A : Type) : Type :=
  | Ok (x : A)
  | Fail (err : error).

Arguments Ok {A} x.
Arguments Fail {A} err.

Class Decoder : Type := {
  (** [MessageBlock.Messages] *)
  Messages : MessageBlock → list MessageBlock;
  (** [RecordBatch.LastOffset] *)
  LastOffset : RecordBatch → Z;
  (** [Records.isControl] *)
  isControl : Records → result bool;
  (** [Records.getControlRecord] *)
  getControlRecord : Records → result ControlRecord;
  (** [FetchResponseBlock.numRecords] *)
  numRecords : FetchResponseBlock → result Z;
  (** [FetchResponseBlock.isPartial] *)
  isPartial : FetchResponseBlock → result bool;
  (** [FetchResponseBlock.getAbortedTransactions] *)
  getAbortedTransactions : FetchResponseBlock → list AbortedTransaction;
  (** [FetchResponse.GetBlock] *)
  GetBlock : FetchResponse → string → Z → option FetchResponseBlock
}.

Section Parser.

Context `{Decoder}.

(** ** parseMessages *)

(** The offset and timestamp [parseMessages] computes for the inner message
    [msg] of [msgBlock].  Inside the loop [msgBlock.Messages()] has [msg] as
    an element, so its last element exists. *)
Definition message_offset (msgBlock msg : MessageBlock) : Z :=
  if msg_Version msg >=? 1 then
    match last (Messages msgBlock) with
    | Some lastMsg => add64 (mb_Offset msg) (sub64 (mb_Offset msgBlock) (mb_Offset lastMsg))
    | None => mb_Offset msg
    end
  else mb_Offset msg.

Definition message_timestamp (msgBlock msg : MessageBlock) : Z :=
  if (msg_Version msg >=? 1) && msg_LogAppendTime msg
  then msg_Timestamp msgBlock
  else msg_Timestamp msg.

(** The message [parseMessages] appends for the inner message [msg]. *)
Definition legacyMessage (child : partitionConsumer) (msgBlock msg : MessageBlock)
    (offset_ : Z) : ConsumerMessage :=
  {| Headers := [];
     Timestamp := message_timestamp msgBlock msg;
     BlockTimestamp := msg_Timestamp msgBlock;
     Key := msg_Key msg;
     Value := msg_Value msg;
     Topic := topic child;
     Partition := partition child;
     Offset := offset_ |}.

Definition parseMessages_step (msgBlock : MessageBlock)
    (st : partitionConsumer * list ConsumerMessage) (msg : MessageBlock)
  : partitionConsumer * list ConsumerMessage :=
  let '(child, messages) := st in
  let offset_ := message_offset msgBlock msg in
  if offset_ <? offset child then (child, messages)
  else
    (set_offset (add64 offset_ 1) child,
     messages ++ [legacyMessage child msgBlock msg offset_]).

Definition parseMessages_block
    (st : partitionConsumer * list ConsumerMessage) (msgBlock : MessageBlock)
  : partitionConsumer * list ConsumerMessage :=
  foldl (parseMessages_step msgBlock) st (Messages msgBlock).

Definition parseMessages_loop (blocks : list MessageBlock)
    (st : partitionConsumer * list ConsumerMessage)
  : partitionConsumer * list ConsumerMessage :=
  foldl parseMessages_block st blocks.

Definition parseMessages (child : partitionConsumer) (msgSet : MessageSet)
  : partitionConsumer * list ConsumerMessage :=
  let '(child, messages) := parseMessages_loop (set_Messages msgSet) (child, []) in
  if (length messages =? 0)%nat
  then (set_offset (add64 (offset child) 1) child, messages)
  else (child, messages).

(** ** parseResponse *)

(** The loop that consumes aborted transactions up to the last offset of
    the current batch.  It ranges over the slice [abortedTransactions] as it
    was when the loop started ([txns]) and re-slices the variable of the same
    name ([snd st]) on every iteration; [fst st] is [abortedProducerIDs]. *)
Fixpoint consumeAborted (lastOffset : Z) (txns : list AbortedTransaction)
    (st : gset Z * list AbortedTransaction) : gset Z * list AbortedTransaction :=
  match txns with
  | [] => st
  | txn :: rest =>
      if txn_FirstOffset txn >? lastOffset then st
      else consumeAborted lastOffset rest ({[txn_ProducerID txn]} ∪ st.1, tail st.2)
  end.

(** The variables of the loop over [block.RecordsSet]. *)
Record loopState : Type := mkLoopState {
  ls_child : partitionConsumer;
  abortedProducerIDs : gset Z;
  abortedTransactions : list AbortedTransaction;
  ls_messages : list ConsumerMessage
}.

(** One iteration of the loop over [block.RecordsSet]; [Some err] is the
    early [return nil, err], [None] is falling through or [continue]. *)
Definition parseResponse_step (conf : Config) (st : loopState) (records : Records)
  : loopState * option error :=
  match records with
  | legacyRecords msgSet =>
      let '(child, messageSetMessages) := parseMessages (ls_child st) msgSet in
      (mkLoopState child (abortedProducerIDs st) (abortedTransactions st)
         (ls_messages st ++ messageSetMessages), None)
  | defaultRecords batch =>
      let '(ids, pending) :=
        consumeAborted (LastOffset batch) (abortedTransactions st)
          (abortedProducerIDs st, abortedTransactions st) in
      let '(child, recordBatchMessages) := parseRecords (ls_child st) batch in
      let st' := mkLoopState child ids pending (ls_messages st) in
      match isControl records with
      | Fail err =>
          if bool_decide (Consumer_IsolationLevel conf = ReadCommitted)
          then (st', Some err)
          else (st', None)
      | Ok true =>
          match getControlRecord records with
          | Fail err => (st', Some err)
          | Ok controlRecord =>
              match cr_Type controlRecord with
              | ControlRecordAbort =>
                  (mkLoopState child (ids ∖ {[ProducerID batch]}) pending (ls_messages st), None)
              | _ => (st', None)
              end
          end
      | Ok false =>
          if bool_decide (Consumer_IsolationLevel conf = ReadCommitted)
             && IsTransactional batch
             && bool_decide (ProducerID batch ∈ ids)
          then (st', None)
          else (mkLoopState child ids pending (ls_messages st ++ recordBatchMessages), None)
      end
  | unknownRecords recordsType =>
      (st, Some (OtherError "unknown records type"))
  end.

Fixpoint parseResponse_loop (conf : Config) (st : loopState) (recordsSet : list Records)
  : loopState * option error :=
  match recordsSet with
  | [] => (st, None)
  | records :: rest =>
      match parseResponse_step conf st records with
      | (st', Some err) => (st', Some err)
      | (st', None) => parseResponse_loop conf st' rest
      end
  end.

(** The branch taken for a block without records. *)
Definition parseResponse_noRecords (conf : Config) (child : partitionConsumer)
    (block : FetchResponseBlock) (partialTrailingMessage : bool) : partitionConsumer :=
  if partialTrailingMessage then
    if (Consumer_Fetch_Max conf >? 0) && (fetchSize child =? Consumer_Fetch_Max conf)
    then
      let child := sendError conf ErrMessageTooLarge child in
      set_offset (add64 (offset child) 1) child
    else
      let child := set_fetchSize (mul32 (fetchSize child) 2) child in
      let child := if fetchSize child <? 0 then set_fetchSize MaxInt32 child else child in
      if (Consumer_Fetch_Max conf >? 0) && (fetchSize child >? Consumer_Fetch_Max conf)
      then set_fetchSize (Consumer_Fetch_Max conf) child
      else child
  else
    match recordsNextOffset block with
    | Some next =>
        if next <=? HighWaterMarkOffset block then set_offset next child else child
    | None => child
    end.

(** [parseResponse] returns the consumer's new state with the pair
    (messages, error) of the source. *)
Definition parseResponse (conf : Config) (child : partitionConsumer) (response : FetchResponse)
  : partitionConsumer * (list ConsumerMessage * option error) :=
  if negb (ThrottleTime response =? 0) && (size (Blocks response) =? 0)%nat
  then (child, ([], None))
  else
    match GetBlock response (topic child) (partition child) with
    | None => (child, ([], Some ErrIncompleteResponse))
    | Some block =>
        if negb (errors_Is (Err block) ErrNoError) then (child, ([], Some (Err block)))
        else
          match numRecords block with
          | Fail err => (child, ([], Some err))
          | Ok nRecs =>
              let child :=
                if negb (PreferredReadReplica block =? invalidPreferredReplicaID)
                then set_preferredReadReplica (PreferredReadReplica block) child
                else child in
              if nRecs =? 0 then
                match isPartial block with
                | Fail err => (child, ([], Some err))
                | Ok partialTrailingMessage =>
                    (parseResponse_noRecords conf child block partialTrailingMessage,
                     ([], None))
                end
              else
                let child := set_fetchSize (Consumer_Fetch_Default conf) child in
                let child := set_highWaterMarkOffset (HighWaterMarkOffset block) child in
                let st := mkLoopState child ∅ (getAbortedTransactions block) [] in
                match parseResponse_loop conf st (RecordsSet block) with
                | (st', Some err) => (ls_child st', ([], Some err))
                | (st', None) => (ls_child st', (ls_messages st', None))
                end
          end
    end.

End Parser.

(** ** A decoder instance for the scenarios of the specification *)

Module SpecDecoder.

(** Modelled from the spec: [MessageBlock.Messages] is not among the
    consumer's sources.  §4.A: "each block may itself contain nested
    compressed messages"; a block without a nested set holds itself. *)
Definition Messages (msgBlock : MessageBlock) : list MessageBlock :=
  match msg_Set msgBlock with
  | Some inner => inner
  | None => [msgBlock]
  end.

(** Modelled from the spec: [RecordBatch.LastOffset] is not among the
    consumer's sources.  §4.B step 6 names it [currentBatch.lastOffset]; it is
    the batch's first offset plus its last offset delta. *)
Definition LastOffset (batch : RecordBatch) : Z :=
  add64 (FirstOffset batch) (LastOffsetDelta batch).

(** Modelled from the spec: [Records.isControl] is not among the consumer's
    sources.  §4.A: a default batch carries the attribute [isControl]; a
    legacy message set never does. *)
Definition isControl (records : Records) : result bool :=
  match records with
  | defaultRecords batch => Ok (Control batch)
  | legacyRecords _ => Ok false
  | unknownRecords _ => Fail (OtherError "unknown records type")
  end.

(** Modelled from the spec: [Records.getControlRecord] is not among the
    consumer's sources.  §4.A: "a control record has a typed body (commit vs
    abort)".  The body is the key of the batch's first record: a two-byte
    version followed by a two-byte type, 0 for abort and 1 for commit. *)
Definition getControlRecord (records : Records) : result ControlRecord :=
  match records with
  | defaultRecords batch =>
      match batch_Records batch with
      | [] => Fail (OtherError "cannot get control record, record batch is empty")
      | firstRecord :: _ =>
          match rec_Key firstRecord with
          | _ :: _ :: hi :: lo :: _ =>
              match Byte.to_N hi, Byte.to_N lo with
              | 0%N, 0%N => Ok (mkControlRecord ControlRecordAbort)
              | 0%N, 1%N => Ok (mkControlRecord ControlRecordCommit)
              | _, _ => Ok (mkControlRecord ControlRecordUnknown)
              end
          | _ => Fail (OtherError "insufficient data to decode packet")
          end
      end
  | _ => Fail (OtherError "cannot get control record, record batch is empty")
  end.

(** Modelled from the spec: [FetchResponseBlock.numRecords] is not among the
    consumer's sources.  §4.B step 4: "If the block contains zero records";
    the count is taken over all entries of the block. *)
Definition records_count (records : Records) : result Z :=
  match records with
  | legacyRecords msgSet => Ok (Z.of_nat (length (set_Messages msgSet)))
  | defaultRecords batch => Ok (Z.of_nat (length (batch_Records batch)))
  | unknownRecords _ => Fail (OtherError "unknown records type")
  end.

Fixpoint numRecords_from (sum : Z) (recordsSet : list Records) : result Z :=
  match recordsSet with
  | [] => Ok sum
  | records :: rest =>
      match records_count records with
      | Ok count => numRecords_from (sum + count) rest
      | Fail err => Fail err
      end
  end.

Definition numRecords (block : FetchResponseBlock) : result Z :=
  numRecords_from 0 (RecordsSet block).

(** Modelled from the spec: [FetchResponseBlock.isPartial] is not among the
    consumer's sources.  §4.A: a partial trailing batch "is reported as a
    distinct outcome to the Fetch-Response Parser". *)
Definition isPartial (block : FetchResponseBlock) : result bool :=
  Ok (Partial block).

(** Modelled from the spec: [FetchResponseBlock.getAbortedTransactions] is
    not among the consumer's sources.  §4.B step 6: "the block's
    [abortedTransactions] list in order". *)
Definition getAbortedTransactions (block : FetchResponseBlock) : list AbortedTransaction :=
  AbortedTransactions block.

(** Modelled from the spec: [FetchResponse.GetBlock] is not among the
    consumer's sources.  §6: [blocks[topic][partition]]. *)
Definition GetBlock (response : FetchResponse) (topic_ : string) (partition_ : Z)
  : option FetchResponseBlock :=
  match Blocks response !! topic_ with
  | Some partitions => partitions !! partition_
  | None => None
  end.

#[export] Instance decoder : Decoder :=
  Build_Decoder Messages LastOffset isControl getControlRecord
    numRecords isPartial getAbortedTransactions GetBlock.

End SpecDecoder.

(** ** handleResponses *)

(** The client operations [preferredBroker] uses.  A broker is identified by
    the value of its [ID()]. *)
Record Client : Type := mkClient {
  client_Broker : Z → result Z;
  client_LeaderAndEpoch : string → Z → result (Z * Z)
}.

(** [preferredBroker] returns the broker, the epoch and the error of the
    source as a [result]; the metadata refresh it requests on the fallback
    path changes nothing the consumer reads here. *)
Definition preferredBroker (client : Client) (child : partitionConsumer)
  : partitionConsumer * result (Z * Z) :=
  if preferredReadReplica child >=? 0 then
    match client_Broker client (preferredReadReplica child) with
    | Ok broker => (child, Ok (broker, leaderEpoch child))
    | Fail _ =>
        let child := set_preferredReadReplica invalidPreferredReplicaID child in
        (child, client_LeaderAndEpoch client (topic child) (partition child))
    end
  else (child, client_LeaderAndEpoch client (topic child) (partition child)).

(** The retriable outcomes, as the disjunction of [errors.Is] tests. *)
Definition needs_redispatch (result : error) : bool :=
  errors_Is result ErrUnknownTopicOrPartition
  || errors_Is result ErrNotLeaderForPartition
  || errors_Is result ErrLeaderNotAvailable
  || errors_Is result ErrReplicaNotAvailable
  || errors_Is result ErrFencedLeaderEpoch
  || errors_Is result ErrUnknownLeaderEpoch.

(** The body of the loop of [handleResponses] for one subscription.  The
    boolean tells whether [delete(bc.subscriptions, child)] ran. *)
Definition handleResponse (conf : Config) (client : Client) (brokerID : Z)
    (child : partitionConsumer) : partitionConsumer * bool :=
  let result := responseResult child in
  let child := set_responseResult None child in
  match result with
  | None =>
      match preferredBroker client child with
      | (child, Ok (preferred, _)) =>
          if negb (brokerID =? preferred)
          then (set_trigger (chan_send (trigger child)) child, true)
          else (child, false)
      | (child, Fail _) => (child, false)
      end
  | Some result =>
      let child := set_preferredReadReplica invalidPreferredReplicaID child in
      if errors_Is result errTimedOut then (child, true)
      else if errors_Is result ErrOffsetOutOfRange then
        let child := sendError conf result child in
        (set_trigger (chan_close (trigger child)) child, true)
      else if needs_redispatch result then
        (set_trigger (chan_send (trigger child)) child, true)
      else
        let child := sendError conf result child in
        (set_trigger (chan_send (trigger child)) child, true)
  end.

(** A [brokerConsumer]: the identifier of its broker and its subscriptions,
    a set of references into the store of partition consumers. *)
Record brokerConsumer : Type := mkBrokerConsumer {
  bc_broker : Z;
  subscriptions : gset nat
}.

Definition handleResponses_step (conf : Config) (client : Client) (brokerID : Z)
    (st : gmap nat partitionConsumer * gset nat) (p : nat)
  : gmap nat partitionConsumer * gset nat :=
  match st.1 !! p with
  | Some child =>
      let '(child', deleted) := handleResponse conf client brokerID child in
      (<[p := child']> st.1, if deleted then st.2 ∖ {[p]} else st.2)
  | None => st
  end.

(** [handleResponses] visits every subscription once, in the order the map
    iteration yields them. *)
Definition handleResponses (conf : Config) (client : Client)
    (store : gmap nat partitionConsumer) (bc : brokerConsumer)
  : gmap nat partitionConsumer * brokerConsumer :=
  let '(store', subs) :=
    foldl (handleResponses_step conf client (bc_broker bc))
      (store, subscriptions bc) (elements (subscriptions bc)) in
  (store', mkBrokerConsumer (bc_broker bc) subs).

(** ** fetchNewMessages *)

(** Modelled from the spec: [KafkaVersion.IsAtLeast] and the version
    constants are not among the consumer's sources.  §6 orders broker
    versions ("Broker version ≥") by their components, most significant
    first. *)
Definition IsAtLeast (v other : KafkaVersion) : bool :=
  if (v_major other <? v_major v)%N then true
  else if (v_major v <? v_major other)%N then false
  else if (v_minor other <? v_minor v)%N then true
  else if (v_minor v <? v_minor other)%N then false
  else if (v_veryMinor other <? v_veryMinor v)%N then true
  else if (v_veryMinor v <? v_veryMinor other)%N then false
  else if (v_patch other <? v_patch v)%N then true
  else if (v_patch v <? v_patch other)%N then false
  else true.

Definition V0_9_0_0 : KafkaVersion := mkKafkaVersion 0 9 0 0.
Definition V0_10_0_0 : KafkaVersion := mkKafkaVersion 0 10 0 0.
Definition V0_10_1_0 : KafkaVersion := mkKafkaVersion 0 10 1 0.
Definition V0_11_0_0 : KafkaVersion := mkKafkaVersion 0 11 0 0.
Definition V1_0_0_0 : KafkaVersion := mkKafkaVersion 1 0 0 0.
Definition V1_1_0_0 : KafkaVersion := mkKafkaVersion 1 1 0 0.
Definition V2_0_0_0 : KafkaVersion := mkKafkaVersion 2 0 0 0.
Definition V2_1_0_0 : KafkaVersion := mkKafkaVersion 2 1 0 0.
Definition V2_3_0_0 : KafkaVersion := mkKafkaVersion 2 3 0 0.

Record fetchRequestBlock : Type := mkFetchRequestBlock {
  frb_topic : string;
  frb_partition : Z;
  frb_fetchOffset : Z;
  frb_maxBytes : Z;
  frb_leaderEpoch : Z
}.

Record FetchRequest : Type := mkFetchRequest {
  req_Version : Z;
  req_MinBytes : Z;
  req_MaxWaitTime : Z;
  req_MaxBytes : Z;
  req_Isolation : IsolationLevel;
  req_SessionID : Z;
  req_SessionEpoch : Z;
  req_RackID : string;
  req_blocks : list fetchRequestBlock
}.

Definition set_Version (v : Z) (r : FetchRequest) : FetchRequest :=
  mkFetchRequest v (req_MinBytes r) (req_MaxWaitTime r) (req_MaxBytes r) (req_Isolation r)
    (req_SessionID r) (req_SessionEpoch r) (req_RackID r) (req_blocks r).

Definition set_MaxBytes (m : Z) (r : FetchRequest) : FetchRequest :=
  mkFetchRequest (req_Version r) (req_MinBytes r) (req_MaxWaitTime r) m (req_Isolation r)
    (req_SessionID r) (req_SessionEpoch r) (req_RackID r) (req_blocks r).

Definition set_Isolation (i : IsolationLevel) (r : FetchRequest) : FetchRequest :=
  mkFetchRequest (req_Version r) (req_MinBytes r) (req_MaxWaitTime r) (req_MaxBytes r) i
    (req_SessionID r) (req_SessionEpoch r) (req_RackID r) (req_blocks r).

Definition set_Session (id epoch : Z) (r : FetchRequest) : FetchRequest :=
  mkFetchRequest (req_Version r) (req_MinBytes r) (req_MaxWaitTime r) (req_MaxBytes r)
    (req_Isolation r) id epoch (req_RackID r) (req_blocks r).

Definition set_RackID (s : string) (r : FetchRequest) : FetchRequest :=
  mkFetchRequest (req_Version r) (req_MinBytes r) (req_MaxWaitTime r) (req_MaxBytes r)
    (req_Isolation r) (req_SessionID r) (req_SessionEpoch r) s (req_blocks r).

(** Modelled from the spec: [FetchRequest.AddBlock] is not among the
    consumer's sources.  §4.D step 3: the request contains "one block per
    non-paused subscription with its (offset, fetchSize, leaderEpoch)". *)
Definition AddBlock (r : FetchRequest) (topic_ : string) (partition_ fetchOffset maxBytes
    leaderEpoch_ : Z) : FetchRequest :=
  mkFetchRequest (req_Version r) (req_MinBytes r) (req_MaxWaitTime r) (req_MaxBytes r)
    (req_Isolation r) (req_SessionID r) (req_SessionEpoch r) (req_RackID r)
    (req_blocks r ++ [mkFetchRequestBlock topic_ partition_ fetchOffset maxBytes leaderEpoch_]).

Definition IsPaused (child : partitionConsumer) : bool := paused child =? 1.

Section Fetch.

(** The package variable [MaxResponseSize] and the broker's [Fetch] call. *)
Variable MaxResponseSize : Z.
Variable Fetch : FetchRequest → result FetchResponse.

Definition millisecond : Z := 1000000.

(** The request as it stands after the version checks, before the blocks
    are added.  Each [when] is one [if] statement of the source. *)
Definition when (cond : bool) (f : FetchRequest → FetchRequest) (r : FetchRequest)
  : FetchRequest :=
  if cond then f r else r.

Definition versionedRequest (conf : Config) : FetchRequest :=
  let request :=
    mkFetchRequest 0 (Consumer_Fetch_Min conf)
      (wrap32 (Consumer_MaxWaitTime conf `quot` millisecond))
      0 ReadUncommitted 0 0 "" [] in
  let request := when (IsAtLeast (Version conf) V0_9_0_0) (set_Version 1) request in
  let request := when (IsAtLeast (Version conf) V0_10_0_0) (set_Version 2) request in
  let request :=
    when (IsAtLeast (Version conf) V0_10_1_0)
      (λ r, set_MaxBytes MaxResponseSize (set_Version 3 r)) request in
  let request :=
    when (IsAtLeast (Version conf) V0_11_0_0)
      (λ r, set_Isolation (Consumer_IsolationLevel conf) (set_Version 5 r)) request in
  let request := when (IsAtLeast (Version conf) V1_0_0_0) (set_Version 6) request in
  let request :=
    when (IsAtLeast (Version conf) V1_1_0_0)
      (λ r, set_Session 0 (-1) (set_Version 7 r)) request in
  let request := when (IsAtLeast (Version conf) V2_0_0_0) (set_Version 8) request in
  let request := when (IsAtLeast (Version conf) V2_1_0_0) (set_Version 10) request in
  when (IsAtLeast (Version conf) V2_3_0_0)
    (λ r, set_RackID (RackID conf) (set_Version 11 r)) request.

Definition addSubscription (store : gmap nat partitionConsumer)
    (request : FetchRequest) (p : nat) : FetchRequest :=
  match store !! p with
  | Some child =>
      if negb (IsPaused child)
      then AddBlock request (topic child) (partition child) (offset child)
             (fetchSize child) (leaderEpoch child)
      else request
  | None => request
  end.

(** The request [fetchNewMessages] has built when it decides whether to
    call the broker. *)
Definition fetchRequest (conf : Config) (store : gmap nat partitionConsumer)
    (bc : brokerConsumer) : FetchRequest :=
  foldl (addSubscription store) (versionedRequest conf) (elements (subscriptions bc)).

(** [Ok None] is the return [nil, nil] of the source: no fetch was made. *)
Definition fetchNewMessages (conf : Config) (store : gmap nat partitionConsumer)
    (bc : brokerConsumer) : result (option FetchResponse) :=
  let request := fetchRequest conf store bc in
  if (length (req_blocks request) =? 0)%nat then Ok None
  else
    match Fetch request with
    | Ok response => Ok (Some response)
    | Fail err => Fail err
    end.

End Fetch.

(** ** Scenario data *)

Module Scenario.

Definition conf (isolation : IsolationLevel) (fetchDefault fetchMax : Z) : Config :=
  mkConfig 1 fetchDefault fetchMax 250000000 isolation true "" (mkKafkaVersion 2 3 0 0).

(** A subscription of partition 0 of topic "events" at offset [off] with
    fetch size [size]. *)
Definition subscription (off size : Z) : partitionConsumer :=
  mkPartitionConsumer 0 0 invalidPreferredReplicaID (mkSignalChan 0 false)
    "events" 0 None size off 0 0 [] [].

Definition record_at (delta : Z) : KRecord := mkKRecord [] delta 0 [] [].

(** A batch of plain records with consecutive offsets from [first]. *)
Definition batch (first producer : Z) (transactional control : bool)
    (records : list KRecord) : RecordBatch :=
  mkRecordBatch first (Z.of_nat (length records) - 1) 0 0 producer false
    transactional control records.

Definition block (aborted : list AbortedTransaction) (recordsSet : list Records)
  : FetchResponseBlock :=
  mkFetchResponseBlock ErrNoError 1000 invalidPreferredReplicaID None aborted recordsSet false.

(** A block without records that ends in a partial trailing batch. *)
Definition partial_block : FetchResponseBlock :=
  mkFetchResponseBlock ErrNoError 1000 invalidPreferredReplicaID None [] [] true.

Definition response (b : FetchResponseBlock) : FetchResponse :=
  mkFetchResponse 0 {[ "events" := {[ 0 := b ]} ]}.

(** S1: records at offsets 40, 41, 42, 43. *)
Definition s1_batch : RecordBatch :=
  batch 40 (-1) false false [record_at 0; record_at 1; record_at 2; record_at 3].

(** S3: a transactional batch of producer 7 at offset 100, its abort marker
    at offset 101, a plain batch at offset 102. *)
Definition abort_marker : KRecord :=
  mkKRecord [] 0 0 [Byte.x00; Byte.x00; Byte.x00; Byte.x00] [].

Definition s3_batch100 : RecordBatch := batch 100 7 true false [record_at 0].
Definition s3_batch101 : RecordBatch := batch 101 7 true true [abort_marker].
Definition s3_batch102 : RecordBatch := batch 102 (-1) false false [record_at 0].

Definition s3_aborted : list AbortedTransaction := [mkAbortedTransaction 7 100].

End Scenario.

(** ** Sequences of responses *)

Section Runs.

Context `{Decoder}.

(** The consumer after the feeder has parsed [responses] in order. *)
Definition parseAll (conf : Config) (child : partitionConsumer)
    (responses : list FetchResponse) : partitionConsumer :=
  foldl (λ c response, (parseResponse conf c response).1) child responses.

End Runs.

(** ** Responses without records that end in a partial trailing batch *)

Section PartialTrailing.

Context `{Decoder}.

(** [response] is not a throttled empty response. *)
Definition answered (response : FetchResponse) : Prop :=
  ThrottleTime response = 0 ∨ size (Blocks response) ≠ 0%nat.

(** [response] reaches the branch of [parseResponse] for a block of the
    subscription that has zero records and a partial trailing batch. *)
Definition partial_trailing (child : partitionConsumer) (response : FetchResponse) : Prop :=
  answered response
  ∧ ∃ block,
      GetBlock response (topic child) (partition child) = Some block
      ∧ Err block = ErrNoError
      ∧ numRecords block = Ok 0
      ∧ isPartial block = Ok true.

End PartialTrailing.

(** The consumer error [sendError] builds for [child]. *)
Definition consumerError (child : partitionConsumer) (err : error) : ConsumerError :=
  {| ce_Topic := topic child; ce_Partition := partition child; ce_Err := err |}.

(** What the user sees of a consumer's errors: the error channel when
    [Return.Errors] is set, the logger otherwise. *)
Definition surfaced (conf : Config) (child : partitionConsumer) : list ConsumerError :=
  if Consumer_Return_Errors conf then errors child else logged child.

(** The consumer as it enters the branch: only the preferred read replica
    may have been recorded. *)
Definition with_replica (block : FetchResponseBlock) (child : partitionConsumer)
  : partitionConsumer :=
  if negb (PreferredReadReplica block =? invalidPreferredReplicaID)
  then set_preferredReadReplica (PreferredReadReplica block) child
  else child.


(** The fetch size after a partial trailing batch below the limit: doubled
    in [int32], set to [MaxInt32] when negative, then cut to the configured
    maximum when there is one. *)
Definition doubled (fetchMax size : Z) : Z :=
  let size := mul32 size 2 in
  let size := if size <? 0 then MaxInt32 else size in
  if (fetchMax >? 0) && (size >? fetchMax) then fetchMax else size.

(** S2: [n] responses without records that end in a partial trailing
    batch. *)
Definition s2_responses (n : nat) : list FetchResponse :=
  replicate n (Scenario.response Scenario.partial_block).

(** ** The shape the two record loops share *)

(** Both loops offer each record to the consumer: a record below the cursor
    is skipped, any other is appended and moves the cursor one past it. *)
Definition offer (o : Z) (m : ConsumerMessage)
    (st : partitionConsumer * list ConsumerMessage)
  : partitionConsumer * list ConsumerMessage :=
  if o <? offset st.1 then st
  else (set_offset (add64 o 1) st.1, st.2 ++ [m]).

Section Offsets.

Context `{Decoder}.

(** The offsets [parseResponse] computes for the records of one entry of a
    block, in the order it visits them. *)
Definition batch_offsets (batch : RecordBatch) : list Z :=
  (λ rec, add64 (FirstOffset batch) (rec_OffsetDelta rec)) <$> batch_Records batch.

Definition messageBlock_offsets (msgBlock : MessageBlock) : list Z :=
  message_offset msgBlock <$> Messages msgBlock.

Definition messageSet_offsets (msgSet : MessageSet) : list Z :=
  concat (messageBlock_offsets <$> set_Messages msgSet).

Definition records_offsets (records : Records) : list Z :=
  match records with
  | legacyRecords msgSet => messageSet_offsets msgSet
  | defaultRecords batch => batch_offsets batch
  | unknownRecords _ => []
  end.

(** No increment of the offset can leave [int64] while the entries
    [recordsSet] are parsed from the cursor [cursor]: there is room for one
    step per entry above the cursor and above every record. *)
Definition no_overflow (cursor : Z) (recordsSet : list Records) : Prop :=
  let n := Z.of_nat (length recordsSet) in
  MinInt64 ≤ cursor ∧ cursor + n < MaxInt64
  ∧ Forall (λ records,
      Forall (λ o, MinInt64 ≤ o ∧ o + n < MaxInt64) (records_offsets records)) recordsSet.

End Offsets.

(** The cursor after a loop either is untouched, with nothing appended, or
    is one past the last appended message. *)
Definition cursor_follows (child0 : partitionConsumer) (messages0 : list ConsumerMessage)
    (st : partitionConsumer * list ConsumerMessage) : Prop :=
  (st.2 = messages0 ∧ offset st.1 = offset child0)
  ∨ (∃ m, last st.2 = Some m ∧ offset st.1 = add64 (Offset m) 1 ∧ st.2 ≠ messages0
          ∧ length messages0 < length st.2)%nat.

(** How a loop over records moved the state from [st] to [st'], given room
    below [bound] for the offsets [offs] it visited. *)
Definition advanced (bound : Z) (offs : list Z)
    (st st' : partitionConsumer * list ConsumerMessage) : Prop :=
  offset st.1 ≤ offset st'.1 ∧ offset st'.1 ≤ bound
  ∧ Forall (λ o, o < offset st'.1) offs
  ∧ ∃ new, st'.2 = st.2 ++ new
           ∧ Forall (λ m, offset st.1 ≤ Offset m ∧ Offset m < offset st'.1) new
           ∧ (new = [] → st'.1 = st.1).

(** The ending both parsers share: when nothing was appended the offset is
    incremented. *)
Definition finish (st : partitionConsumer * list ConsumerMessage)
  : partitionConsumer * list ConsumerMessage :=
  if (length st.2 =? 0)%nat then (set_offset (add64 (offset st.1) 1) st.1, st.2) else st.

(** A transactional batch of producer 7 with records at offsets 100 and
    101, and two plain batches whose records lie below offset 42. *)
Definition aborted_pair : RecordBatch :=
  Scenario.batch 100 7 true false [Scenario.record_at 0; Scenario.record_at 1].

Definition stale_batches : list Records :=
  [defaultRecords (Scenario.batch 10 (-1) false false [Scenario.record_at 0]);
   defaultRecords (Scenario.batch 20 (-1) false false [Scenario.record_at 0])].

(** ** The aborted-transaction filter, in the words of the specification *)

(** The aborted transactions consumed for a batch whose last offset is
    [lastOffset]: the leading ones that start at or before it. *)
Fixpoint consumed (lastOffset : Z) (txns : list AbortedTransaction)
  : list AbortedTransaction :=
  match txns with
  | [] => []
  | txn :: rest =>
      if txn_FirstOffset txn <=? lastOffset then txn :: consumed lastOffset rest else []
  end.

(** The pending list once they are popped. *)
Fixpoint pending_after (lastOffset : Z) (txns : list AbortedTransaction)
  : list AbortedTransaction :=
  match txns with
  | [] => []
  | txn :: rest =>
      if txn_FirstOffset txn <=? lastOffset then pending_after lastOffset rest else txns
  end.

Definition producers (txns : list AbortedTransaction) : gset Z :=
  list_to_set (txn_ProducerID <$> txns).

Section Withheld.

Context `{Decoder}.

(** The aborted producers while [batch] is filtered. *)
Definition aborted_at (st : loopState) (batch : RecordBatch) : gset Z :=
  abortedProducerIDs st ∪ producers (consumed (LastOffset batch) (abortedTransactions st)).

(** [parseResponse] withholds the records of [batch]: it is a control
    batch that is skipped, or, under [ReadCommitted], a transactional batch
    of an aborted producer. *)
Definition withheld (conf : Config) (st : loopState) (batch : RecordBatch) : Prop :=
  (isControl (defaultRecords batch) = Ok true
   ∧ ∃ controlRecord, getControlRecord (defaultRecords batch) = Ok controlRecord)
  ∨ (Consumer_IsolationLevel conf = ReadCommitted
     ∧ isControl (defaultRecords batch) = Ok false
     ∧ IsTransactional batch = true
     ∧ ProducerID batch ∈ aborted_at st batch).

End Withheld.

(** S3: the loop state with which [parseResponse] enters the records of the
    block, and the three entries of the block. *)
Definition s3_records : list Records :=
  [defaultRecords Scenario.s3_batch100;
   defaultRecords Scenario.s3_batch101;
   defaultRecords Scenario.s3_batch102].

Definition s3_start : loopState :=
  mkLoopState (Scenario.subscription 100 1024) ∅ Scenario.s3_aborted [].

(** ** Responses under which the offset cannot go back *)

Section Steady.

Context `{Decoder}.

(** The next offset a block without records reports, when the parser would
    adopt it, is not behind the subscription. *)
Definition next_offset_ahead (child : partitionConsumer) (block : FetchResponseBlock)
  : Prop :=
  ∀ next, recordsNextOffset block = Some next →
          next ≤ HighWaterMarkOffset block → offset child ≤ next.

(** [response] can only move the offset of [child] forward: parsing its
    block overflows no [int64], and on the path that adopts the block's next
    offset that offset is not behind the subscription. *)
Definition steady (child : partitionConsumer) (response : FetchResponse) : Prop :=
  match GetBlock response (topic child) (partition child) with
  | Some block =>
      no_overflow (offset child) (RecordsSet block)
      ∧ (numRecords block = Ok 0 → isPartial block = Ok false →
         next_offset_ahead child block)
  | None => True
  end.

(** Every response of a sequence is steady for the consumer as it is when
    the response arrives. *)
Fixpoint steady_run (conf : Config) (child : partitionConsumer)
    (responses : list FetchResponse) : Prop :=
  match responses with
  | [] => True
  | response :: rest =>
      steady child response ∧ steady_run conf (parseResponse conf child response).1 rest
  end.

End Steady.

(** A block whose only batch, at offsets 5 to 9, has lost all its records,
    and which reports 10 as the next offset, below the high water mark. *)
Definition compacted_block : FetchResponseBlock :=
  mkFetchResponseBlock ErrNoError 100 invalidPreferredReplicaID (Some 10) []
    [defaultRecords (mkRecordBatch 5 4 0 0 (-1) false false false [])] false.

(** ** Outcomes left for [handleResponses] *)

(** The outcomes that are redispatched without a word to the user. *)
Definition silent_retriable : list error :=
  [ErrUnknownTopicOrPartition; ErrNotLeaderForPartition; ErrLeaderNotAvailable;
   ErrReplicaNotAvailable; ErrFencedLeaderEpoch; ErrUnknownLeaderEpoch].

(** A client that knows no replica and reports broker 1 as every leader. *)
Definition leader_one : Client :=
  mkClient (λ _, Fail (OtherError "broker not found")) (λ _ _, Ok (1, 0)).

(** A subscription at offset 42 whose last response was answered by
    [result]. *)
Definition answered_with (result : error) : partitionConsumer :=
  set_responseResult (Some result) (Scenario.subscription 42 1024).

(** ** The version table of the specification *)

(** §6, "Version negotiation": broker version thresholds with the Fetch
    version each selects. *)
Definition fetchVersionTable : list (KafkaVersion * Z) :=
  [(V0_9_0_0, 1); (V0_10_0_0, 2); (V0_10_1_0, 3); (V0_11_0_0, 5); (V1_0_0_0, 6);
   (V1_1_0_0, 7); (V2_0_0_0, 8); (V2_1_0_0, 10); (V2_3_0_0, 11)].

(** [row] is the greatest threshold of the table that [v] satisfies. *)
Definition greatest_satisfied (v : KafkaVersion) (row : KafkaVersion * Z) : Prop :=
  row ∈ fetchVersionTable
  ∧ IsAtLeast v row.1 = true
  ∧ ∀ row', row' ∈ fetchVersionTable → IsAtLeast v row'.1 = true →
            IsAtLeast row.1 row'.1 = true.

Section Roomy.

Context `{Decoder}.

(** Parsing the block of [response] for [child] overflows no [int64]. *)
Definition roomy (child : partitionConsumer) (response : FetchResponse) : Prop :=
  match GetBlock response (topic child) (partition child) with
  | Some block => no_overflow (offset child) (RecordsSet block)
  | None => True
  end.

End Roomy.

(** A legacy message set of plain messages at offsets 40 to 43. *)
Definition legacy_at (off : Z) : MessageBlock := mkMessageBlock off 0 false 0 [] [] None.

Definition s1_messageSet : MessageSet :=
  mkMessageSet [legacy_at 40; legacy_at 41; legacy_at 42; legacy_at 43].

(** ** The feeder's use of [parseResponse] *)

Definition set_retries (r : Z) (c : partitionConsumer) : partitionConsumer :=
  mkPartitionConsumer (highWaterMarkOffset c) (leaderEpoch c) (preferredReadReplica c)
    (trigger c) (topic c) (partition c) (responseResult c) (fetchSize c) (offset c)
    r (paused c) (errors c) (logged c).

Definition set_paused (p : Z) (c : partitionConsumer) : partitionConsumer :=
  mkPartitionConsumer (highWaterMarkOffset c) (leaderEpoch c) (preferredReadReplica c)
    (trigger c) (topic c) (partition c) (responseResult c) (fetchSize c) (offset c)
    (retries c) p (errors c) (logged c).

Section Feeder.

Context `{Decoder}.

(** What [responseFeeder] does with a response before it hands the messages
    to the user: it parses the response, records the error as the response
    result and sets the retry counter to zero when there is none.  The
    delivery of the messages, with its timer, is not part of this. *)
Definition feed (conf : Config) (child : partitionConsumer) (response : FetchResponse)
  : partitionConsumer * list ConsumerMessage :=
  let '(child, (msgs, err)) := parseResponse conf child response in
  let child := set_responseResult err child in
  let child :=
    match err with
    | None => set_retries 0 child
    | Some _ => child
    end in
  (child, msgs).

End Feeder.

(** [child'] is [child] up to its offset. *)
Definition up_to_offset (child child' : partitionConsumer) : Prop :=
  child' = set_offset (offset child') child.

(** ** Blocks as [parseResponse] meets them *)

Section Paths.

Context `{Decoder}.

(** [parseResponse] reaches the block [block] of the subscription and finds
    it free of error with [nRecs] records. *)
Definition reaches (child : partitionConsumer) (response : FetchResponse)
    (block : FetchResponseBlock) (nRecs : Z) : Prop :=
  answered response
  ∧ GetBlock response (topic child) (partition child) = Some block
  ∧ Err block = ErrNoError
  ∧ numRecords block = Ok nRecs.

End Paths.

(** A block with one record at offset 42 that names replica 5 as preferred
    and reports high water mark 900. *)
Definition replica_block : FetchResponseBlock :=
  mkFetchResponseBlock ErrNoError 900 5 None []
    [defaultRecords (Scenario.batch 42 (-1) false false [Scenario.record_at 0])] false.

(** A block without records whose next offset 60 lies at or below
    ([quiet_block 100]) or above ([quiet_block 50]) its high water mark. *)
Definition quiet_block (highWaterMark : Z) : FetchResponseBlock :=
  mkFetchResponseBlock ErrNoError highWaterMark invalidPreferredReplicaID (Some 60) []
    [defaultRecords (mkRecordBatch 55 4 0 0 (-1) false false false [])] false.

(** ** The order of the messages delivered *)

(** The messages appended so far are in strictly increasing order of offset,
    lie below the cursor and carry the topic and partition of [child0]. *)
Definition in_order (child0 : partitionConsumer)
    (st : partitionConsumer * list ConsumerMessage) : Prop :=
  StronglySorted Z.lt (Offset <$> st.2)
  ∧ Forall (λ m, Offset m < offset st.1
                 ∧ Topic m = topic child0 ∧ Partition m = partition child0) st.2
  ∧ topic st.1 = topic child0 ∧ partition st.1 = partition child0.

Section Delivery.

Context `{Decoder}.

(** The messages [parseResponse] returns over a sequence of responses, in the
    order the feeder would hand them to the user. *)
Fixpoint deliveredAll (conf : Config) (child : partitionConsumer)
    (responses : list FetchResponse) : list ConsumerMessage :=
  match responses with
  | [] => []
  | response :: rest =>
      (parseResponse conf child response).2.1
      ++ deliveredAll conf (parseResponse conf child response).1 rest
  end.

End Delivery.

(** ** Outcomes [handleResponses] names *)

(** The outcomes with a branch of their own in [handleResponses]. *)
Definition named_outcome (err : error) : Prop :=
  err = errTimedOut ∨ err = ErrOffsetOutOfRange ∨ err ∈ silent_retriable.

(** A client that finds every replica, as the broker of the same number. *)
Definition replicas_known : Client :=
  mkClient (λ id, Ok id) (λ _ _, Ok (1, 0)).

(** The block [fetchNewMessages] adds for a subscription. *)
Definition blockFor (child : partitionConsumer) : fetchRequestBlock :=
  mkFetchRequestBlock (topic child) (partition child) (offset child)
    (fetchSize child) (leaderEpoch child).

(** The blocks of the subscriptions [ps] that are not paused. *)
Definition unpausedBlocks (store : gmap nat partitionConsumer) (ps : list nat)
  : list fetchRequestBlock :=
  omap (λ p, match store !! p with
             | Some child => if IsPaused child then None else Some (blockFor child)
             | None => None
             end) ps.

(** ** The consumer and its registries *)

(** A [brokerConsumer] as the registry of the consumer sees it: its broker,
    its reference count, the partition consumers sent on its [input] channel
    and the number of times that channel was closed. *)
Record brokerWorker : Type := mkBrokerWorker {
  worker_broker : Z;
  refs : Z;
  input : list nat;
  input_closes : nat
}.

(** The state of a [consumer]: the maps [children] and [brokerConsumers] of
    the source, whose pointers are references into [heap], the store of
    partition consumers, and into [workers], the store of broker
    consumers. *)
Record consumer : Type := mkConsumer {
  children : gmap string (gmap Z nat);
  brokerConsumers : gmap Z nat;
  workers : gmap nat brokerWorker;
  heap : gmap nat partitionConsumer
}.

Definition set_children (ch : gmap string (gmap Z nat)) (c : consumer) : consumer :=
  mkConsumer ch (brokerConsumers c) (workers c) (heap c).

Definition set_brokerConsumers (r : gmap Z nat) (c : consumer) : consumer :=
  mkConsumer (children c) r (workers c) (heap c).

Definition set_workers (w : gmap nat brokerWorker) (c : consumer) : consumer :=
  mkConsumer (children c) (brokerConsumers c) w (heap c).

Definition set_heap (h : gmap nat partitionConsumer) (c : consumer) : consumer :=
  mkConsumer (children c) (brokerConsumers c) (workers c) h.

(** The consumer [newConsumer] returns. *)
Definition newConsumer : consumer := mkConsumer ∅ ∅ ∅ ∅.

(** [c.children[topic][partition]]. *)
Definition lookupChild (c : consumer) (topic_ : string) (partition_ : Z) : option nat :=
  children c !! topic_ ≫= (.!! partition_).

Definition ConfigurationError (text : string) : error := OtherError text.

(** [addChild] for the partition consumer [child] at reference [p]. *)
Definition addChild (p : nat) (child : partitionConsumer) (c : consumer)
  : consumer * option error :=
  let '(topicChildren, c) :=
    match children c !! topic child with
    | None => (∅, set_children (<[topic child := ∅]> (children c)) c)
    | Some topicChildren => (topicChildren, c)
    end in
  match topicChildren !! partition child with
  | Some _ =>
      (c, Some (ConfigurationError "That topic/partition is already being consumed"))
  | None =>
      (set_children (<[topic child := <[partition child := p]> topicChildren]> (children c)) c,
       None)
  end.

Definition removeChild (child : partitionConsumer) (c : consumer) : consumer :=
  match children c !! topic child with
  | Some topicChildren =>
      set_children (<[topic child := delete (partition child) topicChildren]> (children c)) c
  | None => c
  end.

Definition HighWaterMarks (c : consumer) : gmap string (gmap Z Z) :=
  (λ p : gmap Z nat, omap (λ pc, highWaterMarkOffset <$> heap c !! pc) p) <$> children c.

(** [newBrokerConsumer], at a reference the store does not yet hold. *)
Definition newBrokerConsumer (broker : Z) (c : consumer) : consumer * nat :=
  let bc := fresh (dom (workers c)) in
  (set_workers (<[bc := mkBrokerWorker broker 0 [] 0]> (workers c)) c, bc).

Definition refBrokerConsumer (broker : Z) (c : consumer) : consumer * nat :=
  let '(c, bc) :=
    match brokerConsumers c !! broker with
    | Some bc => (c, bc)
    | None =>
        let '(c, bc) := newBrokerConsumer broker c in
        (set_brokerConsumers (<[broker := bc]> (brokerConsumers c)) c, bc)
    end in
  (set_workers
     (alter (λ w, mkBrokerWorker (worker_broker w) (add64 (refs w) 1) (input w)
                    (input_closes w)) bc (workers c)) c,
   bc).

Definition unrefBrokerConsumer (brokerWorker_ : nat) (c : consumer) : consumer :=
  match workers c !! brokerWorker_ with
  | Some w =>
      let w := mkBrokerWorker (worker_broker w) (sub64 (refs w) 1) (input w) (input_closes w) in
      if refs w =? 0 then
        let w := mkBrokerWorker (worker_broker w) (refs w) (input w) (S (input_closes w)) in
        let c := set_workers (<[brokerWorker_ := w]> (workers c)) c in
        if bool_decide (brokerConsumers c !! worker_broker w = Some brokerWorker_)
        then set_brokerConsumers (delete (worker_broker w) (brokerConsumers c)) c
        else c
      else set_workers (<[brokerWorker_ := w]> (workers c)) c
  | None => c
  end.

Definition abandonBrokerConsumer (brokerWorker_ : nat) (c : consumer) : consumer :=
  match workers c !! brokerWorker_ with
  | Some w => set_brokerConsumers (delete (worker_broker w) (brokerConsumers c)) c
  | None => c
  end.

(** A call on the registry of broker consumers. *)
Inductive registryCall : Type :=
  | callRef (broker : Z)
  | callUnref (brokerWorker_ : nat)
  | callAbandon (brokerWorker_ : nat).

Definition registry_step (c : consumer) (call : registryCall) : consumer :=
  match call with
  | callRef broker => (refBrokerConsumer broker c).1
  | callUnref bc => unrefBrokerConsumer bc c
  | callAbandon bc => abandonBrokerConsumer bc c
  end.

(** What holds of the registry after [n] calls. *)
Definition registry_sound (n : Z) (c : consumer) : Prop :=
  (∀ broker bc, brokerConsumers c !! broker = Some bc →
     ∃ w, workers c !! bc = Some w ∧ worker_broker w = broker
          ∧ 1 ≤ refs w ∧ input_closes w = 0%nat)
  ∧ (∀ bc w, workers c !! bc = Some w →
       - n ≤ refs w ≤ n ∧ (input_closes w ≤ 1)%nat
       ∧ (input_closes w = 1%nat → refs w ≤ 0)).

(** ** Starting a partition consumer *)

Definition set_leaderEpoch (e : Z) (c : partitionConsumer) : partitionConsumer :=
  mkPartitionConsumer (highWaterMarkOffset c) e (preferredReadReplica c)
    (trigger c) (topic c) (partition c) (responseResult c) (fetchSize c) (offset c)
    (retries c) (paused c) (errors c) (logged c).

Section Start.

(** The offset constants, the invalid leader epoch and the client's
    [GetOffset(topic, partition, time)], none of which the consumer's source
    defines. *)
Variables OffsetNewest OffsetOldest invalidLeaderEpoch : Z.
Variable GetOffset : string → Z → Z → result Z.

Definition chooseStartingOffset (offset_ : Z) (child : partitionConsumer)
  : partitionConsumer * option error :=
  match GetOffset (topic child) (partition child) OffsetNewest with
  | Fail err => (child, Some err)
  | Ok newestOffset =>
      let child := set_highWaterMarkOffset newestOffset child in
      match GetOffset (topic child) (partition child) OffsetOldest with
      | Fail err => (child, Some err)
      | Ok oldestOffset =>
          if offset_ =? OffsetNewest then (set_offset newestOffset child, None)
          else if offset_ =? OffsetOldest then (set_offset oldestOffset child, None)
          else if (oldestOffset <=? offset_) && (offset_ <=? newestOffset)
          then (set_offset offset_ child, None)
          else (child, Some ErrOffsetOutOfRange)
      end
  end.

(** [ConsumePartition] up to the start of the two goroutines of the child.
    The child lives at a reference the store does not yet hold; a child that
    is not returned is not kept. *)
Definition ConsumePartition (conf : Config) (client : Client)
    (topic_ : string) (partition_ offset_ : Z) (c : consumer) : consumer * result nat :=
  let child :=
    mkPartitionConsumer 0 invalidLeaderEpoch invalidPreferredReplicaID
      (mkSignalChan 0 false) topic_ partition_ None (Consumer_Fetch_Default conf)
      0 0 0 [] [] in
  match chooseStartingOffset offset_ child with
  | (_, Some err) => (c, Fail err)
  | (child, None) =>
      match client_LeaderAndEpoch client (topic child) (partition child) with
      | Fail err => (c, Fail err)
      | Ok (leader, epoch) =>
          let p := fresh (dom (heap c)) in
          match addChild p child c with
          | (c, Some err) => (c, Fail err)
          | (c, None) =>
              let child := set_leaderEpoch epoch child in
              let '(c, bc) := refBrokerConsumer leader c in
              let c :=
                set_workers
                  (alter (λ w, mkBrokerWorker (worker_broker w) (refs w) (input w ++ [p])
                                 (input_closes w)) bc (workers c)) c in
              (set_heap (<[p := child]> (heap c)) c, Ok p)
          end
      end
  end.

End Start.

(** A client whose partitions hold the offsets 100 to 200 and are led by
    broker 1. *)
Definition offsets_100_200 (topic_ : string) (partition_ time : Z) : result Z :=
  if time =? -1 then Ok 200 else Ok 100.

(** ** Pausing and resuming *)

(** [Pause] and [Resume] of a partition consumer. *)
Definition child_Pause (child : partitionConsumer) : partitionConsumer :=
  set_paused 1 child.

Definition child_Resume (child : partitionConsumer) : partitionConsumer :=
  set_paused 0 child.

(** The body of the loops of [Pause] and [Resume] of the consumer, with the
    call on the partition consumer as [f]. *)
Definition at_partition (f : partitionConsumer → partitionConsumer) (topic_ : string)
    (c : consumer) (partition_ : Z) : consumer :=
  match children c !! topic_ with
  | Some topicConsumers =>
      match topicConsumers !! partition_ with
      | Some pc => set_heap (alter f pc (heap c)) c
      | None => c
      end
  | None => c
  end.

Definition at_partitions (f : partitionConsumer → partitionConsumer)
    (topicPartitions : gmap string (list Z)) (c : consumer) : consumer :=
  foldl (λ c tp, foldl (at_partition f tp.1) c tp.2) c (map_to_list topicPartitions).

Definition Pause : gmap string (list Z) → consumer → consumer := at_partitions child_Pause.
Definition Resume : gmap string (list Z) → consumer → consumer := at_partitions child_Resume.

(** The loops of [PauseAll] and [ResumeAll]. *)
Definition at_all (f : partitionConsumer → partitionConsumer) (c : consumer) : consumer :=
  foldl (λ c tp, foldl (λ c pp, set_heap (alter f pp.2 (heap c)) c) c (map_to_list tp.2))
    c (map_to_list (children c)).

Definition PauseAll : consumer → consumer := at_all child_Pause.
Definition ResumeAll : consumer → consumer := at_all child_Resume.

(** The partition consumer [pc] is registered under a topic and partition
    that [topicPartitions] lists. *)
Definition listed (topicPartitions : gmap string (list Z)) (c : consumer) (pc : nat) : Prop :=
  ∃ topic_ partitions partition_,
    topicPartitions !! topic_ = Some partitions ∧ partition_ ∈ partitions
    ∧ lookupChild c topic_ partition_ = Some pc.

(** The partition consumer [pc] is registered. *)
Definition registered (c : consumer) (pc : nat) : Prop :=
  ∃ topic_ partition_, lookupChild c topic_ partition_ = Some pc.

(** ** One round of the broker consumer *)

(** [updateSubscriptions].  [dying] holds the partition consumers whose
    [dying] channel is closed. *)
Definition updateSubscriptions (dying : gset nat) (newSubscriptions : list nat)
    (store : gmap nat partitionConsumer) (bc : brokerConsumer)
  : gmap nat partitionConsumer * brokerConsumer :=
  let subs := foldl (λ subs child, {[child]} ∪ subs) (subscriptions bc) newSubscriptions in
  let '(store, subs) :=
    foldl (λ st child,
             if bool_decide (child ∈ dying)
             then (alter (λ c, set_trigger (chan_close (trigger c)) c) child st.1,
                   st.2 ∖ {[child]})
             else st)
      (store, subs) (elements subs) in
  (store, mkBrokerConsumer (bc_broker bc) subs).

(** What [abort] does to one partition consumer. *)
Definition abort_child (conf : Config) (err : error) (child : partitionConsumer)
  : partitionConsumer :=
  let child := sendError conf err child in
  set_trigger (chan_send (trigger child)) child.

(** [abort] of the broker consumer at reference [bcRef].  [queued] holds the
    batches of subscriptions that arrive on [newSubscriptions] before that
    channel is closed. *)
Definition abort (conf : Config) (err : error) (bcRef : nat) (queued : list (list nat))
    (bc : brokerConsumer) (c : consumer) : consumer :=
  let c := abandonBrokerConsumer bcRef c in
  let store :=
    foldl (λ store child, alter (abort_child conf err) child store)
      (heap c) (elements (subscriptions bc)) in
  let store :=
    foldl (λ store newSubscriptions,
             foldl (λ store child, alter (abort_child conf err) child store)
               store newSubscriptions)
      store queued in
  set_heap store c.

Record roundResult : Type := mkRoundResult {
  round_bc : brokerConsumer;
  round_consumer : consumer;
  round_delivered : gmap nat (list ConsumerMessage);
  round_continues : bool
}.

Section Round.

Context `{Decoder}.

Variable MaxResponseSize : Z.
Variable Fetch : FetchRequest → result FetchResponse.

(** The body of the loop of [subscriptionConsumer] that hands the response
    to the feeder of a subscription the response has a block for.  The second
    component holds the messages each feeder then delivers. *)
Definition feed_step (conf : Config) (response : FetchResponse)
    (st : gmap nat partitionConsumer * gmap nat (list ConsumerMessage)) (p : nat)
  : gmap nat partitionConsumer * gmap nat (list ConsumerMessage) :=
  match st.1 !! p with
  | Some child =>
      match Blocks response !! topic child with
      | None => st
      | Some partitions =>
          match partitions !! partition child with
          | None => st
          | Some _ =>
              let '(child, msgs) := feed conf child response in
              (<[p := child]> st.1, <[p := msgs]> st.2)
          end
      end
  | None => st
  end.

Definition feedSubscriptions (conf : Config) (response : FetchResponse)
    (store : gmap nat partitionConsumer) (subs : gset nat)
  : gmap nat partitionConsumer * gmap nat (list ConsumerMessage) :=
  foldl (feed_step conf response) (store, ∅) (elements subs).

(** One iteration of the loop of [subscriptionConsumer], for the broker
    consumer at reference [bcRef]: the broker consumer and the consumer after
    it, the messages delivered, and whether the loop goes on
    ([round_continues] is [false] when the function returns). *)
Definition subscriptionConsumer_round (conf : Config) (client : Client)
    (dying : gset nat) (bcRef : nat) (queued : list (list nat))
    (newSubscriptions : list nat) (bc : brokerConsumer) (c : consumer) : roundResult :=
  let '(store, bc) := updateSubscriptions dying newSubscriptions (heap c) bc in
  let c := set_heap store c in
  if (size (subscriptions bc) =? 0)%nat then mkRoundResult bc c ∅ true
  else
    match fetchNewMessages MaxResponseSize Fetch conf (heap c) bc with
    | Fail err => mkRoundResult bc (abort conf err bcRef queued bc c) ∅ false
    | Ok None => mkRoundResult bc c ∅ true
    | Ok (Some response) =>
        let '(store, delivered) :=
          feedSubscriptions conf response (heap c) (subscriptions bc) in
        let '(store, bc) := handleResponses conf client store bc in
        mkRoundResult bc (set_heap store c) delivered true
    end.

End Round.

(** A response whose block for partition 0 of "events" reports [err]. *)
Definition error_response (err : error) : FetchResponse :=
  mkFetchResponse 0
    {[ "events" := {[ 0 := mkFetchResponseBlock err 0 invalidPreferredReplicaID None [] []
                             false ]} ]}.

(** How often the reference [q] occurs in [l]. *)
Definition occurrences (q : nat) (l : list nat) : nat :=
  length (filter (λ x, x = q) l).

(** * Protocol messages *)

(** ** The packet encoder and decoder *)

Definition MaxInt16 : Z := 32767.
Definition MinInt16 : Z := -32768.
Definition is_int16 (x : Z) : Prop := MinInt16 ≤ x ≤ MaxInt16.

(** The error monad of the functions that return an [error]. *)
#[global] Instance result_ret : MRet result := λ A x, Ok x.
#[global] Instance result_bind : MBind result :=
  λ A B f r, match r with Ok x => f x | Fail err => Fail err end.

(** Modelled from the spec: the interfaces [packetEncoder] and
    [packetDecoder] have no implementation among the sources; §1 treats
    "the wire codec primitives themselves" as "byte-level encoder/decoder
    services".  An encoder is what it has written, a list over the unit [T]
    of the wire (a byte); each [put] method appends the encoding of its
    argument, given by the field [enc...] of the codec, and the methods that
    return an error in the interface may refuse their argument.  A decoder is
    the input it has not yet read; each [get] method reads a value off its
    front or fails. *)
Record packetCodec (T : Type) : Type := mkPacketCodec {
  encInt16 : Z → list T;
  encInt32 : Z → list T;
  encInt64 : Z → list T;
  encBool : bool → list T;
  encArrayLength : Z → result (list T);
  encString : string → result (list T);
  encNullableString : option string → result (list T);
  encNullableCompactString : option string → result (list T);
  encEmptyTaggedFieldArray : list T;
  getInt16 : list T → result (Z * list T);
  getInt32 : list T → result (Z * list T);
  getInt64 : list T → result (Z * list T);
  getBool : list T → result (bool * list T);
  getArrayLength : list T → result (Z * list T);
  getString : list T → result (string * list T);
  getNullableString : list T → result (option string * list T);
  getCompactNullableString : list T → result (option string * list T);
  getEmptyTaggedFieldArray : list T → result (Z * list T)
}.

Arguments encInt16 {T}. Arguments encInt32 {T}. Arguments encInt64 {T}.
Arguments encBool {T}. Arguments encArrayLength {T}. Arguments encString {T}.
Arguments encNullableString {T}. Arguments encNullableCompactString {T}.
Arguments encEmptyTaggedFieldArray {T}.
Arguments getInt16 {T}. Arguments getInt32 {T}. Arguments getInt64 {T}.
Arguments getBool {T}. Arguments getArrayLength {T}. Arguments getString {T}.
Arguments getNullableString {T}. Arguments getCompactNullableString {T}.
Arguments getEmptyTaggedFieldArray {T}.

(** Modelled from the spec: the contract of the codec as a service.  A
    decoder reads back what an encoder wrote, whatever follows it, for every
    value of the type of the field. *)
Record codec_sound {T : Type} (codec : packetCodec T) : Prop := mkCodecSound {
  sound_int16 : ∀ v rest, is_int16 v →
    getInt16 codec (encInt16 codec v ++ rest) = Ok (v, rest);
  sound_int32 : ∀ v rest, is_int32 v →
    getInt32 codec (encInt32 codec v ++ rest) = Ok (v, rest);
  sound_int64 : ∀ v rest, is_int64 v →
    getInt64 codec (encInt64 codec v ++ rest) = Ok (v, rest);
  sound_bool : ∀ v rest, getBool codec (encBool codec v ++ rest) = Ok (v, rest);
  sound_arrayLength : ∀ n written rest, encArrayLength codec n = Ok written →
    getArrayLength codec (written ++ rest) = Ok (n, rest);
  sound_string : ∀ s written rest, encString codec s = Ok written →
    getString codec (written ++ rest) = Ok (s, rest);
  sound_nullableString : ∀ s written rest, encNullableString codec s = Ok written →
    getNullableString codec (written ++ rest) = Ok (s, rest);
  sound_compactNullableString : ∀ s written rest,
    encNullableCompactString codec s = Ok written →
    getCompactNullableString codec (written ++ rest) = Ok (s, rest);
  sound_emptyTaggedFieldArray : ∀ rest,
    getEmptyTaggedFieldArray codec (encEmptyTaggedFieldArray codec ++ rest) = Ok (0, rest)
}.

Section Messages.

Context {T : Type} (codec : packetCodec T).

(** The [put] methods of an encoder. *)
Definition putInt16 (v : Z) (pe : list T) : list T := pe ++ encInt16 codec v.
Definition putInt32 (v : Z) (pe : list T) : list T := pe ++ encInt32 codec v.
Definition putInt64 (v : Z) (pe : list T) : list T := pe ++ encInt64 codec v.
Definition putBool (v : bool) (pe : list T) : list T := pe ++ encBool codec v.
Definition putArrayLength (n : Z) (pe : list T) : result (list T) :=
  written ← encArrayLength codec n; Ok (pe ++ written).
Definition putString (s : string) (pe : list T) : result (list T) :=
  written ← encString codec s; Ok (pe ++ written).
Definition putNullableString (s : option string) (pe : list T) : result (list T) :=
  written ← encNullableString codec s; Ok (pe ++ written).
Definition putNullableCompactString (s : option string) (pe : list T) : result (list T) :=
  written ← encNullableCompactString codec s; Ok (pe ++ written).
Definition putEmptyTaggedFieldArray (pe : list T) : list T :=
  pe ++ encEmptyTaggedFieldArray codec.

(** ** DeleteTopicsResponse *)

(** [ThrottleTime] is a [time.Duration], a number of nanoseconds; a
    [KError] is an [int16]. *)
Record DeleteTopicsResponse : Type := mkDeleteTopicsResponse {
  dtr_Version : Z;
  dtr_ThrottleTime : Z;
  TopicErrorCodes : gmap string Z
}.

(** [encode], with the order [entries] in which the [range] loop visits
    the map. *)
Definition dtr_encode (entries : list (string * Z)) (d : DeleteTopicsResponse)
    (pe : list T) : result (list T) :=
  let pe :=
    if dtr_Version d >=? 1
    then putInt32 (wrap32 (dtr_ThrottleTime d `quot` millisecond)) pe
    else pe in
  pe ← putArrayLength (Z.of_nat (size (TopicErrorCodes d))) pe;
  foldl (λ pe entry,
           pe ← pe;
           pe ← putString entry.1 pe;
           Ok (putInt16 entry.2 pe))
    (Ok pe) entries.

(** The loop of [decode]: [n] more entries are read into the map. *)
Fixpoint dtr_decode_entries (n : nat) (codes : gmap string Z) (pd : list T)
  : result (gmap string Z * list T) :=
  match n with
  | O => Ok (codes, pd)
  | S n =>
      '(topic_, pd) ← getString codec pd;
      '(errorCode, pd) ← getInt16 codec pd;
      dtr_decode_entries n (<[topic_ := errorCode]> codes) pd
  end.

(** [decode] into the response [d].  When a read fails its error is
    returned; what was assigned to [d] before is then not part of the
    result. *)
Definition dtr_decode (d : DeleteTopicsResponse) (pd : list T) (version : Z)
  : result (DeleteTopicsResponse * list T) :=
  '(d, pd) ←
    (if version >=? 1 then
       '(throttleTime, pd) ← getInt32 codec pd;
       Ok (mkDeleteTopicsResponse version (wrap64 (throttleTime * millisecond))
             (TopicErrorCodes d), pd)
     else Ok (d, pd));
  '(n, pd) ← getArrayLength codec pd;
  '(codes, pd) ← dtr_decode_entries (Z.to_nat n) ∅ pd;
  Ok (mkDeleteTopicsResponse (dtr_Version d) (dtr_ThrottleTime d) codes, pd).

Definition dtr_isValidVersion (d : DeleteTopicsResponse) : bool :=
  (dtr_Version d >=? 0) && (dtr_Version d <=? 3).

Definition dtr_requiredVersion (d : DeleteTopicsResponse) : KafkaVersion :=
  if dtr_Version d =? 3 then V2_1_0_0
  else if dtr_Version d =? 2 then V2_0_0_0
  else if dtr_Version d =? 1 then V0_11_0_0
  else if dtr_Version d =? 0 then V0_10_1_0
  else mkKafkaVersion 2 2 0 0.

End Messages.

(** A codec for examples: the unit of the wire is a whole field. *)
Inductive field : Type :=
  | fInt16 (v : Z)
  | fInt32 (v : Z)
  | fInt64 (v : Z)
  | fBool (v : bool)
  | fArrayLength (n : Z)
  | fString (s : string)
  | fNullableString (s : option string)
  | fCompactNullableString (s : option string)
  | fEmptyTaggedFieldArray.

Definition short : error := OtherError "insufficient data to decode packet".

Definition field_codec : packetCodec field :=
  mkPacketCodec field
    (λ v, [fInt16 v]) (λ v, [fInt32 v]) (λ v, [fInt64 v]) (λ v, [fBool v])
    (λ n, Ok [fArrayLength n]) (λ s, Ok [fString s])
    (λ s, Ok [fNullableString s]) (λ s, Ok [fCompactNullableString s])
    [fEmptyTaggedFieldArray]
    (λ pd, match pd with fInt16 v :: pd => Ok (v, pd) | _ => Fail short end)
    (λ pd, match pd with fInt32 v :: pd => Ok (v, pd) | _ => Fail short end)
    (λ pd, match pd with fInt64 v :: pd => Ok (v, pd) | _ => Fail short end)
    (λ pd, match pd with fBool v :: pd => Ok (v, pd) | _ => Fail short end)
    (λ pd, match pd with fArrayLength v :: pd => Ok (v, pd) | _ => Fail short end)
    (λ pd, match pd with fString v :: pd => Ok (v, pd) | _ => Fail short end)
    (λ pd, match pd with fNullableString v :: pd => Ok (v, pd) | _ => Fail short end)
    (λ pd, match pd with
           | fCompactNullableString v :: pd => Ok (v, pd)
           | _ => Fail short
           end)
    (λ pd, match pd with fEmptyTaggedFieldArray :: pd => Ok (0, pd) | _ => Fail short end).

(** Modelled from the spec: further version constants, not among the
    sources; as [V2_3_0_0] they name the version their components spell. *)
Definition V2_2_0_0 : KafkaVersion := mkKafkaVersion 2 2 0 0.
Definition V2_4_0_0 : KafkaVersion := mkKafkaVersion 2 4 0 0.
Definition V2_5_0_0 : KafkaVersion := mkKafkaVersion 2 5 0 0.
Definition V2_7_0_0 : KafkaVersion := mkKafkaVersion 2 7 0 0.

Section Requests.

Context {T : Type} (codec : packetCodec T).

(** ** EndTxnRequest *)

Record EndTxnRequest : Type := mkEndTxnRequest {
  etr_Version : Z;
  etr_TransactionalID : string;
  etr_ProducerID : Z;
  etr_ProducerEpoch : Z;
  etr_TransactionResult : bool
}.

Definition etr_encode (a : EndTxnRequest) (pe : list T) : result (list T) :=
  pe ← putString codec (etr_TransactionalID a) pe;
  let pe := putInt64 codec (etr_ProducerID a) pe in
  let pe := putInt16 codec (etr_ProducerEpoch a) pe in
  let pe := putBool codec (etr_TransactionResult a) pe in
  Ok pe.

(** [decode] into the request [a]. *)
Definition etr_decode (a : EndTxnRequest) (pd : list T) (version : Z)
  : result (EndTxnRequest * list T) :=
  '(transactionalID, pd) ← getString codec pd;
  '(producerID, pd) ← getInt64 codec pd;
  '(producerEpoch, pd) ← getInt16 codec pd;
  '(transactionResult, pd) ← getBool codec pd;
  Ok (mkEndTxnRequest (etr_Version a) transactionalID producerID producerEpoch
        transactionResult, pd).

Definition etr_isValidVersion (a : EndTxnRequest) : bool :=
  (etr_Version a >=? 0) && (etr_Version a <=? 2).

Definition etr_requiredVersion (a : EndTxnRequest) : KafkaVersion :=
  if etr_Version a =? 2 then V2_7_0_0
  else if etr_Version a =? 1 then V2_0_0_0
  else V0_11_0_0.

(** ** InitProducerIDRequest *)

Record InitProducerIDRequest : Type := mkInitProducerIDRequest {
  ipr_Version : Z;
  ipr_TransactionalID : option string;
  ipr_TransactionTimeout : Z;
  ipr_ProducerID : Z;
  ipr_ProducerEpoch : Z
}.

Definition ipr_encode (i : InitProducerIDRequest) (pe : list T) : result (list T) :=
  pe ← (if ipr_Version i <? 2
        then putNullableString codec (ipr_TransactionalID i) pe
        else putNullableCompactString codec (ipr_TransactionalID i) pe);
  let pe := putInt32 codec (wrap32 (ipr_TransactionTimeout i `quot` millisecond)) pe in
  let pe :=
    if ipr_Version i >=? 3
    then putInt16 codec (ipr_ProducerEpoch i) (putInt64 codec (ipr_ProducerID i) pe)
    else pe in
  let pe := if ipr_Version i >=? 2 then putEmptyTaggedFieldArray codec pe else pe in
  Ok pe.

(** [decode] into the request [i]. *)
Definition ipr_decode (i : InitProducerIDRequest) (pd : list T) (version : Z)
  : result (InitProducerIDRequest * list T) :=
  let i := mkInitProducerIDRequest version (ipr_TransactionalID i)
             (ipr_TransactionTimeout i) (ipr_ProducerID i) (ipr_ProducerEpoch i) in
  '(transactionalID, pd) ←
    (if ipr_Version i <? 2 then getNullableString codec pd
     else getCompactNullableString codec pd);
  '(timeout, pd) ← getInt32 codec pd;
  let i := mkInitProducerIDRequest (ipr_Version i) transactionalID
             (wrap64 (timeout * millisecond)) (ipr_ProducerID i) (ipr_ProducerEpoch i) in
  '(i, pd) ←
    (if ipr_Version i >=? 3 then
       '(producerID, pd) ← getInt64 codec pd;
       '(producerEpoch, pd) ← getInt16 codec pd;
       Ok (mkInitProducerIDRequest (ipr_Version i) (ipr_TransactionalID i)
             (ipr_TransactionTimeout i) producerID producerEpoch, pd)
     else Ok (i, pd));
  if ipr_Version i >=? 2 then
    '(_, pd) ← getEmptyTaggedFieldArray codec pd;
    Ok (i, pd)
  else Ok (i, pd).

Definition ipr_headerVersion (i : InitProducerIDRequest) : Z :=
  if ipr_Version i >=? 2 then 2 else 1.

Definition ipr_isValidVersion (i : InitProducerIDRequest) : bool :=
  (ipr_Version i >=? 0) && (ipr_Version i <=? 4).

Definition ipr_requiredVersion (i : InitProducerIDRequest) : KafkaVersion :=
  if ipr_Version i =? 4 then V2_7_0_0
  else if ipr_Version i =? 3 then V2_5_0_0
  else if ipr_Version i =? 2 then V2_4_0_0
  else if ipr_Version i =? 1 then V2_0_0_0
  else if ipr_Version i =? 0 then V0_11_0_0
  else V2_7_0_0.

End Requests.

(** * The cluster administrator *)

Section Admin.

(** The state of the client and of the brokers it talks to. *)
Variable World : Type.

(** The error values [ErrInvalidTopic], [ErrNotController] and [io.EOF],
    which the sources name but do not define. *)
Variables ErrInvalidTopic ErrNotController EOF : error.

Definition isRetriableControllerError (err : error) : bool :=
  errors_Is err ErrNotController || errors_Is err EOF.

(** The loop of [retryOnError]: [fn] is called in the state [s], and the
    counter [attemptsRemaining] decides whether it is called again.  The
    loop of the source has no bound of its own; [fuel] bounds the number of
    its iterations here. *)
Fixpoint retry_loop (retryable : error → bool) (fn : World → option error * World)
    (fuel : nat) (attemptsRemaining : Z) (s : World) : option (option error * World) :=
  match fuel with
  | O => None
  | S fuel =>
      let '(err, s) := fn s in
      let attemptsRemaining := sub64 attemptsRemaining 1 in
      match err with
      | None => Some (err, s)
      | Some e =>
          if (attemptsRemaining <=? 0) || negb (retryable e) then Some (err, s)
          else retry_loop retryable fn fuel attemptsRemaining s
      end
  end.

(** [retryOnError] with [conf.Admin.Retry.Max] as [retryMax]. *)
Definition retryOnError (retryMax : Z) (retryable : error → bool)
    (fn : World → option error * World) (s : World) : option (option error * World) :=
  retry_loop retryable fn (S (Z.to_nat retryMax)) (add64 retryMax 1) s.

(** The outcome of the [k]-th call of [fn] in a row, and the state after
    it. *)
Fixpoint attempt (fn : World → option error * World) (k : nat) (s : World)
  : option error * World :=
  match k with
  | O => (None, s)
  | S k => fn (attempt fn k s).2
  end.

Record DeleteTopicsRequest : Type := mkDeleteTopicsRequest {
  dtq_Version : Z;
  dtq_Topics : list string;
  dtq_Timeout : Z
}.

(** The client's [Controller] and [RefreshController] and the broker's
    [DeleteTopics], of whose response only the error codes are used. *)
Variable Controller : World → result Z * World.
Variable refreshController : World → World.
Variable DeleteTopics : Z → DeleteTopicsRequest → World → result (gmap string error) * World.

(** The request [DeleteTopic] builds. *)
Definition deleteTopicRequest (version : KafkaVersion) (timeout : Z) (topic_ : string)
  : DeleteTopicsRequest :=
  let request := mkDeleteTopicsRequest 0 [topic_] timeout in
  if IsAtLeast version V2_1_0_0
  then mkDeleteTopicsRequest 3 (dtq_Topics request) (dtq_Timeout request)
  else if IsAtLeast version V2_0_0_0
  then mkDeleteTopicsRequest 2 (dtq_Topics request) (dtq_Timeout request)
  else if IsAtLeast version V0_11_0_0
  then mkDeleteTopicsRequest 1 (dtq_Topics request) (dtq_Timeout request)
  else request.

(** The function [DeleteTopic] hands to [retryOnError]. *)
Definition deleteTopicAttempt (request : DeleteTopicsRequest) (topic_ : string)
    (s : World) : option error * World :=
  match Controller s with
  | (Fail err, s) => (Some err, s)
  | (Ok b, s) =>
      match DeleteTopics b request s with
      | (Fail err, s) => (Some err, s)
      | (Ok topicErrorCodes, s) =>
          match topicErrorCodes !! topic_ with
          | None => (Some ErrIncompleteResponse, s)
          | Some topicErr =>
              if negb (errors_Is topicErr ErrNoError) then
                let s := if errors_Is topicErr ErrNotController
                         then refreshController s else s in
                (Some topicErr, s)
              else (None, s)
          end
      end
  end.

Definition DeleteTopic (version : KafkaVersion) (retryMax timeout : Z) (topic_ : string)
    (s : World) : option (option error * World) :=
  if String.eqb topic_ "" then Some (Some ErrInvalidTopic, s)
  else
    retryOnError retryMax isRetriableControllerError
      (deleteTopicAttempt (deleteTopicRequest version timeout topic_) topic_) s.

End Admin.

(** A world for examples: the answers the controller still has to give. *)
Definition scripted_Controller (s : list error) : result Z * list error := (Ok 1, s).

Definition scripted_DeleteTopics (b : Z) (request : DeleteTopicsRequest) (s : list error)
  : result (gmap string error) * list error :=
  match s with
  | [] => (Ok (list_to_map ((λ t, (t, ErrNoError)) <$> dtq_Topics request)), [])
  | err :: s => (Ok (list_to_map ((λ t, (t, err)) <$> dtq_Topics request)), s)
  end.

(** ** The dispatcher *)

Section Dispatch.

(** The client's [RefreshMetadata(topic)]. *)
Variable RefreshMetadata : string → option error.

(** [dispatch] of the partition consumer at reference [p]: the consumer
    after it, the broker consumer the partition consumer was handed to, and
    the error. *)
Definition dispatch (client : Client) (p : nat) (child : partitionConsumer) (c : consumer)
  : consumer * option nat * option error :=
  match RefreshMetadata (topic child) with
  | Some err => (c, None, Some err)
  | None =>
      match preferredBroker client child with
      | (child, Fail err) => (set_heap (<[p := child]> (heap c)) c, None, Some err)
      | (child, Ok (broker, epoch)) =>
          let child := set_leaderEpoch epoch child in
          let '(c, bc) := refBrokerConsumer broker c in
          let c :=
            set_workers
              (alter (λ w, mkBrokerWorker (worker_broker w) (refs w) (input w ++ [p])
                             (input_closes w)) bc (workers c)) c in
          (set_heap (<[p := child]> (heap c)) c, Some bc, None)
      end
  end.

(** One iteration of the loop of [dispatcher] in which the timer fires, for
    the partition consumer at reference [p] whose field [broker] is
    [broker_]: the consumer and the field [broker] after it. *)
Definition dispatcher_step (conf : Config) (client : Client) (p : nat)
    (broker_ : option nat) (c : consumer) : consumer * option nat :=
  let c :=
    match broker_ with
    | Some bc => unrefBrokerConsumer bc c
    | None => c
    end in
  match heap c !! p with
  | Some child =>
      match dispatch client p child c with
      | (c, _, Some err) =>
          (set_heap
             (alter (λ child, let child := sendError conf err child in
                              set_trigger (chan_send (trigger child)) child) p (heap c)) c,
           None)
      | (c, bc, None) => (c, bc)
      end
  | None => (c, None)
  end.

End Dispatch.

(** * Properties *)

(** Projections of an updated consumer. *)
Ltac fields :=
  cbn [set_offset set_fetchSize set_highWaterMarkOffset set_preferredReadReplica
       set_responseResult set_trigger set_errors set_logged
       highWaterMarkOffset leaderEpoch preferredReadReplica trigger topic partition
       responseResult fetchSize offset retries paused errors logged fst snd].

(** ** Machine integers *)

Lemma wrap64_range x : is_int64 (wrap64 x).
Proof.
  unfold is_int64, wrap64, wrap, MinInt64, MaxInt64.
  change (2 ^ (64 - 1)) with 9223372036854775808.
  change (2 ^ 64) with 18446744073709551616.
  pose proof (Z.mod_pos_bound (x + 9223372036854775808) 18446744073709551616).
  lia.
Qed.

Lemma wrap64_id x : is_int64 x → wrap64 x = x.
Proof.
  unfold is_int64, wrap64, wrap, MinInt64, MaxInt64.
  change (2 ^ (64 - 1)) with 9223372036854775808.
  change (2 ^ 64) with 18446744073709551616.
  intros Hx. rewrite Z.mod_small; lia.
Qed.

Lemma add64_range a b : is_int64 (add64 a b).
Proof. apply wrap64_range. Qed.

Lemma add64_succ o : MinInt64 ≤ o → o < MaxInt64 → add64 o 1 = o + 1.
Proof.
  intros Hlo Hhi. unfold add64. apply wrap64_id.
  unfold is_int64, MinInt64, MaxInt64 in *. lia.
Qed.

Lemma wrap32_range x : is_int32 (wrap32 x).
Proof.
  unfold is_int32, wrap32, wrap, MinInt32, MaxInt32.
  change (2 ^ (32 - 1)) with 2147483648.
  change (2 ^ 32) with 4294967296.
  pose proof (Z.mod_pos_bound (x + 2147483648) 4294967296).
  lia.
Qed.

Lemma wrap32_id x : is_int32 x → wrap32 x = x.
Proof.
  unfold is_int32, wrap32, wrap, MinInt32, MaxInt32.
  change (2 ^ (32 - 1)) with 2147483648.
  change (2 ^ 32) with 4294967296.
  intros Hx. rewrite Z.mod_small; lia.
Qed.

(** Doubling an [int32]: the three ranges of the operand. *)
Lemma mul32_double x :
  is_int32 x →
  mul32 x 2 =
    if decide (1073741824 ≤ x) then 2 * x - 4294967296
    else if decide (x < -1073741824) then 2 * x + 4294967296
    else 2 * x.
Proof.
  unfold is_int32, mul32, wrap32, wrap, MinInt32, MaxInt32.
  change (2 ^ (32 - 1)) with 2147483648.
  change (2 ^ 32) with 4294967296.
  intros Hx. repeat case_decide.
  - rewrite <- (Z.mod_add _ (-1) 4294967296) by lia. rewrite Z.mod_small; lia.
  - rewrite <- (Z.mod_add _ 1 4294967296) by lia. rewrite Z.mod_small; lia.
  - rewrite Z.mod_small; lia.
Qed.

(** ** The offset filter of [parseRecords] and [parseMessages] *)

Lemma foldl_invariant {A B} (P : A → Prop) (f : A → B → A) (l : list B) (a : A) :
  P a → (∀ a' x, x ∈ l → P a' → P (f a' x)) → P (foldl f a l).
Proof.
  revert a. induction l as [|x l IH]; intros a Ha Hstep; simpl; [done|].
  apply IH.
  - apply Hstep; [left | done].
  - intros a' y Hy. apply Hstep. by right.
Qed.

Lemma parseRecords_loop_snoc batch pre rec st :
  parseRecords_loop batch (pre ++ [rec]) st
  = parseRecords_step batch (parseRecords_loop batch pre st) rec.
Proof. unfold parseRecords_loop. by rewrite foldl_app. Qed.

(** What one iteration does, by the position of the record's offset. *)
Lemma parseRecords_step_below batch child messages rec :
  add64 (FirstOffset batch) (rec_OffsetDelta rec) < offset child →
  parseRecords_step batch (child, messages) rec = (child, messages).
Proof.
  intros Hlt. unfold parseRecords_step.
  destruct (Z.ltb_spec (add64 (FirstOffset batch) (rec_OffsetDelta rec)) (offset child));
    [done | lia].
Qed.

Lemma parseRecords_step_deliver batch child messages rec :
  let o := add64 (FirstOffset batch) (rec_OffsetDelta rec) in
  offset child ≤ o →
  parseRecords_step batch (child, messages) rec
  = (set_offset (add64 o 1) child, messages ++ [recordMessage child batch rec o]).
Proof.
  intros o Hle. unfold parseRecords_step. fold o.
  destruct (Z.ltb_spec o (offset child)); [lia | done].
Qed.

(** ** Loops that offer records *)

Section OfferLoop.

Context {X : Type}.
Variable off : X → Z.
Variable mk : partitionConsumer → X → ConsumerMessage.
Variable step : partitionConsumer * list ConsumerMessage → X
                → partitionConsumer * list ConsumerMessage.
Hypothesis step_offer : ∀ st x, step st x = offer (off x) (mk st.1 x) st.
Hypothesis mk_Offset : ∀ c x, Offset (mk c x) = off x.

(** Nothing at or above the cursor: the loop changes nothing. *)
Lemma offer_loop_below l st :
  Forall (λ x, off x < offset st.1) l → foldl step st l = st.
Proof.
  induction 1 as [|x l Hx _ IH]; simpl; [done|].
  rewrite step_offer. unfold offer.
  destruct (Z.ltb_spec (off x) (offset st.1)); [done | lia].
Qed.

(** With room below [bound], the cursor only moves up, ends above every
    record it has seen, and every appended message lies between the old and
    the new cursor. *)
Lemma offer_loop_advance bound l st :
  bound ≤ MaxInt64 →
  offset st.1 ≤ bound →
  Forall (λ x, MinInt64 ≤ off x ∧ off x < bound) l →
  let st' := foldl step st l in
  offset st.1 ≤ offset st'.1 ∧ offset st'.1 ≤ bound
  ∧ Forall (λ x, off x < offset st'.1) l
  ∧ ∃ new, st'.2 = st.2 ++ new
           ∧ Forall (λ m, offset st.1 ≤ Offset m ∧ Offset m < offset st'.1) new
           ∧ (new = [] → st'.1 = st.1).
Proof.
  intros Hbound. revert st.
  induction l as [|x l IH]; intros st Hst Hall; simpl.
  - repeat split; try done; try lia. exists []. by rewrite app_nil_r.
  - apply Forall_cons in Hall as [[Hlo Hhi] Hall].
    rewrite step_offer. unfold offer.
    destruct (Z.ltb_spec (off x) (offset st.1)) as [Hbelow|Hdeliver].
    + destruct (IH st Hst Hall) as (Hmono & Hle & Hseen & new & Hnew & Hbetween & Hsame).
      repeat split; try done.
      * apply Forall_cons. split; [lia | done].
      * by exists new.
    + set (st1 := (set_offset (add64 (off x) 1) st.1, st.2 ++ [mk st.1 x])).
      assert (offset st1.1 = off x + 1) as Hst1.
      { unfold st1. fields. apply add64_succ; lia. }
      destruct (IH st1) as (Hmono & Hle & Hseen & new & Hnew & Hbetween & Hsame);
        [lia | done |].
      repeat split; try done; try lia.
      * apply Forall_cons. split; [lia | done].
      * exists (mk st.1 x :: new). split; [|split].
        -- rewrite Hnew. unfold st1. fields. by rewrite <- app_assoc.
        -- apply Forall_cons. split.
           ++ rewrite mk_Offset. lia.
           ++ eapply Forall_impl; [exact Hbetween|]. cbv beta. intros m. lia.
        -- done.
Qed.

(** The cursor after a loop either is untouched, with nothing appended, or
    is one past the last appended message. *)
Lemma offer_loop_cursor l child messages st :
  cursor_follows child messages st →
  cursor_follows child messages (foldl step st l).
Proof.
  intros Hst. apply foldl_invariant; [done|].
  intros [child' messages'] x _ Hinv. rewrite step_offer. unfold offer.
  fields. case_match; [done|]. right.
  eexists. fields. rewrite last_snoc. split; [done|]. rewrite mk_Offset. split; [done|].
  assert (length messages ≤ length messages')%nat as Hlen.
  { destruct Hinv as [[Heq _]|(m & _ & _ & _ & Hlt)]; simpl in *; [subst|]; lia. }
  split.
  - intros Heq. apply (f_equal length) in Heq. rewrite length_app in Heq. simpl in *. lia.
  - rewrite length_app. simpl. lia.
Qed.

End OfferLoop.

Lemma parseRecords_step_offer batch st rec :
  parseRecords_step batch st rec
  = offer (add64 (FirstOffset batch) (rec_OffsetDelta rec))
      (recordMessage st.1 batch rec (add64 (FirstOffset batch) (rec_OffsetDelta rec))) st.
Proof. by destruct st. Qed.

Section LegacyOffer.

Context `{Decoder}.

Lemma parseMessages_step_offer msgBlock st msg :
  parseMessages_step msgBlock st msg
  = offer (message_offset msgBlock msg)
      (legacyMessage st.1 msgBlock msg (message_offset msgBlock msg)) st.
Proof. by destruct st. Qed.

End LegacyOffer.

Lemma parseRecords_loop_cursor batch recs child messages :
  cursor_follows child messages (parseRecords_loop batch recs (child, messages)).
Proof.
  unfold parseRecords_loop.
  apply (offer_loop_cursor
           (λ rec, add64 (FirstOffset batch) (rec_OffsetDelta rec))
           (λ c rec, recordMessage c batch rec (add64 (FirstOffset batch) (rec_OffsetDelta rec)))
           _ (parseRecords_step_offer batch)); [done|].
  by left.
Qed.

(** [parseRecords] as a whole: the offset ends one past the last message it
    returns, and one past where it was when it returns none. *)
Lemma parseRecords_final child batch :
  match last (parseRecords child batch).2 with
  | Some m => offset (parseRecords child batch).1 = add64 (Offset m) 1
  | None => offset (parseRecords child batch).1 = add64 (offset child) 1
  end.
Proof.
  unfold parseRecords.
  pose proof (parseRecords_loop_cursor batch (batch_Records batch) child []) as Hinv.
  destruct (parseRecords_loop batch (batch_Records batch) (child, [])) as [child' messages].
  destruct Hinv as [[Hm Ho]|(m & Hlast & Ho & _ & Hlen)]; simpl in *.
  - subst messages. simpl. by rewrite Ho.
  - destruct messages as [|m0 ms]; [simpl in Hlen; lia|].
    simpl (length _ =? 0)%nat. cbv iota. simpl fst. simpl snd. by rewrite Hlast.
Qed.

Section LegacyFacts.

Context `{Decoder}.

Lemma parseMessages_step_below msgBlock child messages msg :
  message_offset msgBlock msg < offset child →
  parseMessages_step msgBlock (child, messages) msg = (child, messages).
Proof.
  intros Hlt. unfold parseMessages_step.
  destruct (Z.ltb_spec (message_offset msgBlock msg) (offset child)); [done | lia].
Qed.

Lemma parseMessages_step_deliver msgBlock child messages msg :
  let o := message_offset msgBlock msg in
  offset child ≤ o →
  parseMessages_step msgBlock (child, messages) msg
  = (set_offset (add64 o 1) child, messages ++ [legacyMessage child msgBlock msg o]).
Proof.
  intros o Hle. unfold parseMessages_step. fold o.
  destruct (Z.ltb_spec o (offset child)); [lia | done].
Qed.

End LegacyFacts.

(** ** The branch for a block without records *)

Lemma sendError_surfaced conf err child :
  surfaced conf (sendError conf err child) = surfaced conf child ++ [consumerError child err].
Proof. unfold surfaced, sendError. by destruct (Consumer_Return_Errors conf). Qed.

Lemma sendError_fields conf err child :
  offset (sendError conf err child) = offset child
  ∧ fetchSize (sendError conf err child) = fetchSize child
  ∧ highWaterMarkOffset (sendError conf err child) = highWaterMarkOffset child
  ∧ preferredReadReplica (sendError conf err child) = preferredReadReplica child
  ∧ topic (sendError conf err child) = topic child
  ∧ partition (sendError conf err child) = partition child
  ∧ trigger (sendError conf err child) = trigger child.
Proof. unfold sendError. by destruct (Consumer_Return_Errors conf). Qed.

Section PartialTrailingFacts.

Context `{Decoder}.

Lemma answered_not_throttled response :
  answered response →
  negb (ThrottleTime response =? 0) && (size (Blocks response) =? 0)%nat = false.
Proof.
  intros [Ht|Hs].
  - rewrite Ht. done.
  - apply andb_false_iff. right. by apply Nat.eqb_neq.
Qed.

Lemma with_replica_fields block child :
  offset (with_replica block child) = offset child
  ∧ fetchSize (with_replica block child) = fetchSize child
  ∧ topic (with_replica block child) = topic child
  ∧ partition (with_replica block child) = partition child
  ∧ errors (with_replica block child) = errors child
  ∧ logged (with_replica block child) = logged child
  ∧ highWaterMarkOffset (with_replica block child) = highWaterMarkOffset child.
Proof. unfold with_replica. by case_match. Qed.

Lemma parseResponse_partial_trailing conf child response :
  partial_trailing child response →
  ∃ block,
    GetBlock response (topic child) (partition child) = Some block
    ∧ parseResponse conf child response
      = (parseResponse_noRecords conf (with_replica block child) block true, ([], None)).
Proof.
  intros [Hans (block & Hblock & Herr & Hn & Hp)]. exists block. split; [done|].
  unfold parseResponse. rewrite answered_not_throttled by done.
  rewrite Hblock, Herr. simpl. rewrite Hn. simpl. by rewrite Hp.
Qed.

End PartialTrailingFacts.

Lemma noRecords_too_large conf child block :
  0 < Consumer_Fetch_Max conf → fetchSize child = Consumer_Fetch_Max conf →
  parseResponse_noRecords conf child block true
  = set_offset (add64 (offset child) 1) (sendError conf ErrMessageTooLarge child).
Proof.
  intros Hmax Heq. unfold parseResponse_noRecords.
  destruct (Z.gtb_spec (Consumer_Fetch_Max conf) 0); [|lia].
  destruct (Z.eqb_spec (fetchSize child) (Consumer_Fetch_Max conf)); [|done].
  simpl. by destruct (sendError_fields conf ErrMessageTooLarge child) as (-> & _).
Qed.

Lemma noRecords_grow conf child block :
  ¬ (0 < Consumer_Fetch_Max conf ∧ fetchSize child = Consumer_Fetch_Max conf) →
  parseResponse_noRecords conf child block true
  = set_fetchSize (doubled (Consumer_Fetch_Max conf) (fetchSize child)) child.
Proof.
  intros Hnot. unfold parseResponse_noRecords, doubled.
  destruct (Z.gtb_spec (Consumer_Fetch_Max conf) 0);
    destruct (Z.eqb_spec (fetchSize child) (Consumer_Fetch_Max conf));
    simpl; try (exfalso; apply Hnot; split; [lia | done]);
    destruct (mul32 (fetchSize child) 2 <? 0); simpl;
    try destruct (_ >? _); reflexivity.
Qed.

(** On an [int32] that is not negative, [doubled] is the double, capped by
    [MaxInt32] and by a positive maximum. *)
Lemma doubled_nonneg fetchMax size :
  0 ≤ size ≤ MaxInt32 → 0 < fetchMax →
  doubled fetchMax size = Z.min (Z.min (2 * size) MaxInt32) fetchMax.
Proof.
  intros Hsize Hmax. unfold doubled.
  rewrite mul32_double by (unfold is_int32, MinInt32, MaxInt32 in *; lia).
  unfold MaxInt32 in *.
  repeat case_decide; repeat (case_match; simpl); lia.
Qed.

Lemma doubled_no_max fetchMax size :
  fetchMax ≤ 0 →
  doubled fetchMax size = if mul32 size 2 <? 0 then MaxInt32 else mul32 size 2.
Proof.
  intros Hmax. unfold doubled.
  destruct (Z.gtb_spec fetchMax 0); [lia | done].
Qed.

(** The fetch size stays between the default and the maximum. *)
Lemma doubled_in_range fetchDefault fetchMax size :
  0 < fetchMax ≤ MaxInt32 → MinInt32 ≤ fetchDefault →
  fetchDefault ≤ size ≤ fetchMax →
  fetchDefault ≤ doubled fetchMax size ≤ fetchMax.
Proof.
  intros Hmax Hdef Hsize. unfold doubled.
  rewrite mul32_double by (unfold is_int32, MinInt32, MaxInt32 in *; lia).
  unfold MaxInt32, MinInt32 in *.
  repeat case_decide; repeat (case_match; simpl); lia.
Qed.

Section GrowthFacts.

Context `{Decoder}.

Lemma partial_trailing_step conf child response :
  partial_trailing child response →
  let r := parseResponse conf child response in
  r.2 = ([], None)
  ∧ topic r.1 = topic child ∧ partition r.1 = partition child
  ∧ (0 < Consumer_Fetch_Max conf ∧ fetchSize child = Consumer_Fetch_Max conf →
     surfaced conf r.1 = surfaced conf child ++ [consumerError child ErrMessageTooLarge]
     ∧ offset r.1 = add64 (offset child) 1
     ∧ fetchSize r.1 = fetchSize child)
  ∧ (¬ (0 < Consumer_Fetch_Max conf ∧ fetchSize child = Consumer_Fetch_Max conf) →
     fetchSize r.1 = doubled (Consumer_Fetch_Max conf) (fetchSize child)
     ∧ offset r.1 = offset child
     ∧ errors r.1 = errors child ∧ logged r.1 = logged child).
Proof.
  intros Hpt. destruct (parseResponse_partial_trailing conf child response Hpt)
    as (block & _ & Heq).
  cbv zeta. rewrite Heq. cbn [fst snd].
  destruct (with_replica_fields block child) as (Ho & Hf & Ht & Hp & He & Hl & _).
  split; [done|].
  destruct (decide (0 < Consumer_Fetch_Max conf
                    ∧ fetchSize child = Consumer_Fetch_Max conf)) as [Hat|Hnot].
  - destruct Hat as [Hmax Hsize].
    rewrite noRecords_too_large by (by rewrite ?Hf).
    destruct (sendError_fields conf ErrMessageTooLarge (with_replica block child))
      as (Ho' & Hf' & _ & _ & Ht' & Hp' & _).
    fields. rewrite Ht', Hp', Ht, Hp. split; [done|]. split; [done|]. split.
    + intros _. split; [|split].
      * change (surfaced conf (set_offset ?o ?c)) with (surfaced conf c).
        rewrite sendError_surfaced. unfold surfaced, consumerError.
        by rewrite He, Hl, Ht, Hp.
      * by rewrite Ho.
      * by rewrite Hf', Hf.
    + intros Hno. exfalso. by apply Hno.
  - rewrite noRecords_grow by (by rewrite Hf).
    fields. rewrite Ht, Hp, Hf, Ho, He, Hl. split; [done|]. split; [done|]. split.
    + intros Hat. by exfalso.
    + done.
Qed.

Lemma partial_trailing_same child child' response :
  topic child' = topic child → partition child' = partition child →
  partial_trailing child response → partial_trailing child' response.
Proof. unfold partial_trailing. intros -> ->. done. Qed.

Lemma parseAll_in_range conf child responses :
  0 < Consumer_Fetch_Max conf ≤ MaxInt32 →
  MinInt32 ≤ Consumer_Fetch_Default conf →
  Consumer_Fetch_Default conf ≤ fetchSize child ≤ Consumer_Fetch_Max conf →
  Forall (partial_trailing child) responses →
  Consumer_Fetch_Default conf ≤ fetchSize (parseAll conf child responses)
    ≤ Consumer_Fetch_Max conf.
Proof.
  intros Hmax Hdef. revert child.
  induction responses as [|response responses IH]; intros child Hsize Hall; [done|].
  apply Forall_cons in Hall as [Hhead Htail]. simpl.
  destruct (partial_trailing_step conf child response Hhead)
    as (_ & Ht & Hp & Hat & Hgrow).
  apply IH.
  - destruct (decide (0 < Consumer_Fetch_Max conf
                      ∧ fetchSize child = Consumer_Fetch_Max conf)) as [Hlim|Hnot].
    + destruct (Hat Hlim) as (_ & _ & ->). done.
    + destruct (Hgrow Hnot) as (-> & _). by apply doubled_in_range.
  - eapply Forall_impl; [exact Htail|].
    intros r. by apply partial_trailing_same.
Qed.

End GrowthFacts.

Lemma scenario_partial_trailing (off size : Z) :
  @partial_trailing SpecDecoder.decoder (Scenario.subscription off size)
    (Scenario.response Scenario.partial_block).
Proof.
  split; [by left|].
  exists Scenario.partial_block. repeat split; vm_compute; reflexivity.
Defined.

Section UnboundedGrowthFacts.

Context `{Decoder}.

Lemma parseAll_stays_max conf child responses :
  Consumer_Fetch_Max conf ≤ 0 →
  fetchSize child = MaxInt32 →
  Forall (partial_trailing child) responses →
  fetchSize (parseAll conf child responses) = MaxInt32.
Proof.
  intros Hmax. revert child.
  induction responses as [|response responses IH]; intros child Hsize Hall; [done|].
  apply Forall_cons in Hall as [Hhead Htail]. simpl.
  destruct (partial_trailing_step conf child response Hhead)
    as (_ & Ht & Hp & _ & Hgrow).
  apply IH.
  - destruct Hgrow as (-> & _); [lia|].
    rewrite doubled_no_max by done. rewrite Hsize. vm_compute. reflexivity.
  - eapply Forall_impl; [exact Htail|].
    intros r. by apply partial_trailing_same.
Qed.

End UnboundedGrowthFacts.

(** ** Whole containers: [parseRecords] and [parseMessages] *)

Lemma advanced_refl bound st : offset st.1 ≤ bound → advanced bound [] st st.
Proof.
  intros Hle. repeat split; try done. exists []. by rewrite app_nil_r.
Qed.

Lemma advanced_trans bound offs1 offs2 st1 st2 st3 :
  advanced bound offs1 st1 st2 → advanced bound offs2 st2 st3 →
  advanced bound (offs1 ++ offs2) st1 st3.
Proof.
  intros (Hm1 & Hb1 & Hs1 & new1 & Hn1 & Hbt1 & He1)
         (Hm2 & Hb2 & Hs2 & new2 & Hn2 & Hbt2 & He2).
  split; [lia|]. split; [done|]. split.
  - apply Forall_app. split; [|done].
    eapply Forall_impl; [exact Hs1|]. cbv beta. intros o. lia.
  - exists (new1 ++ new2). split; [|split].
    + by rewrite Hn2, Hn1, app_assoc.
    + apply Forall_app. split.
      * eapply Forall_impl; [exact Hbt1|]. cbv beta. intros m. lia.
      * eapply Forall_impl; [exact Hbt2|]. cbv beta. intros m. lia.
    + intros Hnil. apply app_eq_nil in Hnil as [-> ->].
      by rewrite He2, He1.
Qed.

Lemma parseRecords_loop_advanced bound batch st :
  bound ≤ MaxInt64 → offset st.1 ≤ bound →
  Forall (λ o, MinInt64 ≤ o ∧ o < bound) (batch_offsets batch) →
  advanced bound (batch_offsets batch) st (parseRecords_loop batch (batch_Records batch) st).
Proof.
  intros Hbound Hst Hall. unfold batch_offsets in *. rewrite Forall_fmap in Hall.
  destruct (offer_loop_advance
              (λ rec, add64 (FirstOffset batch) (rec_OffsetDelta rec))
              (λ c rec, recordMessage c batch rec
                          (add64 (FirstOffset batch) (rec_OffsetDelta rec)))
              _ (parseRecords_step_offer batch) (λ _ _, eq_refl)
              bound (batch_Records batch) st Hbound Hst Hall)
    as (Hm & Hb & Hs & Hnew).
  unfold advanced, parseRecords_loop. by rewrite Forall_fmap.
Qed.

Lemma parseRecords_finish child batch :
  parseRecords child batch
  = finish (parseRecords_loop batch (batch_Records batch) (child, [])).
Proof.
  unfold parseRecords, finish.
  by destruct (parseRecords_loop batch (batch_Records batch) (child, [])).
Qed.

(** After a whole container the offset is strictly larger, above every
    record seen, and the messages returned lie between the old and the new
    offset. *)
Lemma finish_advanced bound offs child st' :
  bound ≤ MaxInt64 → MinInt64 ≤ offset child → offset child < MaxInt64 →
  advanced bound offs (child, []) st' →
  offset child < offset (finish st').1
  ∧ offset (finish st').1 ≤ bound + 1
  ∧ Forall (λ o, o < offset (finish st').1) offs
  ∧ (finish st').2 = st'.2
  ∧ Forall (λ m, offset child ≤ Offset m ∧ Offset m < offset (finish st').1) st'.2
  ∧ (st'.2 = [] → Forall (λ o, o < offset child) offs
                  ∧ offset (finish st').1 = offset child + 1).
Proof.
  intros Hbound Hlo Hhi (Hm & Hb & Hs & new & Hnew & Hbt & Hsame).
  simpl in Hnew, Hm. subst new. unfold finish.
  destruct st' as [child' messages]. simpl in *.
  destruct messages as [|m ms]; simpl.
  - rewrite (Hsame eq_refl) in *. fields.
    rewrite add64_succ by lia.
    repeat split; try done; try lia.
    eapply Forall_impl; [exact Hs|]. cbv beta. intros o. lia.
  - apply Forall_cons in Hbt as [Hm0 Hms].
    repeat split; try done; try lia.
    apply Forall_cons. done.
Qed.

Lemma parseRecords_advance bound child batch :
  bound ≤ MaxInt64 → MinInt64 ≤ offset child → offset child < MaxInt64 →
  offset child ≤ bound →
  Forall (λ o, MinInt64 ≤ o ∧ o < bound) (batch_offsets batch) →
  let r := parseRecords child batch in
  offset child < offset r.1 ∧ offset r.1 ≤ bound + 1
  ∧ Forall (λ o, o < offset r.1) (batch_offsets batch)
  ∧ Forall (λ m, offset child ≤ Offset m ∧ Offset m < offset r.1) r.2
  ∧ (r.2 = [] → Forall (λ o, o < offset child) (batch_offsets batch)
               ∧ offset r.1 = offset child + 1).
Proof.
  intros Hbound Hlo Hhi Hle Hall. cbv zeta. rewrite parseRecords_finish.
  destruct (finish_advanced bound (batch_offsets batch) child
              (parseRecords_loop batch (batch_Records batch) (child, [])))
    as (H1 & H2 & H3 & H4 & H5 & H6); [done | done | done | |].
  - apply parseRecords_loop_advanced; [done | done | done].
  - rewrite H4. done.
Qed.

Section LegacyContainers.

Context `{Decoder}.

Lemma parseMessages_block_advanced bound msgBlock st :
  bound ≤ MaxInt64 → offset st.1 ≤ bound →
  Forall (λ o, MinInt64 ≤ o ∧ o < bound) (messageBlock_offsets msgBlock) →
  advanced bound (messageBlock_offsets msgBlock) st (parseMessages_block st msgBlock).
Proof.
  intros Hbound Hst Hall. unfold messageBlock_offsets in *. rewrite Forall_fmap in Hall.
  destruct (offer_loop_advance
              (message_offset msgBlock)
              (λ c msg, legacyMessage c msgBlock msg (message_offset msgBlock msg))
              _ (parseMessages_step_offer msgBlock) (λ _ _, eq_refl)
              bound (Messages msgBlock) st Hbound Hst Hall)
    as (Hm & Hb & Hs & Hnew).
  unfold advanced, parseMessages_block. by rewrite Forall_fmap.
Qed.

Lemma parseMessages_loop_advanced bound blocks st :
  bound ≤ MaxInt64 → offset st.1 ≤ bound →
  Forall (λ o, MinInt64 ≤ o ∧ o < bound) (concat (messageBlock_offsets <$> blocks)) →
  advanced bound (concat (messageBlock_offsets <$> blocks)) st
    (parseMessages_loop blocks st).
Proof.
  intros Hbound. revert st.
  induction blocks as [|msgBlock blocks IH]; intros st Hst Hall; simpl.
  - by apply advanced_refl.
  - simpl in Hall. apply Forall_app in Hall as [Hhead Htail].
    pose proof (parseMessages_block_advanced bound msgBlock st Hbound Hst Hhead) as Hb.
    eapply advanced_trans; [exact Hb|].
    apply IH; [|done]. by destruct Hb as (_ & ? & _).
Qed.

Lemma parseMessages_finish child msgSet :
  parseMessages child msgSet
  = finish (parseMessages_loop (set_Messages msgSet) (child, [])).
Proof.
  unfold parseMessages, finish.
  by destruct (parseMessages_loop (set_Messages msgSet) (child, [])).
Qed.

Lemma parseMessages_advance bound child msgSet :
  bound ≤ MaxInt64 → MinInt64 ≤ offset child → offset child < MaxInt64 →
  offset child ≤ bound →
  Forall (λ o, MinInt64 ≤ o ∧ o < bound) (messageSet_offsets msgSet) →
  let r := parseMessages child msgSet in
  offset child < offset r.1 ∧ offset r.1 ≤ bound + 1
  ∧ Forall (λ o, o < offset r.1) (messageSet_offsets msgSet)
  ∧ Forall (λ m, offset child ≤ Offset m ∧ Offset m < offset r.1) r.2
  ∧ (r.2 = [] → Forall (λ o, o < offset child) (messageSet_offsets msgSet)
               ∧ offset r.1 = offset child + 1).
Proof.
  intros Hbound Hlo Hhi Hle Hall. cbv zeta. rewrite parseMessages_finish.
  destruct (finish_advanced bound (messageSet_offsets msgSet) child
              (parseMessages_loop (set_Messages msgSet) (child, [])))
    as (H1 & H2 & H3 & H4 & H5 & H6); [done | done | done | |].
  - apply parseMessages_loop_advanced; [done | done | done].
  - rewrite H4. done.
Qed.

(** Nothing at or above the offset in a whole message set. *)
Lemma parseMessages_loop_below blocks st :
  Forall (λ msgBlock, Forall (λ o, o < offset st.1) (messageBlock_offsets msgBlock)) blocks →
  parseMessages_loop blocks st = st.
Proof.
  induction 1 as [|msgBlock blocks Hhead _ IH]; [done|].
  change (parseMessages_loop blocks (parseMessages_block st msgBlock) = st).
  unfold parseMessages_block.
  rewrite (offer_loop_below (message_offset msgBlock)
             (λ c msg, legacyMessage c msgBlock msg (message_offset msgBlock msg))
             _ (parseMessages_step_offer msgBlock)).
  - exact IH.
  - unfold messageBlock_offsets in Hhead. by rewrite Forall_fmap in Hhead.
Qed.

End LegacyContainers.

Lemma parseRecords_loop_below batch st :
  Forall (λ o, o < offset st.1) (batch_offsets batch) →
  parseRecords_loop batch (batch_Records batch) st = st.
Proof.
  intros Hall. unfold parseRecords_loop.
  apply (offer_loop_below
           (λ rec, add64 (FirstOffset batch) (rec_OffsetDelta rec))
           (λ c rec, recordMessage c batch rec
                       (add64 (FirstOffset batch) (rec_OffsetDelta rec)))
           _ (parseRecords_step_offer batch)).
  unfold batch_offsets in Hall. by rewrite Forall_fmap in Hall.
Qed.

(** ** Containers that deliver nothing *)

Section EmptyContainers.

Context `{Decoder}.

Lemma parseMessages_loop_cursor blocks child messages st :
  cursor_follows child messages st →
  cursor_follows child messages (parseMessages_loop blocks st).
Proof.
  intros Hst. unfold parseMessages_loop. apply foldl_invariant; [done|].
  intros st' msgBlock _ Hinv. unfold parseMessages_block.
  by apply (offer_loop_cursor (message_offset msgBlock)
              (λ c msg, legacyMessage c msgBlock msg (message_offset msgBlock msg))
              _ (parseMessages_step_offer msgBlock)).
Qed.

Lemma finish_empty child st :
  cursor_follows child [] st → (finish st).2 = [] →
  offset (finish st).1 = add64 (offset child) 1.
Proof.
  unfold finish. destruct st as [child' messages].
  intros [[Hm Ho]|(m & _ & _ & _ & Hlen)]; simpl in *.
  - subst messages. simpl. by rewrite Ho.
  - destruct messages; simpl in *; [lia | done].
Qed.

End EmptyContainers.

Lemma parseRecords_below child batch :
  Forall (λ o, o < offset child) (batch_offsets batch) →
  parseRecords child batch = (set_offset (add64 (offset child) 1) child, []).
Proof.
  intros Hall.
  rewrite parseRecords_finish, (parseRecords_loop_below batch (child, [])) by done.
  done.
Qed.

(** ** The aborted-transaction filter *)

Lemma consumeAborted_spec lastOffset txns ids :
  consumeAborted lastOffset txns (ids, txns)
  = (ids ∪ producers (consumed lastOffset txns), pending_after lastOffset txns).
Proof.
  revert ids. induction txns as [|txn rest IH]; intros ids; simpl.
  - f_equal. unfold producers. simpl. by rewrite (right_id_L ∅ (∪)).
  - destruct (Z.gtb_spec (txn_FirstOffset txn) lastOffset) as [Hgt|Hle];
      destruct (Z.leb_spec (txn_FirstOffset txn) lastOffset); try lia.
    + f_equal. unfold producers. simpl. by rewrite (right_id_L ∅ (∪)).
    + simpl. rewrite IH. f_equal. unfold producers. simpl.
      by rewrite (comm_L (∪) {[txn_ProducerID txn]} ids), <- (assoc_L (∪)).
Qed.

Lemma consumed_pending lastOffset txns :
  consumed lastOffset txns ++ pending_after lastOffset txns = txns.
Proof.
  induction txns as [|txn rest IH]; simpl; [done|].
  case_match; simpl; [by rewrite IH | done].
Qed.

Lemma filter_none {A} (P : A → Prop) `{∀ x, Decision (P x)} (l : list A) :
  Forall (λ x, ¬ P x) l → filter P l = [].
Proof.
  induction 1 as [|x l Hx _ IH]; [done|]. by rewrite filter_cons_False.
Qed.

Lemma filter_all {A} (P : A → Prop) `{∀ x, Decision (P x)} (l : list A) :
  Forall P l → filter P l = l.
Proof.
  induction 1 as [|x l Hx _ IH]; [done|]. rewrite filter_cons_True by done. by rewrite IH.
Qed.

(** On a list ordered by first offset the consumed transactions are all
    those that start at or before the last offset of the batch. *)
Lemma consumed_sorted lastOffset txns :
  StronglySorted (λ a b, txn_FirstOffset a ≤ txn_FirstOffset b) txns →
  consumed lastOffset txns = filter (λ txn, txn_FirstOffset txn ≤ lastOffset) txns
  ∧ pending_after lastOffset txns = filter (λ txn, lastOffset < txn_FirstOffset txn) txns.
Proof.
  induction 1 as [|txn rest Hsorted IH Hhead]; simpl; [done|].
  destruct IH as [IHc IHp].
  destruct (Z.leb_spec (txn_FirstOffset txn) lastOffset) as [Hle|Hgt].
  - rewrite filter_cons_True by done. rewrite filter_cons_False by lia.
    by rewrite IHc, IHp.
  - rewrite filter_cons_False by lia. rewrite filter_cons_True by done.
    split.
    + symmetry. apply filter_none.
      eapply Forall_impl; [exact Hhead|]. cbv beta. intros t. lia.
    + f_equal. symmetry. apply filter_all.
      eapply Forall_impl; [exact Hhead|]. cbv beta. intros t. lia.
Qed.

Section FilterFacts.

Context `{Decoder}.

(** One iteration on a default batch, with the inner loop in closed form. *)
Lemma parseResponse_step_default conf st batch :
  parseResponse_step conf st (defaultRecords batch)
  = let ids := aborted_at st batch in
    let pending := pending_after (LastOffset batch) (abortedTransactions st) in
    let parsed := parseRecords (ls_child st) batch in
    let st' := mkLoopState parsed.1 ids pending (ls_messages st) in
    match isControl (defaultRecords batch) with
    | Fail err =>
        if bool_decide (Consumer_IsolationLevel conf = ReadCommitted)
        then (st', Some err) else (st', None)
    | Ok true =>
        match getControlRecord (defaultRecords batch) with
        | Fail err => (st', Some err)
        | Ok controlRecord =>
            match cr_Type controlRecord with
            | ControlRecordAbort =>
                (mkLoopState parsed.1 (ids ∖ {[ProducerID batch]}) pending (ls_messages st),
                 None)
            | _ => (st', None)
            end
        end
    | Ok false =>
        if bool_decide (Consumer_IsolationLevel conf = ReadCommitted)
           && IsTransactional batch
           && bool_decide (ProducerID batch ∈ ids)
        then (st', None)
        else (mkLoopState parsed.1 ids pending (ls_messages st ++ parsed.2), None)
    end.
Proof.
  unfold parseResponse_step, aborted_at. rewrite consumeAborted_spec.
  by destruct (parseRecords (ls_child st) batch).
Qed.

Lemma withheld_step conf st batch :
  withheld conf st batch →
  let r := parseResponse_step conf st (defaultRecords batch) in
  r.2 = None
  ∧ ls_messages r.1 = ls_messages st
  ∧ ls_child r.1 = (parseRecords (ls_child st) batch).1.
Proof.
  intros Hw. cbv zeta. rewrite parseResponse_step_default. cbv zeta.
  destruct Hw as [(Hc & cr & Hcr)|(Hiso & Hc & Ht & Hin)].
  - rewrite Hc, Hcr. by destruct (cr_Type cr).
  - rewrite Hc, Hiso, Ht.
    rewrite (bool_decide_eq_true_2 _ Hin), bool_decide_eq_true_2 by done. done.
Qed.

End FilterFacts.

(** ** Batches whose records are withheld *)

Lemma batch_offsets_int64 batch :
  Forall (λ o, MinInt64 ≤ o) (batch_offsets batch).
Proof.
  unfold batch_offsets. apply Forall_fmap, Forall_forall. intros rec _.
  apply (add64_range (FirstOffset batch) (rec_OffsetDelta rec)).
Qed.

(** [parseRecords] with room in [int64]: the offset ends above where it was
    and above every record of the batch, one past the last message
    returned. *)
Lemma parseRecords_past child batch :
  MinInt64 ≤ offset child → offset child < MaxInt64 →
  Forall (λ o, o < MaxInt64) (batch_offsets batch) →
  let parsed := parseRecords child batch in
  offset child < offset parsed.1
  ∧ Forall (λ o, o < offset parsed.1) (batch_offsets batch)
  ∧ (∀ m, last parsed.2 = Some m →
          offset child ≤ Offset m ∧ offset parsed.1 = Offset m + 1)
  ∧ (Forall (λ o, o < offset child) (batch_offsets batch) →
     offset parsed.1 = offset child + 1)
  ∧ (¬ Forall (λ o, o < offset child) (batch_offsets batch) →
     ∃ m, last parsed.2 = Some m).
Proof.
  intros Hlo Hhi Hall. cbv zeta.
  destruct (parseRecords_advance MaxInt64 child batch) as (Hup & _ & Hseen & Hbt & Hnil);
    [done | done | done | lia | |].
  { pose proof (batch_offsets_int64 batch) as Hint.
    apply Forall_forall. intros o Ho.
    rewrite Forall_forall in Hall. rewrite Forall_forall in Hint. split; auto. }
  split; [done|]. split; [done|]. split; [|split].
  - intros m Hlast.
    pose proof (parseRecords_final child batch) as Hfin. rewrite Hlast in Hfin.
    assert (m ∈ (parseRecords child batch).2) as Hin.
    { apply last_Some in Hlast as [l' ->]. apply elem_of_app. right. by left. }
    rewrite Forall_forall in Hbt. destruct (Hbt m Hin) as [Hge Hlt].
    split; [done|].
    destruct (decide (Offset m < MaxInt64)) as [Hm|Hm].
    + rewrite Hfin. apply add64_succ; lia.
    + pose proof (add64_range (Offset m) 1) as [_ Hmax]. lia.
  - intros Hbelow.
    rewrite (parseRecords_below child batch Hbelow). fields. apply add64_succ; lia.
  - intros Hnot. destruct (last (parseRecords child batch).2) as [m|] eqn:Hlast; [by exists m|].
    apply last_None in Hlast. exfalso. apply Hnot. by apply Hnil.
Qed.

(** ** The offset over a whole response *)

Section Monotone.

Context `{Decoder}.

Lemma parseResponse_step_advance conf bound st records :
  bound < MaxInt64 →
  MinInt64 ≤ offset (ls_child st) → offset (ls_child st) ≤ bound →
  Forall (λ o, MinInt64 ≤ o ∧ o < bound) (records_offsets records) →
  offset (ls_child st) ≤ offset (ls_child (parseResponse_step conf st records).1)
  ∧ offset (ls_child (parseResponse_step conf st records).1) ≤ bound + 1.
Proof.
  intros Hbound Hlo Hle Hall. destruct records as [msgSet|batch|tag].
  - simpl in Hall.
    destruct (parseMessages_advance bound (ls_child st) msgSet) as (Hup & Hb & _);
      [lia | done | lia | done | done |].
    unfold parseResponse_step.
    destruct (parseMessages (ls_child st) msgSet) as [child' messages]. simpl in *. lia.
  - simpl in Hall.
    destruct (parseRecords_advance bound (ls_child st) batch) as (Hup & Hb & _);
      [lia | done | lia | done | done |].
    rewrite parseResponse_step_default. cbv zeta.
    repeat case_match; simpl; lia.
  - simpl. lia.
Qed.

Lemma parseResponse_loop_advance conf recordsSet :
  ∀ bound st,
    bound + Z.of_nat (length recordsSet) ≤ MaxInt64 →
    MinInt64 ≤ offset (ls_child st) → offset (ls_child st) ≤ bound →
    Forall (λ records, Forall (λ o, MinInt64 ≤ o ∧ o < bound) (records_offsets records))
      recordsSet →
    offset (ls_child st) ≤ offset (ls_child (parseResponse_loop conf st recordsSet).1)
    ∧ offset (ls_child (parseResponse_loop conf st recordsSet).1)
      ≤ bound + Z.of_nat (length recordsSet).
Proof.
  induction recordsSet as [|records rest IH]; intros bound st Hroom Hlo Hle Hall.
  - simpl. lia.
  - apply Forall_cons in Hall as [Hhead Htail].
    change (length (records :: rest)) with (S (length rest)) in *.
    destruct (parseResponse_step_advance conf bound st records) as [Hup Hb];
      [lia | done | done | done |].
    simpl parseResponse_loop.
    destruct (parseResponse_step conf st records) as [st' [err|]]; simpl in *; [lia|].
    destruct (IH (bound + 1) st') as [Hup' Hb']; [lia | lia | done | | lia].
    eapply Forall_impl; [exact Htail|]. cbv beta. intros r Hr.
    eapply Forall_impl; [exact Hr|]. cbv beta. intros o. lia.
Qed.

Lemma noRecords_advance conf child block partialTrailingMessage :
  MinInt64 ≤ offset child → offset child < MaxInt64 →
  (partialTrailingMessage = false → next_offset_ahead child block) →
  offset child ≤ offset (parseResponse_noRecords conf child block partialTrailingMessage).
Proof.
  intros Hlo Hhi Hnext. unfold parseResponse_noRecords.
  destruct partialTrailingMessage.
  - case_match.
    + destruct (sendError_fields conf ErrMessageTooLarge child) as (Ho & _).
      fields. rewrite Ho, add64_succ by done. lia.
    + repeat case_match; fields; lia.
  - destruct (recordsNextOffset block) as [next|] eqn:Hn; [|lia].
    destruct (Z.leb_spec next (HighWaterMarkOffset block)); [|lia].
    fields. by apply Hnext.
Qed.

(** One response that is steady for the consumer does not move its offset
    back. *)
Lemma parseResponse_monotone conf child response :
  steady child response →
  offset child ≤ offset (parseResponse conf child response).1.
Proof.
  unfold steady, parseResponse. intros Hsteady.
  destruct (negb (ThrottleTime response =? 0) && (size (Blocks response) =? 0)%nat);
    [simpl; lia|].
  destruct (GetBlock response (topic child) (partition child)) as [block|]; [|simpl; lia].
  destruct Hsteady as [(Hlo & Hroom & Hall) Hnext].
  destruct (negb (errors_Is (Err block) ErrNoError)); [simpl; lia|].
  destruct (numRecords block) as [nRecs|err] eqn:Hn; [|simpl; lia].
  fold (with_replica block child).
  destruct (with_replica_fields block child) as (Ho & _).
  destruct (Z.eqb_spec nRecs 0) as [->|Hne].
  - destruct (isPartial block) as [partialTrailingMessage|err] eqn:Hp; [|simpl; lia].
    fields. rewrite <- Ho.
    apply noRecords_advance; rewrite ?Ho; [done | lia |].
    intros ->. unfold next_offset_ahead. rewrite Ho. by apply Hnext.
  - set (st := mkLoopState _ _ _ _).
    destruct (parseResponse_loop_advance conf (RecordsSet block)
                (MaxInt64 - Z.of_nat (length (RecordsSet block))) st) as [Hup _].
    + lia.
    + unfold st. fields. simpl. lia.
    + unfold st. fields. simpl. lia.
    + eapply Forall_impl; [exact Hall|]. cbv beta. intros r Hr.
      eapply Forall_impl; [exact Hr|]. cbv beta. intros o. lia.
    + assert (offset (ls_child st) = offset child) as Hst by (unfold st; simpl; lia).
      destruct (parseResponse_loop conf st (RecordsSet block)) as [st' [err|]];
        simpl in *; lia.
Qed.

Lemma parseAll_monotone conf responses :
  ∀ child, steady_run conf child responses →
           offset child ≤ offset (parseAll conf child responses).
Proof.
  induction responses as [|response rest IH]; intros child Hrun; simpl; [lia|].
  destruct Hrun as [Hhead Hrest].
  pose proof (parseResponse_monotone conf child response Hhead).
  specialize (IH _ Hrest). lia.
Qed.

Lemma steady_run_drop conf responses :
  ∀ child n, steady_run conf child responses →
             steady_run conf (parseAll conf child (take n responses)) (drop n responses).
Proof.
  induction responses as [|response rest IH]; intros child n Hrun.
  - by destruct n.
  - destruct n as [|n]; [done|]. destruct Hrun as [_ Hrest].
    simpl. by apply IH.
Qed.

Lemma steady_run_take conf responses :
  ∀ child n, steady_run conf child responses → steady_run conf child (take n responses).
Proof.
  induction responses as [|response rest IH]; intros child n Hrun.
  - by destruct n.
  - destruct n as [|n]; [done|]. destruct Hrun as [Hhead Hrest].
    simpl. split; [done|]. by apply IH.
Qed.

End Monotone.

(** ** The messages of a whole response *)

Section Delivered.

Context `{Decoder}.

Lemma parseResponse_step_between conf bound st records :
  bound < MaxInt64 →
  MinInt64 ≤ offset (ls_child st) → offset (ls_child st) ≤ bound →
  Forall (λ o, MinInt64 ≤ o ∧ o < bound) (records_offsets records) →
  ∃ new,
    ls_messages (parseResponse_step conf st records).1 = ls_messages st ++ new
    ∧ Forall (λ m, offset (ls_child st) ≤ Offset m
                   ∧ Offset m < offset (ls_child (parseResponse_step conf st records).1))
        new.
Proof.
  intros Hbound Hlo Hle Hall. destruct records as [msgSet|batch|tag].
  - simpl in Hall.
    destruct (parseMessages_advance bound (ls_child st) msgSet) as (_ & _ & _ & Hbt & _);
      [lia | done | lia | done | done |].
    unfold parseResponse_step.
    destruct (parseMessages (ls_child st) msgSet) as [child' messages]. simpl in *.
    by exists messages.
  - simpl in Hall.
    destruct (parseRecords_advance bound (ls_child st) batch) as (_ & _ & _ & Hbt & _);
      [lia | done | lia | done | done |].
    rewrite parseResponse_step_default. cbv zeta.
    repeat case_match; simpl;
      first [ by exists (parseRecords (ls_child st) batch).2
            | exists []; by rewrite app_nil_r ].
  - exists []. simpl. by rewrite app_nil_r.
Qed.

Lemma parseResponse_loop_between conf recordsSet :
  ∀ bound st,
    bound + Z.of_nat (length recordsSet) ≤ MaxInt64 →
    MinInt64 ≤ offset (ls_child st) → offset (ls_child st) ≤ bound →
    Forall (λ records, Forall (λ o, MinInt64 ≤ o ∧ o < bound) (records_offsets records))
      recordsSet →
    ∃ new,
      ls_messages (parseResponse_loop conf st recordsSet).1 = ls_messages st ++ new
      ∧ Forall (λ m, offset (ls_child st) ≤ Offset m
                     ∧ Offset m < offset (ls_child (parseResponse_loop conf st recordsSet).1))
          new.
Proof.
  induction recordsSet as [|records rest IH]; intros bound st Hroom Hlo Hle Hall.
  - exists []. simpl. by rewrite app_nil_r.
  - apply Forall_cons in Hall as [Hhead Htail].
    change (length (records :: rest)) with (S (length rest)) in *.
    destruct (parseResponse_step_advance conf bound st records) as [Hup Hb];
      [lia | done | done | done |].
    destruct (parseResponse_step_between conf bound st records) as (new1 & Hnew1 & Hbt1);
      [lia | done | done | done |].
    simpl parseResponse_loop.
    destruct (parseResponse_step conf st records) as [st' [err|]] eqn:Hstep; simpl in *.
    { by exists new1. }
    assert (Forall (λ records, Forall (λ o, MinInt64 ≤ o ∧ o < bound + 1)
                                 (records_offsets records)) rest) as Htail'.
    { eapply Forall_impl; [exact Htail|]. cbv beta. intros r Hr.
      eapply Forall_impl; [exact Hr|]. cbv beta. intros o. lia. }
    destruct (parseResponse_loop_advance conf rest (bound + 1) st') as [Hup' _];
      [lia | lia | done | done |].
    destruct (IH (bound + 1) st') as (new2 & Hnew2 & Hbt2);
      [lia | lia | done | done |].
    exists (new1 ++ new2). split.
    + by rewrite Hnew2, Hnew1, app_assoc.
    + apply Forall_app. split.
      * eapply Forall_impl; [exact Hbt1|]. cbv beta. intros m. lia.
      * eapply Forall_impl; [exact Hbt2|]. cbv beta. intros m. lia.
Qed.

(** With room in [int64], every message a response delivers is at or above
    the offset the subscription had and below the offset it ends with. *)
Lemma parseResponse_between conf child response :
  roomy child response →
  Forall (λ m, offset child ≤ Offset m
               ∧ Offset m < offset (parseResponse conf child response).1)
    (parseResponse conf child response).2.1.
Proof.
  unfold roomy, parseResponse. intros Hroomy.
  destruct (negb (ThrottleTime response =? 0) && (size (Blocks response) =? 0)%nat);
    [by constructor|].
  destruct (GetBlock response (topic child) (partition child)) as [block|];
    [|by constructor].
  destruct Hroomy as (Hlo & Hroom & Hall).
  destruct (negb (errors_Is (Err block) ErrNoError)); [by constructor|].
  destruct (numRecords block) as [nRecs|err]; [|by constructor].
  destruct (nRecs =? 0).
  { destruct (isPartial block); by constructor. }
  set (st := mkLoopState _ _ _ _).
  assert (offset (ls_child st) = offset child) as Hst.
  { unfold st. simpl. by destruct (negb _). }
  destruct (parseResponse_loop_between conf (RecordsSet block)
              (MaxInt64 - Z.of_nat (length (RecordsSet block))) st)
    as (new & Hnew & Hbt).
  - lia.
  - lia.
  - lia.
  - eapply Forall_impl; [exact Hall|]. cbv beta. intros r Hr.
    eapply Forall_impl; [exact Hr|]. cbv beta. intros o. lia.
  - destruct (parseResponse_loop conf st (RecordsSet block)) as [st' [err|]];
      [by constructor|].
    simpl in *. rewrite Hnew. by rewrite Hst in Hbt.
Qed.

End Delivered.

Section LegacyPast.

Context `{Decoder}.

Lemma parseMessages_past child msgSet :
  MinInt64 ≤ offset child → offset child < MaxInt64 →
  Forall (λ o, MinInt64 ≤ o ∧ o < MaxInt64) (messageSet_offsets msgSet) →
  offset child < offset (parseMessages child msgSet).1.
Proof.
  intros Hlo Hhi Hall.
  destruct (parseMessages_advance MaxInt64 child msgSet) as (Hup & _);
    [done | done | done | lia | done | done].
Qed.

End LegacyPast.

(** ** handleResponses *)

Lemma handleResponses_step_other conf client brokerID st q p :
  p ≠ q →
  (handleResponses_step conf client brokerID st q).1 !! p = st.1 !! p
  ∧ (p ∈ (handleResponses_step conf client brokerID st q).2 ↔ p ∈ st.2).
Proof.
  intros Hne. unfold handleResponses_step.
  destruct (st.1 !! q) as [child|]; [|done].
  destruct (handleResponse conf client brokerID child) as [child' deleted]. simpl.
  rewrite lookup_insert_ne by done. split; [done|].
  destruct deleted; [|done]. rewrite elem_of_difference, elem_of_singleton. tauto.
Qed.

Lemma handleResponses_step_self conf client brokerID st p child :
  st.1 !! p = Some child →
  (handleResponses_step conf client brokerID st p).1 !! p
    = Some (handleResponse conf client brokerID child).1
  ∧ (p ∈ (handleResponses_step conf client brokerID st p).2
     ↔ p ∈ st.2 ∧ (handleResponse conf client brokerID child).2 = false).
Proof.
  intros Hp. unfold handleResponses_step. rewrite Hp.
  destruct (handleResponse conf client brokerID child) as [child' deleted]. simpl.
  rewrite lookup_insert_eq. split; [done|].
  destruct deleted.
  - rewrite elem_of_difference, elem_of_singleton.
    split; [intros [_ Hne]; by destruct Hne | intros [_ Hf]; discriminate Hf].
  - split; [intros Hin; by split | intros [Hin _]; exact Hin].
Qed.

Lemma handleResponses_fold_other conf client brokerID l :
  ∀ st p, p ∉ l →
    (foldl (handleResponses_step conf client brokerID) st l).1 !! p = st.1 !! p
    ∧ (p ∈ (foldl (handleResponses_step conf client brokerID) st l).2 ↔ p ∈ st.2).
Proof.
  induction l as [|q l IH]; intros st p Hp; simpl; [done|].
  apply not_elem_of_cons in Hp as [Hne Hp].
  destruct (IH (handleResponses_step conf client brokerID st q) p Hp) as [Hl Hs].
  destruct (handleResponses_step_other conf client brokerID st q p Hne) as [Hl' Hs'].
  rewrite Hl, Hl', Hs, Hs'. done.
Qed.

(** Every subscription is handled once, by the loop body applied to the
    state it had when [handleResponses] was called. *)
Lemma handleResponses_fold conf client brokerID l :
  NoDup l →
  ∀ st p child, p ∈ l → st.1 !! p = Some child →
    (foldl (handleResponses_step conf client brokerID) st l).1 !! p
      = Some (handleResponse conf client brokerID child).1
    ∧ (p ∈ (foldl (handleResponses_step conf client brokerID) st l).2
       ↔ p ∈ st.2 ∧ (handleResponse conf client brokerID child).2 = false).
Proof.
  induction 1 as [|q l Hq Hnodup IH]; intros st p child Hp Hchild; simpl.
  - by apply elem_of_nil in Hp.
  - destruct (decide (p = q)) as [->|Hne].
    + destruct (handleResponses_step_self conf client brokerID st q child Hchild)
        as [Hl Hs].
      destruct (handleResponses_fold_other conf client brokerID l
                  (handleResponses_step conf client brokerID st q) q Hq) as [Hl' Hs'].
      rewrite Hl', Hl, Hs', Hs. done.
    + apply elem_of_cons in Hp as [?|Hp]; [done|].
      destruct (handleResponses_step_other conf client brokerID st q p Hne) as [Hl Hs].
      destruct (IH (handleResponses_step conf client brokerID st q) p child Hp)
        as [Hl' Hs']; [by rewrite Hl|].
      rewrite Hl', Hs', Hs. done.
Qed.

Lemma handleResponses_child conf client store bc p child :
  p ∈ subscriptions bc → store !! p = Some child →
  (handleResponses conf client store bc).1 !! p
    = Some (handleResponse conf client (bc_broker bc) child).1
  ∧ (p ∈ subscriptions (handleResponses conf client store bc).2
     ↔ (handleResponse conf client (bc_broker bc) child).2 = false).
Proof.
  intros Hp Hchild. unfold handleResponses.
  destruct (handleResponses_fold conf client (bc_broker bc) (elements (subscriptions bc))
              (NoDup_elements _) (store, subscriptions bc) p child) as [Hl Hs];
    [by apply elem_of_elements | done |].
  destruct (foldl _ _ _) as [store' subs]. simpl in *.
  split; [done|]. rewrite Hs. tauto.
Qed.

(** ** fetchNewMessages *)

Ltac ltb_cases :=
  repeat match goal with
         | H : context [(?x <? ?y)%N] |- _ => destruct (N.ltb_spec x y)
         | |- context [(?x <? ?y)%N] => destruct (N.ltb_spec x y)
         end.

Lemma IsAtLeast_trans v b a :
  IsAtLeast v b = true → IsAtLeast b a = true → IsAtLeast v a = true.
Proof.
  destruct v as [v1 v2 v3 v4], b as [b1 b2 b3 b4], a as [a1 a2 a3 a4].
  unfold IsAtLeast. simpl. intros Hvb Hba.
  ltb_cases; try done; lia.
Qed.

(** The version fields of the request do not depend on the blocks. *)
Lemma fetchRequest_fields MaxResponseSize conf store bc :
  let request := fetchRequest MaxResponseSize conf store bc in
  let versioned := versionedRequest MaxResponseSize conf in
  req_Version request = req_Version versioned
  ∧ req_MaxBytes request = req_MaxBytes versioned
  ∧ req_Isolation request = req_Isolation versioned
  ∧ req_SessionID request = req_SessionID versioned
  ∧ req_SessionEpoch request = req_SessionEpoch versioned
  ∧ req_RackID request = req_RackID versioned.
Proof.
  cbv zeta. unfold fetchRequest.
  apply (foldl_invariant
           (λ request, req_Version request = _ ∧ req_MaxBytes request = _
                       ∧ req_Isolation request = _ ∧ req_SessionID request = _
                       ∧ req_SessionEpoch request = _ ∧ req_RackID request = _)).
  - done.
  - intros request p _ Hinv. unfold addSubscription.
    destruct (store !! p) as [child|]; [|done].
    destruct (negb (IsPaused child)); done.
Qed.

(** The request after the version checks, by the greatest threshold
    met. *)
Lemma versionedRequest_cases MaxResponseSize conf :
  let v := Version conf in
  let request := versionedRequest MaxResponseSize conf in
  req_Version request
  = (if IsAtLeast v V2_3_0_0 then 11 else if IsAtLeast v V2_1_0_0 then 10
     else if IsAtLeast v V2_0_0_0 then 8 else if IsAtLeast v V1_1_0_0 then 7
     else if IsAtLeast v V1_0_0_0 then 6 else if IsAtLeast v V0_11_0_0 then 5
     else if IsAtLeast v V0_10_1_0 then 3 else if IsAtLeast v V0_10_0_0 then 2
     else if IsAtLeast v V0_9_0_0 then 1 else 0)
  ∧ req_MaxBytes request = (if IsAtLeast v V0_10_1_0 then MaxResponseSize else 0)
  ∧ req_Isolation request
    = (if IsAtLeast v V0_11_0_0 then Consumer_IsolationLevel conf else ReadUncommitted)
  ∧ req_SessionID request = 0
  ∧ req_SessionEpoch request = (if IsAtLeast v V1_1_0_0 then -1 else 0)
  ∧ req_RackID request = (if IsAtLeast v V2_3_0_0 then RackID conf else "").
Proof.
  cbv zeta. unfold versionedRequest, when.
  destruct (IsAtLeast (Version conf) V0_9_0_0), (IsAtLeast (Version conf) V0_10_0_0),
    (IsAtLeast (Version conf) V0_10_1_0), (IsAtLeast (Version conf) V0_11_0_0),
    (IsAtLeast (Version conf) V1_0_0_0), (IsAtLeast (Version conf) V1_1_0_0),
    (IsAtLeast (Version conf) V2_0_0_0), (IsAtLeast (Version conf) V2_1_0_0),
    (IsAtLeast (Version conf) V2_3_0_0); done.
Qed.

(** * The claims of the specification *)

(** ** Offset filter and advance *)

(** C1.  While a batch (or a legacy message block) is parsed, a record whose
    offset is below the subscription's current offset is discarded: neither
    the messages nor the offset change.  A record at or above it is appended
    to the messages and the offset becomes that record's offset plus one (in
    [int64]; the mathematical successor below [MaxInt64]).  [parseRecords]
    ends one past the last message it returns.  Over a whole response, with
    room in [int64], every message delivered is at or above the offset the
    subscription had and below the offset it ends with.  In scenario S1, a
    subscription at offset 42 that receives records 40, 41, 42, 43 delivers
    42 and 43 and ends at offset 44. *)
Theorem parse_offset_filter :
  (∀ (batch : RecordBatch) (pre : list KRecord) (rec : KRecord)
     (st : partitionConsumer * list ConsumerMessage),
     let cur := parseRecords_loop batch pre st in
     let next := parseRecords_loop batch (pre ++ [rec]) st in
     let o := add64 (FirstOffset batch) (rec_OffsetDelta rec) in
     (o < offset cur.1 → next = cur)
     ∧ (offset cur.1 ≤ o →
        next.2 = cur.2 ++ [recordMessage cur.1 batch rec o]
        ∧ Offset (recordMessage cur.1 batch rec o) = o
        ∧ offset next.1 = add64 o 1
        ∧ (o < MaxInt64 → offset next.1 = o + 1)))
  ∧ (∀ (D : Decoder) (msgBlock : MessageBlock) (pre : list MessageBlock)
       (msg : MessageBlock) (st : partitionConsumer * list ConsumerMessage),
     let cur := foldl (parseMessages_step msgBlock) st pre in
     let next := foldl (parseMessages_step msgBlock) st (pre ++ [msg]) in
     let o := message_offset msgBlock msg in
     (o < offset cur.1 → next = cur)
     ∧ (offset cur.1 ≤ o →
        next.2 = cur.2 ++ [legacyMessage cur.1 msgBlock msg o]
        ∧ Offset (legacyMessage cur.1 msgBlock msg o) = o
        ∧ offset next.1 = add64 o 1))
  ∧ (∀ (child : partitionConsumer) (batch : RecordBatch) (m : ConsumerMessage),
       last (parseRecords child batch).2 = Some m →
       offset (parseRecords child batch).1 = add64 (Offset m) 1)
  ∧ (∀ (D : Decoder) (conf : Config) (child : partitionConsumer)
       (response : FetchResponse),
       roomy child response →
       Forall (λ m, offset child ≤ Offset m
                    ∧ Offset m < offset (parseResponse conf child response).1)
         (parseResponse conf child response).2.1)
  ∧ (let r := @parseResponse SpecDecoder.decoder
                (Scenario.conf ReadUncommitted 1024 8192)
                (Scenario.subscription 42 1024)
                (Scenario.response (Scenario.block [] [defaultRecords Scenario.s1_batch])) in
     map Offset r.2.1 = [42; 43] ∧ r.2.2 = None ∧ offset r.1 = 44).
Proof.
  split; [|split; [|split; [|split]]].
  - intros batch pre rec st. cbv zeta.
    rewrite parseRecords_loop_snoc.
    destruct (parseRecords_loop batch pre st) as [child messages]. split.
    + intros Hlt. by apply parseRecords_step_below.
    + intros Hle. rewrite parseRecords_step_deliver by exact Hle. simpl.
      repeat split; try done.
      intros Hmax. apply add64_succ; [|done].
      apply (add64_range (FirstOffset batch) (rec_OffsetDelta rec)).
  - intros D msgBlock pre msg st. cbv zeta.
    rewrite foldl_app.
    destruct (foldl (parseMessages_step msgBlock) st pre) as [child messages].
    change (foldl (parseMessages_step msgBlock) (child, messages) [msg])
      with (parseMessages_step msgBlock (child, messages) msg).
    split.
    + intros Hlt. by apply parseMessages_step_below.
    + intros Hle. rewrite parseMessages_step_deliver by exact Hle. simpl. done.
  - intros child batch m Hlast.
    pose proof (parseRecords_final child batch) as Hfin. by rewrite Hlast in Hfin.
  - intros D conf child response. apply parseResponse_between.
  - vm_compute. done.
Qed.

Lemma parse_offset_filter_witness :
  let batch := Scenario.s1_batch in
  let child := Scenario.subscription 42 1024 in
  let st := (child, @nil ConsumerMessage) in
  let pre := [Scenario.record_at 0; Scenario.record_at 1] in
  let response := Scenario.response (Scenario.block [] [defaultRecords batch]) in
  parseRecords_loop batch [Scenario.record_at 0] st = st
  ∧ map Offset (parseRecords_loop batch (pre ++ [Scenario.record_at 2]) st).2 = [42]
  ∧ offset (parseRecords_loop batch (pre ++ [Scenario.record_at 2]) st).1 = 43
  ∧ foldl (@parseMessages_step SpecDecoder.decoder (legacy_at 41)) st [legacy_at 41] = st
  ∧ offset (foldl (@parseMessages_step SpecDecoder.decoder (legacy_at 42)) st
              [legacy_at 42]).1 = 43
  ∧ offset (parseRecords child batch).1 = 44
  ∧ @roomy SpecDecoder.decoder child response
  ∧ Forall (λ m, 42 ≤ Offset m ∧ Offset m < 44)
      (@parseResponse SpecDecoder.decoder (Scenario.conf ReadUncommitted 1024 8192)
         child response).2.1.
Proof.
  intros batch child st pre response.
  destruct parse_offset_filter as (Hrecords & Hlegacy & Hlast & Hresponse & _).
  split; [|split; [|split; [|split; [|split; [|split; [|split]]]]]].
  - destruct (Hrecords batch [] (Scenario.record_at 0) st) as [Hbelow _].
    apply Hbelow. vm_compute. reflexivity.
  - destruct (Hrecords batch pre (Scenario.record_at 2) st) as [_ Hdeliver].
    destruct Hdeliver as (Hmsgs & _); [vm_compute; discriminate|].
    rewrite Hmsgs. vm_compute. reflexivity.
  - destruct (Hrecords batch pre (Scenario.record_at 2) st) as [_ Hdeliver].
    destruct Hdeliver as (_ & _ & _ & Hsucc); [vm_compute; discriminate|].
    rewrite Hsucc; vm_compute; reflexivity.
  - destruct (Hlegacy SpecDecoder.decoder (legacy_at 41) [] (legacy_at 41) st)
      as [Hbelow _].
    apply Hbelow. vm_compute. reflexivity.
  - destruct (Hlegacy SpecDecoder.decoder (legacy_at 42) [] (legacy_at 42) st)
      as [_ Hdeliver].
    destruct Hdeliver as (_ & _ & Hsucc); [vm_compute; discriminate|].
    etransitivity; [exact Hsucc|]. vm_compute. reflexivity.
  - rewrite (Hlast child batch
               (recordMessage (Scenario.subscription 43 1024) batch (Scenario.record_at 3) 43));
      vm_compute; reflexivity.
  - split; [vm_compute; discriminate|]. split; [vm_compute; reflexivity|].
    repeat constructor; vm_compute; discriminate.
  - apply (Hresponse SpecDecoder.decoder (Scenario.conf ReadUncommitted 1024 8192)
             child response).
    split; [vm_compute; discriminate|]. split; [vm_compute; reflexivity|].
    repeat constructor; vm_compute; discriminate.
Defined.

(** ** Aborted transactions under ReadCommitted *)

(** C2.  Under [ReadCommitted], for every default batch [parseResponse]
    consumes the leading pending aborted transactions whose first offset is
    at most the last offset of the batch, inserts their producers into the
    aborted set and pops them (on a list ordered by first offset these are
    all the transactions that start at or before that offset).  A control
    batch delivers nothing, and removes its producer from the set when its
    control record is an abort; a transactional batch whose producer is in
    the set delivers nothing; any other batch appends the messages of
    [parseRecords].  In scenario S3 only the record at offset 102 is
    delivered, producer 7 is in the set after the batch at 100 and no longer
    after the batch at 101. *)
Theorem aborted_transactions_filter :
  (∀ (D : Decoder) (conf : Config) (st : loopState) (batch : RecordBatch),
     Consumer_IsolationLevel conf = ReadCommitted →
     let records := defaultRecords batch in
     let ids := abortedProducerIDs st
                ∪ producers (consumed (LastOffset batch) (abortedTransactions st)) in
     let parsed := parseRecords (ls_child st) batch in
     let r := parseResponse_step conf st records in
     abortedTransactions r.1 = pending_after (LastOffset batch) (abortedTransactions st)
     ∧ ls_child r.1 = parsed.1
     ∧ (isControl records = Ok true →
        ∀ controlRecord, getControlRecord records = Ok controlRecord →
        r.2 = None
        ∧ ls_messages r.1 = ls_messages st
        ∧ abortedProducerIDs r.1
          = match cr_Type controlRecord with
            | ControlRecordAbort => ids ∖ {[ProducerID batch]}
            | _ => ids
            end)
     ∧ (isControl records = Ok false →
        IsTransactional batch = true → ProducerID batch ∈ ids →
        r.2 = None ∧ ls_messages r.1 = ls_messages st ∧ abortedProducerIDs r.1 = ids)
     ∧ (isControl records = Ok false →
        ¬ (IsTransactional batch = true ∧ ProducerID batch ∈ ids) →
        r.2 = None
        ∧ ls_messages r.1 = ls_messages st ++ parsed.2
        ∧ abortedProducerIDs r.1 = ids))
  ∧ (∀ (lastOffset : Z) (txns : list AbortedTransaction),
       consumed lastOffset txns ++ pending_after lastOffset txns = txns
       ∧ (StronglySorted (λ a b, txn_FirstOffset a ≤ txn_FirstOffset b) txns →
          consumed lastOffset txns
            = filter (λ txn, txn_FirstOffset txn ≤ lastOffset) txns
          ∧ pending_after lastOffset txns
            = filter (λ txn, lastOffset < txn_FirstOffset txn) txns))
  ∧ (let conf := Scenario.conf ReadCommitted 1024 8192 in
     let r := @parseResponse SpecDecoder.decoder conf (Scenario.subscription 100 1024)
                (Scenario.response (Scenario.block Scenario.s3_aborted s3_records)) in
     let after n :=
       (@parseResponse_loop SpecDecoder.decoder conf s3_start (take n s3_records)).1 in
     map Offset r.2.1 = [102] ∧ r.2.2 = None
     ∧ abortedProducerIDs (after 1%nat) = {[7]} ∧ ls_messages (after 1%nat) = []
     ∧ abortedProducerIDs (after 2%nat) = ∅ ∧ ls_messages (after 2%nat) = []
     ∧ map Offset (ls_messages (after 3%nat)) = [102]).
Proof.
  split; [|split].
  - intros D conf st batch Hiso. cbv zeta.
    rewrite parseResponse_step_default. cbv zeta. fold (aborted_at st batch).
    rewrite Hiso.
    destruct (isControl (defaultRecords batch)) as [[|]|err] eqn:Hc.
    + destruct (getControlRecord (defaultRecords batch)) as [cr|err] eqn:Hcr.
      * destruct (cr_Type cr) eqn:Hty; simpl;
          (split; [done|]); (split; [done|]);
          (split; [intros _ cr' [= <-]; by rewrite Hty|]);
          split; intros [=].
      * simpl. split; [done|]. split; [done|].
        split; [intros _ cr' [=]|]. split; intros [=].
    + rewrite (bool_decide_eq_true_2 (ReadCommitted = ReadCommitted)) by done.
      destruct (IsTransactional batch) eqn:Ht;
        destruct (decide (ProducerID batch ∈ aborted_at st batch)) as [Hin|Hout].
      * rewrite (bool_decide_eq_true_2 _ Hin). simpl.
        split; [done|]. split; [done|]. split; [intros [=]|].
        split; [done|]. intros _ Hnot. exfalso. by apply Hnot.
      * rewrite (bool_decide_eq_false_2 _ Hout). simpl.
        split; [done|]. split; [done|]. split; [intros [=]|].
        split; [by intros _ _ Hin|]. done.
      * simpl. split; [done|]. split; [done|]. split; [intros [=]|].
        split; [intros _ [=]|]. done.
      * simpl. split; [done|]. split; [done|]. split; [intros [=]|].
        split; [intros _ [=]|]. done.
    + simpl. split; [done|]. split; [done|]. split; [intros [=]|]. split; intros [=].
  - intros lastOffset txns. split; [apply consumed_pending | apply consumed_sorted].
  - vm_compute. done.
Qed.

Lemma aborted_transactions_filter_witness :
  let conf := Scenario.conf ReadCommitted 1024 8192 in
  let step := @parseResponse_step SpecDecoder.decoder conf in
  let dropped := step s3_start (defaultRecords Scenario.s3_batch100) in
  let skipped := step dropped.1 (defaultRecords Scenario.s3_batch101) in
  let emitted := step skipped.1 (defaultRecords Scenario.s3_batch102) in
  (dropped.2 = None ∧ ls_messages dropped.1 = [] ∧ abortedProducerIDs dropped.1 = {[7]})
  ∧ (skipped.2 = None ∧ ls_messages skipped.1 = [] ∧ abortedProducerIDs skipped.1 = ∅)
  ∧ (emitted.2 = None ∧ map Offset (ls_messages emitted.1) = [102])
  ∧ consumed 100 Scenario.s3_aborted
    = filter (λ txn, txn_FirstOffset txn ≤ 100) Scenario.s3_aborted.
Proof.
  intros conf step dropped skipped emitted.
  destruct aborted_transactions_filter as (Hstep & Hlist & _).
  split; [|split; [|split]].
  - destruct (Hstep SpecDecoder.decoder conf s3_start Scenario.s3_batch100 eq_refl)
      as (_ & _ & _ & Hdrop & _).
    destruct Hdrop as (Hr & Hm & Hids).
    + reflexivity.
    + reflexivity.
    + apply (bool_decide_unpack _). vm_compute. exact I.
    + split; [exact Hr|]. split; [exact Hm|].
      etransitivity; [exact Hids|]. vm_compute. reflexivity.
  - destruct (Hstep SpecDecoder.decoder conf dropped.1 Scenario.s3_batch101 eq_refl)
      as (_ & _ & Hcontrol & _).
    destruct (Hcontrol eq_refl (mkControlRecord ControlRecordAbort) eq_refl)
      as (Hr & Hm & Hids).
    split; [exact Hr|]. split.
    + etransitivity; [exact Hm|]. vm_compute. reflexivity.
    + etransitivity; [exact Hids|]. vm_compute. reflexivity.
  - destruct (Hstep SpecDecoder.decoder conf skipped.1 Scenario.s3_batch102 eq_refl)
      as (_ & _ & _ & _ & Hemit).
    destruct Hemit as (Hr & Hm & _).
    + reflexivity.
    + intros [Ht _]. discriminate Ht.
    + split; [exact Hr|]. unfold emitted, step. rewrite Hm. vm_compute. reflexivity.
  - destruct (Hlist 100 Scenario.s3_aborted) as [_ Hsorted].
    apply Hsorted. repeat constructor.
Defined.

(** ** Growth of the fetch size *)

(** C3.  For a block with zero records that ends in a partial trailing
    batch: when [Fetch.Max] is positive and the fetch size equals it,
    [parseResponse] emits [ErrMessageTooLarge] and advances the offset by one,
    the fetch size staying as it is; otherwise the fetch size is doubled,
    set to [MaxInt32] when the [int32] product is negative and cut to
    [Fetch.Max], the offset and the errors staying as they are.  A fetch size
    between the default and a positive [Fetch.Max] stays there over any
    sequence of such responses.  In scenario S2 (fetch size and default 1024,
    maximum 8192) one response gives 2048, four give 8192, and a fifth leaves
    8192, emits [ErrMessageTooLarge] and advances the offset by one; the
    trace of the five responses is 2048, 4096, 8192, 8192, 8192, the fourth
    response being the first that meets the limit. *)
Theorem fetch_size_growth :
  (∀ (D : Decoder) (conf : Config) (child : partitionConsumer) (response : FetchResponse),
     partial_trailing child response →
     let r := parseResponse conf child response in
     r.2 = ([], None)
     ∧ (0 < Consumer_Fetch_Max conf ∧ fetchSize child = Consumer_Fetch_Max conf →
        surfaced conf r.1 = surfaced conf child ++ [consumerError child ErrMessageTooLarge]
        ∧ offset r.1 = add64 (offset child) 1
        ∧ (MinInt64 ≤ offset child < MaxInt64 → offset r.1 = offset child + 1)
        ∧ fetchSize r.1 = fetchSize child)
     ∧ (¬ (0 < Consumer_Fetch_Max conf ∧ fetchSize child = Consumer_Fetch_Max conf) →
        fetchSize r.1 = doubled (Consumer_Fetch_Max conf) (fetchSize child)
        ∧ offset r.1 = offset child
        ∧ surfaced conf r.1 = surfaced conf child))
  ∧ (∀ fetchMax size : Z,
       0 ≤ size ≤ MaxInt32 → 0 < fetchMax →
       doubled fetchMax size = Z.min (Z.min (2 * size) MaxInt32) fetchMax)
  ∧ (∀ (D : Decoder) (conf : Config) (child : partitionConsumer)
       (responses : list FetchResponse),
       0 < Consumer_Fetch_Max conf ≤ MaxInt32 →
       MinInt32 ≤ Consumer_Fetch_Default conf →
       Consumer_Fetch_Default conf ≤ fetchSize child ≤ Consumer_Fetch_Max conf →
       Forall (partial_trailing child) responses →
       Consumer_Fetch_Default conf ≤ fetchSize (parseAll conf child responses)
         ≤ Consumer_Fetch_Max conf)
  ∧ (let conf := Scenario.conf ReadUncommitted 1024 8192 in
     let after n :=
       @parseAll SpecDecoder.decoder conf (Scenario.subscription 42 1024) (s2_responses n) in
     let fifth :=
       @parseResponse SpecDecoder.decoder conf (after 4%nat)
         (Scenario.response Scenario.partial_block) in
     fetchSize (after 1%nat) = 2048
     ∧ fetchSize (after 4%nat) = 8192
     ∧ fetchSize fifth.1 = 8192
     ∧ offset fifth.1 = offset (after 4%nat) + 1
     ∧ map ce_Err (errors fifth.1) = map ce_Err (errors (after 4%nat)) ++ [ErrMessageTooLarge]
     ∧ map (λ n, (fetchSize (after n), offset (after n), map ce_Err (errors (after n))))
         [1; 2; 3; 4; 5]%nat
       = [(2048, 42, []); (4096, 42, []); (8192, 42, []);
          (8192, 43, [ErrMessageTooLarge]);
          (8192, 44, [ErrMessageTooLarge; ErrMessageTooLarge])]).
Proof.
  split; [|split; [|split]].
  - intros D conf child response Hpt.
    destruct (partial_trailing_step conf child response Hpt)
      as (Hret & _ & _ & Hat & Hgrow).
    cbv zeta. split; [done|]. split.
    + intros Hlim. destruct (Hat Hlim) as (Hs & Ho & Hf).
      repeat split; try done.
      intros [Hlo Hhi]. rewrite Ho. by apply add64_succ.
    + intros Hnot. destruct (Hgrow Hnot) as (Hf & Ho & He & Hl).
      repeat split; try done.
      unfold surfaced. by rewrite He, Hl.
  - intros fetchMax size. apply doubled_nonneg.
  - intros D conf child responses. apply parseAll_in_range.
  - vm_compute. done.
Qed.

Lemma fetch_size_growth_witness :
  let conf := Scenario.conf ReadUncommitted 1024 8192 in
  let child := Scenario.subscription 42 1024 in
  let response := Scenario.response Scenario.partial_block in
  let grown := @parseResponse SpecDecoder.decoder conf child response in
  let skipped :=
    @parseResponse SpecDecoder.decoder conf (Scenario.subscription 42 8192) response in
  fetchSize grown.1 = 2048
  ∧ (offset skipped.1 = 43 ∧ fetchSize skipped.1 = 8192
     ∧ map ce_Err (surfaced conf skipped.1) = [ErrMessageTooLarge])
  ∧ doubled 8192 1024 = Z.min (Z.min (2 * 1024) MaxInt32) 8192
  ∧ 1024 ≤ fetchSize (@parseAll SpecDecoder.decoder conf child (s2_responses 5)) ≤ 8192.
Proof.
  intros conf child response grown skipped.
  destruct fetch_size_growth as (Hstep & Hdoubled & Hrange & _).
  split; [|split; [|split]].
  - destruct (Hstep SpecDecoder.decoder conf child response
                (scenario_partial_trailing 42 1024)) as (_ & _ & Hgrow).
    destruct Hgrow as (Hf & _).
    + vm_compute. intros [_ Heq]. discriminate Heq.
    + etransitivity; [exact Hf|]. vm_compute. reflexivity.
  - destruct (Hstep SpecDecoder.decoder conf (Scenario.subscription 42 8192) response
                (scenario_partial_trailing 42 8192)) as (_ & Hlimit & _).
    destruct Hlimit as (Hs & _ & Ho & Hf).
    + split; vm_compute; reflexivity.
    + split; [|split].
      * etransitivity; [apply Ho|]; [|reflexivity].
        split; [vm_compute; discriminate | vm_compute; reflexivity].
      * exact Hf.
      * unfold skipped. rewrite Hs. vm_compute. reflexivity.
  - apply Hdoubled; [|reflexivity]. split; vm_compute; discriminate.
  - apply (Hrange SpecDecoder.decoder conf child (s2_responses 5)).
    + vm_compute. split; [reflexivity | discriminate].
    + vm_compute. discriminate.
    + vm_compute. split; discriminate.
    + repeat constructor; apply scenario_partial_trailing.
Defined.

(** ** Monotonicity of the offset *)

(** C4, as the code has it.  The offset of a subscription does not decrease
    over a response, nor over any sequence of responses, provided that no
    increment leaves [int64] and that, whenever a block without records and
    without a partial trailing batch reports a next offset at most its high
    water mark, that next offset is not behind the subscription: the
    zero-records path stores it as it comes.  The advance of [parseRecords]
    and of [parseMessages] is strict. *)
Theorem offset_never_decreases :
  (∀ (D : Decoder) (conf : Config) (child : partitionConsumer) (response : FetchResponse),
     steady child response →
     offset child ≤ offset (parseResponse conf child response).1)
  ∧ (∀ (D : Decoder) (conf : Config) (child : partitionConsumer)
       (responses : list FetchResponse) (n m : nat),
       steady_run conf child responses → (n ≤ m)%nat →
       offset (parseAll conf child (take n responses))
       ≤ offset (parseAll conf child (take m responses)))
  ∧ (∀ (child : partitionConsumer) (batch : RecordBatch),
       MinInt64 ≤ offset child → offset child < MaxInt64 →
       Forall (λ o, o < MaxInt64) (batch_offsets batch) →
       offset child < offset (parseRecords child batch).1)
  ∧ (∀ (D : Decoder) (child : partitionConsumer) (msgSet : MessageSet),
       MinInt64 ≤ offset child → offset child < MaxInt64 →
       Forall (λ o, MinInt64 ≤ o ∧ o < MaxInt64) (messageSet_offsets msgSet) →
       offset child < offset (parseMessages child msgSet).1).
Proof.
  split; [|split; [|split]].
  - intros D conf child response. apply parseResponse_monotone.
  - intros D conf child responses n m Hrun Hnm.
    replace m with (n + (m - n))%nat by lia.
    rewrite <- take_take_drop. unfold parseAll at 2. rewrite foldl_app.
    fold (parseAll conf child (take n responses)).
    apply (parseAll_monotone conf (take (m - n) (drop n responses))).
    apply steady_run_take. by apply steady_run_drop.
  - intros child batch Hlo Hhi Hall.
    by destruct (parseRecords_past child batch Hlo Hhi Hall) as (Hup & _).
  - intros D child msgSet. apply parseMessages_past.
Qed.

(** The claim of C4 as the specification words it fails on the zero-records
    path: a subscription at offset 50 that receives a block without records
    whose next offset is 10, below the high water mark 100, ends at offset
    10.  It fails as well when an increment leaves [int64]: at offset
    [MaxInt64] the skip of an oversized message wraps to [MinInt64]. *)
Lemma next_offset_moves_back :
  (let child := Scenario.subscription 50 1024 in
   let r := @parseResponse SpecDecoder.decoder
              (Scenario.conf ReadUncommitted 1024 8192) child
              (Scenario.response compacted_block) in
   r.2 = ([], None) ∧ offset r.1 = 10 ∧ offset r.1 < offset child)
  ∧ (let child := Scenario.subscription MaxInt64 8192 in
     let r := @parseResponse SpecDecoder.decoder
                (Scenario.conf ReadUncommitted 1024 8192) child
                (Scenario.response Scenario.partial_block) in
     r.2 = ([], None) ∧ offset r.1 = MinInt64 ∧ offset r.1 < offset child).
Proof. vm_compute. repeat split; reflexivity. Qed.

Lemma offset_never_decreases_witness :
  let conf := Scenario.conf ReadUncommitted 1024 8192 in
  let child := Scenario.subscription 42 1024 in
  let responses :=
    [Scenario.response (Scenario.block [] [defaultRecords Scenario.s1_batch]);
     Scenario.response Scenario.partial_block] in
  @steady_run SpecDecoder.decoder conf child responses
  ∧ offset child ≤ offset (@parseResponse SpecDecoder.decoder conf child
                             (Scenario.response Scenario.partial_block)).1
  ∧ offset child ≤ offset (@parseAll SpecDecoder.decoder conf child responses)
  ∧ offset child < offset (parseRecords child Scenario.s1_batch).1
  ∧ offset child < offset (@parseMessages SpecDecoder.decoder child s1_messageSet).1.
Proof.
  intros conf child responses.
  assert (@steady SpecDecoder.decoder child (Scenario.response Scenario.partial_block))
    as Hpartial.
  { split.
    - split; [vm_compute; discriminate|]. split; [vm_compute; reflexivity|]. constructor.
    - intros _ Hp. vm_compute in Hp. discriminate Hp. }
  assert (@steady_run SpecDecoder.decoder conf child responses) as Hrun.
  { split; [|split; [|exact I]].
    - split.
      + split; [vm_compute; discriminate|]. split; [vm_compute; reflexivity|].
        repeat constructor; vm_compute; discriminate.
      + intros Hn. vm_compute in Hn. discriminate Hn.
    - split.
      + split; [vm_compute; discriminate|]. split; [vm_compute; reflexivity|].
        constructor.
      + intros _ Hp. vm_compute in Hp. discriminate Hp. }
  destruct offset_never_decreases as (Hstep & Hseq & Hrecords & Hlegacy).
  split; [exact Hrun|]. split; [|split; [|split]].
  - exact (Hstep SpecDecoder.decoder conf child _ Hpartial).
  - apply (Hseq SpecDecoder.decoder conf child responses 0%nat 2%nat Hrun). lia.
  - apply Hrecords; [vm_compute; discriminate | vm_compute; reflexivity |].
    repeat constructor.
  - apply (Hlegacy SpecDecoder.decoder); [vm_compute; discriminate | vm_compute; reflexivity |].
    repeat constructor; vm_compute; discriminate.
Defined.

(** ** Classification of outcomes *)

(** C5.  For a subscription of the broker consumer whose recorded outcome
    is [ErrOffsetOutOfRange], [handleResponses] surfaces the error to the
    user, closes the subscription's trigger without sending on it and removes
    the subscription from the broker's set.  For each of
    [ErrUnknownTopicOrPartition], [ErrNotLeaderForPartition],
    [ErrLeaderNotAvailable], [ErrReplicaNotAvailable], [ErrFencedLeaderEpoch]
    and [ErrUnknownLeaderEpoch] it removes the subscription from the set and
    sends once on its trigger, and the user sees no error. *)
Theorem handleResponses_classification :
  ∀ (conf : Config) (client : Client) (store : gmap nat partitionConsumer)
    (bc : brokerConsumer) (p : nat) (child : partitionConsumer),
    p ∈ subscriptions bc → store !! p = Some child →
    let r := handleResponses conf client store bc in
    (responseResult child = Some ErrOffsetOutOfRange →
     (p ∉ subscriptions r.2)
     ∧ ∃ child', r.1 !! p = Some child'
         ∧ surfaced conf child'
           = surfaced conf child ++ [consumerError child ErrOffsetOutOfRange]
         ∧ chan_closed (trigger child') = true
         ∧ chan_sent (trigger child') = chan_sent (trigger child)
         ∧ responseResult child' = None
         ∧ offset child' = offset child)
    ∧ (∀ err, err ∈ silent_retriable → responseResult child = Some err →
       (p ∉ subscriptions r.2)
       ∧ ∃ child', r.1 !! p = Some child'
           ∧ chan_sent (trigger child') = S (chan_sent (trigger child))
           ∧ chan_closed (trigger child') = chan_closed (trigger child)
           ∧ errors child' = errors child ∧ logged child' = logged child
           ∧ responseResult child' = None
           ∧ offset child' = offset child).
Proof.
  intros conf client store bc p child Hp Hchild. cbv zeta.
  destruct (handleResponses_child conf client store bc p child Hp Hchild) as [Hl Hs].
  split.
  - intros Hres. unfold handleResponse in Hl, Hs. rewrite Hres in Hl, Hs.
    simpl in Hl, Hs. split; [rewrite Hs; done|].
    eexists. split; [exact Hl|].
    unfold sendError, surfaced, consumerError.
    destruct (Consumer_Return_Errors conf); done.
  - intros err Herr Hres. unfold handleResponse in Hl, Hs. rewrite Hres in Hl, Hs.
    unfold silent_retriable in Herr.
    repeat (apply elem_of_cons in Herr as [->|Herr]);
      try (by apply elem_of_nil in Herr);
      simpl in Hl, Hs; (split; [rewrite Hs; done|]);
      (eexists; split; [exact Hl|]); done.
Qed.

Lemma handleResponses_classification_witness :
  let conf := Scenario.conf ReadUncommitted 1024 8192 in
  let store : gmap nat partitionConsumer :=
    {[ 0%nat := answered_with ErrOffsetOutOfRange;
       1%nat := answered_with ErrNotLeaderForPartition ]} in
  let bc := mkBrokerConsumer 1 {[ 0%nat; 1%nat ]} in
  let r := handleResponses conf leader_one store bc in
  (0%nat ∉ subscriptions r.2) ∧ (1%nat ∉ subscriptions r.2).
Proof.
  intros conf store bc r. split.
  - assert (0%nat ∈ subscriptions bc) as Hin by (apply (bool_decide_unpack _); vm_compute; exact I).
    destruct (handleResponses_classification conf leader_one store bc 0%nat
                (answered_with ErrOffsetOutOfRange) Hin eq_refl) as [Hfatal _].
    destruct (Hfatal eq_refl) as [Hout _]. exact Hout.
  - assert (1%nat ∈ subscriptions bc) as Hin by (apply (bool_decide_unpack _); vm_compute; exact I).
    destruct (handleResponses_classification conf leader_one store bc 1%nat
                (answered_with ErrNotLeaderForPartition) Hin eq_refl) as [_ Hretry].
    destruct (Hretry ErrNotLeaderForPartition) as [Hout _].
    + apply (bool_decide_unpack _). vm_compute. exact I.
    + reflexivity.
    + exact Hout.
Defined.

(** ** Containers that deliver nothing *)

(** C6, as the code has it.  When no record of a batch (of a legacy message
    set) is at or above the subscription's offset, [parseRecords]
    ([parseMessages]) returns no message and advances the offset by exactly
    one; and whenever either returns no message it has advanced the offset by
    exactly one.  A batch whose records are dropped after that call, as
    control or aborted, is not covered: it advances as [parseRecords] left
    it. *)
Theorem empty_parse_advances :
  (∀ (child : partitionConsumer) (batch : RecordBatch),
     Forall (λ o, o < offset child) (batch_offsets batch) →
     parseRecords child batch = (set_offset (add64 (offset child) 1) child, []))
  ∧ (∀ (D : Decoder) (child : partitionConsumer) (msgSet : MessageSet),
       Forall (λ msgBlock, Forall (λ o, o < offset child) (messageBlock_offsets msgBlock))
         (set_Messages msgSet) →
       parseMessages child msgSet = (set_offset (add64 (offset child) 1) child, []))
  ∧ (∀ (child : partitionConsumer) (batch : RecordBatch),
       (parseRecords child batch).2 = [] →
       offset (parseRecords child batch).1 = add64 (offset child) 1)
  ∧ (∀ (D : Decoder) (child : partitionConsumer) (msgSet : MessageSet),
       (parseMessages child msgSet).2 = [] →
       offset (parseMessages child msgSet).1 = add64 (offset child) 1)
  ∧ (∀ child : partitionConsumer,
       MinInt64 ≤ offset child → offset child < MaxInt64 →
       add64 (offset child) 1 = offset child + 1).
Proof.
  split; [|split; [|split; [|split]]].
  - apply parseRecords_below.
  - intros D child msgSet Hall.
    rewrite parseMessages_finish, (parseMessages_loop_below _ (child, [])) by done.
    done.
  - intros child batch. rewrite parseRecords_finish. apply finish_empty.
    apply parseRecords_loop_cursor.
  - intros D child msgSet. rewrite parseMessages_finish. apply finish_empty.
    apply parseMessages_loop_cursor. by left.
  - intros child. apply add64_succ.
Qed.

Lemma empty_parse_advances_witness :
  let child := Scenario.subscription 42 1024 in
  let batch := Scenario.batch 10 (-1) false false [Scenario.record_at 0; Scenario.record_at 1] in
  let msgSet := mkMessageSet [legacy_at 10; legacy_at 11] in
  Forall (λ o, o < offset child) (batch_offsets batch)
  ∧ parseRecords child batch = (set_offset 43 child, [])
  ∧ @parseMessages SpecDecoder.decoder child msgSet = (set_offset 43 child, [])
  ∧ offset (parseRecords child batch).1 = 43
  ∧ offset (@parseMessages SpecDecoder.decoder child msgSet).1 = 43
  ∧ add64 (offset child) 1 = 43.
Proof.
  intros child batch msgSet.
  assert (Forall (λ o, o < offset child) (batch_offsets batch)) as Hall.
  { repeat constructor. }
  destruct empty_parse_advances as (Hbelow & Hlegacy & Hempty & Hempty' & Hsucc).
  split; [exact Hall|]. split; [|split; [|split; [|split]]].
  - exact (Hbelow child batch Hall).
  - apply (Hlegacy SpecDecoder.decoder child msgSet). repeat constructor.
  - etransitivity; [apply (Hempty child batch)|]; reflexivity.
  - etransitivity; [apply (Hempty' SpecDecoder.decoder child msgSet)|]; reflexivity.
  - etransitivity; [apply (Hsucc child)|]; [vm_compute; discriminate | | ]; reflexivity.
Defined.

(** The claim of C6 as the specification words it fails on a batch that is
    dropped as aborted: under [ReadCommitted], a subscription at offset 100
    that receives the aborted transactional batch with records 100 and 101
    delivers nothing and ends at offset 102, two past where it was.  It
    fails as well on a block of two batches below the offset: nothing is
    delivered and the offset moves from 42 to 44. *)
Lemma dropped_batch_advances_past :
  (let child := Scenario.subscription 100 1024 in
   let r := @parseResponse SpecDecoder.decoder
              (Scenario.conf ReadCommitted 1024 8192) child
              (Scenario.response
                 (Scenario.block Scenario.s3_aborted [defaultRecords aborted_pair])) in
   r.2 = ([], None) ∧ offset r.1 = 102 ∧ offset r.1 ≠ offset child + 1)
  ∧ (let child := Scenario.subscription 42 1024 in
     let r := @parseResponse SpecDecoder.decoder
                (Scenario.conf ReadUncommitted 1024 8192) child
                (Scenario.response (Scenario.block [] stale_batches)) in
     r.2 = ([], None) ∧ offset r.1 = 44 ∧ offset r.1 ≠ offset child + 1).
Proof. vm_compute. repeat split; discriminate. Qed.

(** ** Version negotiation *)

(** C7.  For every configured broker version the request that
    [fetchNewMessages] builds carries the Fetch version the table gives for
    the greatest threshold the version meets (and version 0 when it meets
    none); [MaxBytes] is set from 0.10.1, the isolation level from 0.11 and
    the rack identifier from 2.3; and whenever the version chosen is at least
    7 the session identifier is 0 and the session epoch is -1.  This is the
    request passed to the broker whenever a block was added. *)
Theorem fetch_version_negotiation :
  ∀ (MaxResponseSize : Z) (Fetch : FetchRequest → result FetchResponse)
    (conf : Config) (store : gmap nat partitionConsumer) (bc : brokerConsumer),
    let v := Version conf in
    let request := fetchRequest MaxResponseSize conf store bc in
    (∀ row, greatest_satisfied v row → req_Version request = row.2)
    ∧ ((∀ row, row ∈ fetchVersionTable → IsAtLeast v row.1 = false) →
       req_Version request = 0)
    ∧ req_MaxBytes request = (if IsAtLeast v V0_10_1_0 then MaxResponseSize else 0)
    ∧ req_Isolation request
      = (if IsAtLeast v V0_11_0_0 then Consumer_IsolationLevel conf else ReadUncommitted)
    ∧ req_RackID request = (if IsAtLeast v V2_3_0_0 then RackID conf else "")
    ∧ (7 ≤ req_Version request ↔ IsAtLeast v V1_1_0_0 = true)
    ∧ (7 ≤ req_Version request → req_SessionID request = 0 ∧ req_SessionEpoch request = -1)
    ∧ (req_blocks request ≠ [] →
       fetchNewMessages MaxResponseSize Fetch conf store bc
       = match Fetch request with
         | Ok response => Ok (Some response)
         | Fail err => Fail err
         end).
Proof.
  intros MaxResponseSize Fetch conf store bc. cbv zeta.
  destruct (fetchRequest_fields MaxResponseSize conf store bc)
    as (Hv & Hm & Hi & Hid & Hep & Hr).
  destruct (versionedRequest_cases MaxResponseSize conf)
    as (Hv' & Hm' & Hi' & Hid' & Hep' & Hr').
  rewrite Hv, Hm, Hi, Hid, Hep, Hr, Hv', Hm', Hi', Hid', Hep', Hr'.
  assert (∀ a b, IsAtLeast b a = true →
                 IsAtLeast (Version conf) b = true → IsAtLeast (Version conf) a = true)
    as Hmono by (intros a b Hba Hvb; by apply (IsAtLeast_trans _ b)).
  pose proof (Hmono V0_9_0_0 V0_10_0_0 eq_refl) as H1.
  pose proof (Hmono V0_10_0_0 V0_10_1_0 eq_refl) as H2.
  pose proof (Hmono V0_10_1_0 V0_11_0_0 eq_refl) as H3.
  pose proof (Hmono V0_11_0_0 V1_0_0_0 eq_refl) as H4.
  pose proof (Hmono V1_0_0_0 V1_1_0_0 eq_refl) as H5.
  pose proof (Hmono V1_1_0_0 V2_0_0_0 eq_refl) as H6.
  pose proof (Hmono V2_0_0_0 V2_1_0_0 eq_refl) as H7.
  pose proof (Hmono V2_1_0_0 V2_3_0_0 eq_refl) as H8.
  clear Hmono.
  split; [|split; [|split; [|split; [|split; [|split; [|split]]]]]]; try done.
  - intros row (Hrow & Hsat & Hmax). unfold fetchVersionTable in *.
    assert (∀ t n, (t, n) ∈ [(V0_9_0_0, 1); (V0_10_0_0, 2); (V0_10_1_0, 3);
                             (V0_11_0_0, 5); (V1_0_0_0, 6); (V1_1_0_0, 7);
                             (V2_0_0_0, 8); (V2_1_0_0, 10); (V2_3_0_0, 11)] →
                   IsAtLeast (Version conf) t = true → IsAtLeast row.1 t = true)
      as Hmax' by (intros t n Hin Ht; exact (Hmax (t, n) Hin Ht)).
    clear Hmax.
    pose proof (Hmax' V0_9_0_0 1 ltac:(set_unfold; tauto)) as M1.
    pose proof (Hmax' V0_10_0_0 2 ltac:(set_unfold; tauto)) as M2.
    pose proof (Hmax' V0_10_1_0 3 ltac:(set_unfold; tauto)) as M3.
    pose proof (Hmax' V0_11_0_0 5 ltac:(set_unfold; tauto)) as M4.
    pose proof (Hmax' V1_0_0_0 6 ltac:(set_unfold; tauto)) as M5.
    pose proof (Hmax' V1_1_0_0 7 ltac:(set_unfold; tauto)) as M6.
    pose proof (Hmax' V2_0_0_0 8 ltac:(set_unfold; tauto)) as M7.
    pose proof (Hmax' V2_1_0_0 10 ltac:(set_unfold; tauto)) as M8.
    pose proof (Hmax' V2_3_0_0 11 ltac:(set_unfold; tauto)) as M9.
    clear Hmax'.
    repeat (apply elem_of_cons in Hrow as [->|Hrow]);
      try (by apply elem_of_nil in Hrow);
      simpl in *;
      destruct (IsAtLeast (Version conf) V2_3_0_0);
      destruct (IsAtLeast (Version conf) V2_1_0_0);
      destruct (IsAtLeast (Version conf) V2_0_0_0);
      destruct (IsAtLeast (Version conf) V1_1_0_0);
      destruct (IsAtLeast (Version conf) V1_0_0_0);
      destruct (IsAtLeast (Version conf) V0_11_0_0);
      destruct (IsAtLeast (Version conf) V0_10_1_0);
      destruct (IsAtLeast (Version conf) V0_10_0_0);
      destruct (IsAtLeast (Version conf) V0_9_0_0);
      try reflexivity; try discriminate;
      try (discriminate (H1 eq_refl)); try (discriminate (H2 eq_refl));
      try (discriminate (H3 eq_refl)); try (discriminate (H4 eq_refl));
      try (discriminate (H5 eq_refl)); try (discriminate (H6 eq_refl));
      try (discriminate (H7 eq_refl)); try (discriminate (H8 eq_refl));
      try (discriminate (M1 eq_refl)); try (discriminate (M2 eq_refl));
      try (discriminate (M3 eq_refl)); try (discriminate (M4 eq_refl));
      try (discriminate (M5 eq_refl)); try (discriminate (M6 eq_refl));
      try (discriminate (M7 eq_refl)); try (discriminate (M8 eq_refl));
      try (discriminate (M9 eq_refl)).
  - intros Hnone. unfold fetchVersionTable in Hnone.
    assert (∀ t n, (t, n) ∈ [(V0_9_0_0, 1); (V0_10_0_0, 2); (V0_10_1_0, 3);
                             (V0_11_0_0, 5); (V1_0_0_0, 6); (V1_1_0_0, 7);
                             (V2_0_0_0, 8); (V2_1_0_0, 10); (V2_3_0_0, 11)] →
                   IsAtLeast (Version conf) t = false)
      as Hnone' by (intros t n Hin; exact (Hnone (t, n) Hin)).
    rewrite (Hnone' V0_9_0_0 1), (Hnone' V0_10_0_0 2), (Hnone' V0_10_1_0 3),
      (Hnone' V0_11_0_0 5), (Hnone' V1_0_0_0 6), (Hnone' V1_1_0_0 7),
      (Hnone' V2_0_0_0 8), (Hnone' V2_1_0_0 10), (Hnone' V2_3_0_0 11);
      first [reflexivity | set_unfold; tauto].
  - destruct (IsAtLeast (Version conf) V1_1_0_0) eqn:E11.
    + destruct (IsAtLeast (Version conf) V2_3_0_0);
        destruct (IsAtLeast (Version conf) V2_1_0_0);
        destruct (IsAtLeast (Version conf) V2_0_0_0); split; intros; try done; try lia.
    + destruct (IsAtLeast (Version conf) V2_3_0_0);
        destruct (IsAtLeast (Version conf) V2_1_0_0);
        destruct (IsAtLeast (Version conf) V2_0_0_0);
        try (discriminate (H6 eq_refl)); try (discriminate (H7 eq_refl));
        try (discriminate (H8 eq_refl)).
      repeat case_match; split; intros; try done; try lia.
  - destruct (IsAtLeast (Version conf) V1_1_0_0) eqn:E11; [done|].
    destruct (IsAtLeast (Version conf) V2_3_0_0);
      destruct (IsAtLeast (Version conf) V2_1_0_0);
      destruct (IsAtLeast (Version conf) V2_0_0_0);
      try (discriminate (H6 eq_refl)); try (discriminate (H7 eq_refl));
      try (discriminate (H8 eq_refl)).
    repeat case_match; lia.
  - intros Hblocks. unfold fetchNewMessages.
    destruct (req_blocks (fetchRequest MaxResponseSize conf store bc)); done.
Qed.

Lemma fetch_version_negotiation_witness :
  let conf v := mkConfig 1 1024 8192 250000000 ReadCommitted true "rack-a" v in
  let store : gmap nat partitionConsumer := {[ 0%nat := Scenario.subscription 42 1024 ]} in
  let bc := mkBrokerConsumer 1 {[ 0%nat ]} in
  let broker : FetchRequest → result FetchResponse := λ _, Fail ErrLeaderNotAvailable in
  greatest_satisfied (mkKafkaVersion 1 0 2 0) (V1_0_0_0, 6)
  ∧ req_Version (fetchRequest 104857600 (conf (mkKafkaVersion 1 0 2 0)) store bc) = 6
  ∧ req_Version (fetchRequest 104857600 (conf (mkKafkaVersion 0 8 2 2)) store bc) = 0
  ∧ req_SessionEpoch (fetchRequest 104857600 (conf (mkKafkaVersion 2 8 0 0)) store bc) = -1
  ∧ fetchNewMessages 104857600 broker (conf (mkKafkaVersion 2 8 0 0)) store bc
    = Fail ErrLeaderNotAvailable.
Proof.
  intros conf store bc broker.
  assert (greatest_satisfied (mkKafkaVersion 1 0 2 0) (V1_0_0_0, 6)) as Hrow.
  { split; [|split].
    - unfold fetchVersionTable. set_unfold. tauto.
    - reflexivity.
    - intros row' Hin Hsat. unfold fetchVersionTable in Hin.
      repeat (apply elem_of_cons in Hin as [->|Hin]);
        try (by apply elem_of_nil in Hin);
        first [reflexivity | discriminate Hsat]. }
  split; [exact Hrow|]. split; [|split; [|split]].
  - destruct (fetch_version_negotiation 104857600 broker (conf (mkKafkaVersion 1 0 2 0))
                store bc) as (Hversion & _).
    exact (Hversion (V1_0_0_0, 6) Hrow).
  - destruct (fetch_version_negotiation 104857600 broker (conf (mkKafkaVersion 0 8 2 2))
                store bc) as (_ & Hnone & _).
    apply Hnone. intros row Hin. unfold fetchVersionTable in Hin.
    repeat (apply elem_of_cons in Hin as [->|Hin]);
      try (by apply elem_of_nil in Hin); reflexivity.
  - destruct (fetch_version_negotiation 104857600 broker (conf (mkKafkaVersion 2 8 0 0))
                store bc) as (_ & _ & _ & _ & _ & _ & Hsession & _).
    apply Hsession. vm_compute. discriminate.
  - destruct (fetch_version_negotiation 104857600 broker (conf (mkKafkaVersion 2 8 0 0))
                store bc) as (_ & _ & _ & _ & _ & _ & _ & Hcall).
    etransitivity; [apply Hcall|]; [|reflexivity].
    vm_compute. discriminate.
Defined.

(** ** Responses without a block for the subscription *)

(** C8.  A response that is not a throttled empty response and holds no
    block for the subscription's topic and partition makes [parseResponse]
    return [ErrIncompleteResponse] with no message and the consumer
    unchanged, so that its offset, fetch size, high water mark and preferred
    read replica are what they were. *)
Theorem incomplete_response :
  ∀ (D : Decoder) (conf : Config) (child : partitionConsumer) (response : FetchResponse),
    answered response →
    GetBlock response (topic child) (partition child) = None →
    parseResponse conf child response = (child, ([], Some ErrIncompleteResponse))
    ∧ offset (parseResponse conf child response).1 = offset child
    ∧ fetchSize (parseResponse conf child response).1 = fetchSize child
    ∧ highWaterMarkOffset (parseResponse conf child response).1 = highWaterMarkOffset child
    ∧ preferredReadReplica (parseResponse conf child response).1 = preferredReadReplica child.
Proof.
  intros D conf child response Hans Hnone.
  assert (parseResponse conf child response = (child, ([], Some ErrIncompleteResponse)))
    as Heq.
  { unfold parseResponse. rewrite answered_not_throttled by done. by rewrite Hnone. }
  rewrite Heq. done.
Qed.

Lemma incomplete_response_witness :
  let child :=
    mkPartitionConsumer 7 0 invalidPreferredReplicaID (mkSignalChan 0 false)
      "events" 1 None 1024 42 0 0 [] [] in
  @parseResponse SpecDecoder.decoder (Scenario.conf ReadUncommitted 1024 8192) child
    (Scenario.response Scenario.partial_block)
  = (child, ([], Some ErrIncompleteResponse)).
Proof.
  intros child.
  apply (incomplete_response SpecDecoder.decoder (Scenario.conf ReadUncommitted 1024 8192)
           child (Scenario.response Scenario.partial_block)).
  - left. reflexivity.
  - vm_compute. reflexivity.
Defined.

(** ** Growth of the fetch size without a maximum *)

(** C9.  When [Fetch.Max] is zero or negative, a response without records
    that ends in a partial trailing batch emits no error and changes
    neither the offset nor anything but the fetch size, which becomes its
    [int32] double, replaced by [MaxInt32] exactly when that double is
    negative; for a fetch size that is not negative this is exactly when
    twice the size exceeds [MaxInt32].  Once at [MaxInt32] the fetch size
    stays there. *)
Theorem unbounded_fetch_growth :
  (∀ (D : Decoder) (conf : Config) (child : partitionConsumer) (response : FetchResponse),
     Consumer_Fetch_Max conf ≤ 0 →
     is_int32 (fetchSize child) →
     partial_trailing child response →
     let r := parseResponse conf child response in
     let product := mul32 (fetchSize child) 2 in
     r.2 = ([], None)
     ∧ errors r.1 = errors child ∧ logged r.1 = logged child
     ∧ offset r.1 = offset child
     ∧ fetchSize r.1 = (if product <? 0 then MaxInt32 else product)
     ∧ (fetchSize r.1 = MaxInt32 ↔ product < 0)
     ∧ (0 ≤ fetchSize child →
        (product < 0 ↔ MaxInt32 < 2 * fetchSize child)
        ∧ (2 * fetchSize child ≤ MaxInt32 → fetchSize r.1 = 2 * fetchSize child)))
  ∧ (∀ (D : Decoder) (conf : Config) (child : partitionConsumer)
       (responses : list FetchResponse),
       Consumer_Fetch_Max conf ≤ 0 →
       fetchSize child = MaxInt32 →
       Forall (partial_trailing child) responses →
       fetchSize (parseAll conf child responses) = MaxInt32).
Proof.
  split.
  - intros D conf child response Hmax Hint Hpt.
    destruct (partial_trailing_step conf child response Hpt)
      as (Hret & _ & _ & _ & Hgrow).
    destruct Hgrow as (Hf & Ho & He & Hl); [lia|].
    cbv zeta. rewrite Hf, doubled_no_max by done.
    repeat (split; [done|]).
    pose proof (mul32_double (fetchSize child) Hint) as Hd.
    unfold is_int32, MinInt32, MaxInt32 in *.
    split; [|split].
    + destruct (Z.ltb_spec (mul32 (fetchSize child) 2) 0); [done|].
      repeat case_decide; lia.
    + repeat case_decide; lia.
    + intros Hle. destruct (Z.ltb_spec (mul32 (fetchSize child) 2) 0);
        repeat case_decide; lia.
  - intros D conf child responses. apply parseAll_stays_max.
Qed.

Lemma unbounded_fetch_growth_witness :
  let conf := Scenario.conf ReadUncommitted 1024 0 in
  let response := Scenario.response Scenario.partial_block in
  fetchSize (@parseResponse SpecDecoder.decoder conf (Scenario.subscription 42 1073741824)
               response).1 = MaxInt32
  ∧ fetchSize (@parseResponse SpecDecoder.decoder conf (Scenario.subscription 42 1024)
                 response).1 = 2048
  ∧ fetchSize (@parseAll SpecDecoder.decoder conf (Scenario.subscription 42 MaxInt32)
                 (s2_responses 3)) = MaxInt32.
Proof.
  intros conf response. destruct unbounded_fetch_growth as (Hstep & Hstay).
  split; [|split].
  - destruct (Hstep SpecDecoder.decoder conf (Scenario.subscription 42 1073741824) response)
      as (_ & _ & _ & _ & _ & Hiff & _).
    + vm_compute. discriminate.
    + vm_compute. split; discriminate.
    + apply scenario_partial_trailing.
    + apply Hiff. vm_compute. reflexivity.
  - destruct (Hstep SpecDecoder.decoder conf (Scenario.subscription 42 1024) response)
      as (_ & _ & _ & _ & _ & _ & Hnonneg).
    + vm_compute. discriminate.
    + vm_compute. split; discriminate.
    + apply scenario_partial_trailing.
    + destruct Hnonneg as [_ Hdouble]; [vm_compute; discriminate|].
      etransitivity; [apply Hdouble|]; [vm_compute; discriminate | reflexivity].
  - apply (Hstay SpecDecoder.decoder conf (Scenario.subscription 42 MaxInt32) (s2_responses 3)).
    + vm_compute. discriminate.
    + reflexivity.
    + repeat constructor; apply scenario_partial_trailing.
Defined.

(** ** Withheld batches *)

(** C10.  When [parseResponse] skips a control batch, or under
    [ReadCommitted] drops a transactional batch of an aborted producer, it
    returns none of the batch's messages, yet the consumer is the one
    [parseRecords] left: its offset is one past the last message
    [parseRecords] built, or one past the previous offset when it built
    none.  With room in [int64] the new offset is above the previous one and
    above every record of the batch, so that the next fetch does not ask for
    the batch again; it is the offset of the last record at or above the
    previous offset plus one, and the previous offset plus one when the
    batch has no such record. *)
Theorem withheld_batch_advances :
  ∀ (D : Decoder) (conf : Config) (st : loopState) (batch : RecordBatch),
    withheld conf st batch →
    let child := ls_child st in
    let parsed := parseRecords child batch in
    let r := parseResponse_step conf st (defaultRecords batch) in
    r.2 = None
    ∧ ls_messages r.1 = ls_messages st
    ∧ ls_child r.1 = parsed.1
    ∧ offset (ls_child r.1)
      = match last parsed.2 with
        | Some m => add64 (Offset m) 1
        | None => add64 (offset child) 1
        end
    ∧ (MinInt64 ≤ offset child → offset child < MaxInt64 →
       Forall (λ o, o < MaxInt64) (batch_offsets batch) →
       offset child < offset (ls_child r.1)
       ∧ Forall (λ o, o < offset (ls_child r.1)) (batch_offsets batch)
       ∧ (∀ m, last parsed.2 = Some m →
               offset child ≤ Offset m ∧ offset (ls_child r.1) = Offset m + 1)
       ∧ (Forall (λ o, o < offset child) (batch_offsets batch) →
          offset (ls_child r.1) = offset child + 1)
       ∧ (¬ Forall (λ o, o < offset child) (batch_offsets batch) →
          ∃ m, last parsed.2 = Some m)).
Proof.
  intros D conf st batch Hw. cbv zeta.
  destruct (withheld_step conf st batch Hw) as (Hret & Hmsgs & Hchild).
  rewrite Hchild. split; [done|]. split; [done|]. split; [done|]. split.
  - pose proof (parseRecords_final (ls_child st) batch) as Hfin.
    by destruct (last (parseRecords (ls_child st) batch).2).
  - intros Hlo Hhi Hall. by apply parseRecords_past.
Qed.

Lemma withheld_batch_advances_witness :
  let conf := Scenario.conf ReadCommitted 1024 8192 in
  let st := mkLoopState (Scenario.subscription 100 1024) ∅ Scenario.s3_aborted [] in
  let r := @parseResponse_step SpecDecoder.decoder conf st (defaultRecords aborted_pair) in
  ls_messages r.1 = [] ∧ offset (ls_child r.1) = 102.
Proof.
  intros conf st.
  assert (@withheld SpecDecoder.decoder conf st aborted_pair) as Hw.
  { right. split; [reflexivity|]. split; [reflexivity|]. split; [reflexivity|].
    apply (bool_decide_unpack _). vm_compute. exact I. }
  destruct (withheld_batch_advances SpecDecoder.decoder conf st aborted_pair Hw)
    as (_ & Hmsgs & _ & _ & Hroom).
  split; [exact Hmsgs|].
  destruct Hroom as (_ & _ & Hlast & _).
  - vm_compute. discriminate.
  - vm_compute. reflexivity.
  - repeat constructor.
  - destruct (Hlast (recordMessage (Scenario.subscription 101 1024) aborted_pair
                       (Scenario.record_at 1) 101)) as [_ Heq].
    + vm_compute. reflexivity.
    + rewrite Heq. reflexivity.
Defined.

(** * Further properties of the code *)

(** ** What the parser leaves alone *)

Lemma up_to_offset_refl child : up_to_offset child child.
Proof. unfold up_to_offset. by destruct child. Qed.

Lemma up_to_offset_trans c1 c2 c3 :
  up_to_offset c1 c2 → up_to_offset c2 c3 → up_to_offset c1 c3.
Proof. unfold up_to_offset. intros H12 H23. rewrite H23 at 1. by rewrite H12. Qed.

Lemma up_to_offset_set o child : up_to_offset child (set_offset o child).
Proof. done. Qed.

Lemma offer_up_to_offset o m st : up_to_offset st.1 (offer o m st).1.
Proof.
  unfold offer. case_match; [apply up_to_offset_refl | apply up_to_offset_set].
Qed.

Lemma finish_up_to_offset st : up_to_offset st.1 (finish st).1.
Proof.
  unfold finish. case_match; [apply up_to_offset_set | apply up_to_offset_refl].
Qed.

Lemma parseRecords_up_to_offset child batch :
  up_to_offset child (parseRecords child batch).1.
Proof.
  rewrite parseRecords_finish.
  eapply up_to_offset_trans; [|apply finish_up_to_offset].
  unfold parseRecords_loop.
  apply (foldl_invariant (λ st, up_to_offset child st.1)); [apply up_to_offset_refl|].
  intros st rec _ Hst. rewrite parseRecords_step_offer.
  eapply up_to_offset_trans; [exact Hst | apply offer_up_to_offset].
Qed.

Section Frame.

Context `{Decoder}.

Lemma parseMessages_up_to_offset child msgSet :
  up_to_offset child (parseMessages child msgSet).1.
Proof.
  rewrite parseMessages_finish.
  eapply up_to_offset_trans; [|apply finish_up_to_offset].
  unfold parseMessages_loop.
  apply (foldl_invariant (λ st, up_to_offset child st.1)); [apply up_to_offset_refl|].
  intros st msgBlock _ Hst. unfold parseMessages_block.
  apply (foldl_invariant (λ st, up_to_offset child st.1)); [done|].
  intros st' msg _ Hst'. rewrite parseMessages_step_offer.
  eapply up_to_offset_trans; [exact Hst' | apply offer_up_to_offset].
Qed.

Lemma parseResponse_step_up_to_offset conf st records :
  up_to_offset (ls_child st) (ls_child (parseResponse_step conf st records).1).
Proof.
  destruct records as [msgSet|batch|tag].
  - pose proof (parseMessages_up_to_offset (ls_child st) msgSet) as Hu.
    unfold parseResponse_step.
    by destruct (parseMessages (ls_child st) msgSet).
  - pose proof (parseRecords_up_to_offset (ls_child st) batch) as Hu.
    rewrite parseResponse_step_default. cbv zeta.
    repeat case_match; exact Hu.
  - apply up_to_offset_refl.
Qed.

Lemma parseResponse_loop_up_to_offset conf recordsSet :
  ∀ st, up_to_offset (ls_child st) (ls_child (parseResponse_loop conf st recordsSet).1).
Proof.
  induction recordsSet as [|records rest IH]; intros st; simpl.
  - apply up_to_offset_refl.
  - pose proof (parseResponse_step_up_to_offset conf st records) as Hstep.
    destruct (parseResponse_step conf st records) as [st' [err|]]; [done|].
    eapply up_to_offset_trans; [exact Hstep | apply IH].
Qed.

(** The three shapes of the consumer after [parseResponse]. *)
Lemma parseResponse_shape conf child response :
  let child' := (parseResponse conf child response).1 in
  child' = child
  ∨ (∃ block, GetBlock response (topic child) (partition child) = Some block
       ∧ (child' = with_replica block child
          ∨ (∃ partialTrailingMessage,
               child' = parseResponse_noRecords conf (with_replica block child) block
                          partialTrailingMessage)
          ∨ up_to_offset
              (set_highWaterMarkOffset (HighWaterMarkOffset block)
                 (set_fetchSize (Consumer_Fetch_Default conf) (with_replica block child)))
              child')).
Proof.
  cbv zeta. unfold parseResponse.
  destruct (negb (ThrottleTime response =? 0) && (size (Blocks response) =? 0)%nat);
    [by left|].
  destruct (GetBlock response (topic child) (partition child)) as [block|]; [|by left].
  destruct (negb (errors_Is (Err block) ErrNoError)); [by left|].
  destruct (numRecords block) as [nRecs|err]; [|by left].
  fold (with_replica block child). right. exists block. split; [done|].
  destruct (nRecs =? 0).
  - destruct (isPartial block) as [p|err]; [|by left].
    right. left. by exists p.
  - right. right.
    set (st := mkLoopState _ _ _ _).
    pose proof (parseResponse_loop_up_to_offset conf (RecordsSet block) st) as Hu.
    by destruct (parseResponse_loop conf st (RecordsSet block)) as [st' [err|]].
Qed.

End Frame.

Section FrameFacts.

Context `{Decoder}.

Lemma with_replica_preferred block child :
  preferredReadReplica (with_replica block child)
  = (if PreferredReadReplica block =? invalidPreferredReplicaID
     then preferredReadReplica child else PreferredReadReplica block)
  ∧ leaderEpoch (with_replica block child) = leaderEpoch child
  ∧ trigger (with_replica block child) = trigger child
  ∧ paused (with_replica block child) = paused child
  ∧ retries (with_replica block child) = retries child
  ∧ responseResult (with_replica block child) = responseResult child.
Proof. unfold with_replica. by destruct (PreferredReadReplica block =? _). Qed.

Lemma reaches_parseResponse conf child response block nRecs :
  reaches child response block nRecs →
  parseResponse conf child response
  = if nRecs =? 0 then
      match isPartial block with
      | Fail err => (with_replica block child, ([], Some err))
      | Ok partialTrailingMessage =>
          (parseResponse_noRecords conf (with_replica block child) block
             partialTrailingMessage, ([], None))
      end
    else
      let st := mkLoopState
                  (set_highWaterMarkOffset (HighWaterMarkOffset block)
                     (set_fetchSize (Consumer_Fetch_Default conf)
                        (with_replica block child)))
                  ∅ (getAbortedTransactions block) [] in
      match parseResponse_loop conf st (RecordsSet block) with
      | (st', Some err) => (ls_child st', ([], Some err))
      | (st', None) => (ls_child st', (ls_messages st', None))
      end.
Proof.
  intros (Hans & Hblock & Herr & Hn). unfold parseResponse.
  rewrite answered_not_throttled by done. rewrite Hblock, Herr. simpl. by rewrite Hn.
Qed.

End FrameFacts.

(** The fields [parseResponse] never assigns. *)
Lemma parseResponse_unassigned {D : Decoder} conf child response :
  let child' := (parseResponse conf child response).1 in
  topic child' = topic child ∧ partition child' = partition child
  ∧ leaderEpoch child' = leaderEpoch child ∧ trigger child' = trigger child
  ∧ paused child' = paused child ∧ retries child' = retries child
  ∧ responseResult child' = responseResult child.
Proof.
  cbv zeta.
  destruct (parseResponse_shape conf child response)
    as [->|(block & _ & [->|[(p & ->)|Hu]])].
  - done.
  - destruct (with_replica_fields block child) as (_ & _ & Ht & Hp & _).
    destruct (with_replica_preferred block child) as (_ & Hle & Htr & Hpa & Hre & Hrr).
    done.
  - destruct (with_replica_fields block child) as (_ & _ & Ht & Hp & _).
    destruct (with_replica_preferred block child) as (_ & Hle & Htr & Hpa & Hre & Hrr).
    unfold parseResponse_noRecords, sendError.
    rewrite <- Ht, <- Hp, <- Hle, <- Htr, <- Hpa, <- Hre, <- Hrr.
    destruct p; repeat case_match; fields; done.
  - destruct (with_replica_fields block child) as (_ & _ & Ht & Hp & _).
    destruct (with_replica_preferred block child) as (_ & Hle & Htr & Hpa & Hre & Hrr).
    rewrite Hu. fields. done.
Qed.

(** X1.  [parseResponse] never touches the topic, the partition, the leader
    epoch, the trigger, the pause flag, the retry counter or the recorded
    response result of the consumer; the only error it ever emits is one
    [ErrMessageTooLarge]; and it never returns messages together with an
    error. *)
Theorem parseResponse_frame :
  ∀ (D : Decoder) (conf : Config) (child : partitionConsumer) (response : FetchResponse),
    let r := parseResponse conf child response in
    topic r.1 = topic child ∧ partition r.1 = partition child
    ∧ leaderEpoch r.1 = leaderEpoch child ∧ trigger r.1 = trigger child
    ∧ paused r.1 = paused child ∧ retries r.1 = retries child
    ∧ responseResult r.1 = responseResult child
    ∧ ((errors r.1 = errors child ∧ logged r.1 = logged child)
       ∨ (errors r.1 = errors (sendError conf ErrMessageTooLarge child)
          ∧ logged r.1 = logged (sendError conf ErrMessageTooLarge child)))
    ∧ (r.2.2 ≠ None → r.2.1 = []).
Proof.
  intros D conf child response. cbv zeta.
  assert ((parseResponse conf child response).2.2 ≠ None →
          (parseResponse conf child response).2.1 = []) as Hnone.
  { unfold parseResponse. repeat case_match; simpl; done. }
  destruct (parseResponse_shape conf child response)
    as [->|(block & _ & [->|[(p & ->)|Hu]])].
  - repeat split; try done. by left.
  - destruct (with_replica_fields block child) as (_ & _ & Ht & Hp & He & Hl & _).
    destruct (with_replica_preferred block child) as (_ & Hle & Htr & Hpa & Hre & Hrr).
    repeat split; try done. by left.
  - destruct (with_replica_fields block child) as (_ & _ & Ht & Hp & He & Hl & _).
    destruct (with_replica_preferred block child) as (_ & Hle & Htr & Hpa & Hre & Hrr).
    unfold parseResponse_noRecords, sendError.
    rewrite <- Ht, <- Hp, <- Hle, <- Htr, <- Hpa, <- Hre, <- Hrr, <- He, <- Hl.
    destruct p; repeat case_match; fields; repeat split; try done;
      first [by left | by right].
  - destruct (with_replica_fields block child) as (_ & _ & Ht & Hp & He & Hl & _).
    destruct (with_replica_preferred block child) as (_ & Hle & Htr & Hpa & Hre & Hrr).
    rewrite Hu. fields. repeat split; try done. by left.
Qed.

Lemma parseResponse_frame_witness :
  let conf := Scenario.conf ReadUncommitted 1024 8192 in
  let block :=
    mkFetchResponseBlock ErrNotLeaderForPartition 0 invalidPreferredReplicaID None [] [] false in
  let r := @parseResponse SpecDecoder.decoder conf (Scenario.subscription 42 1024)
             (Scenario.response block) in
  r.2.2 = Some ErrNotLeaderForPartition ∧ r.2.1 = [].
Proof.
  intros conf block r. split; [reflexivity|].
  destruct (parseResponse_frame SpecDecoder.decoder conf (Scenario.subscription 42 1024)
              (Scenario.response block)) as (_ & _ & _ & _ & _ & _ & _ & _ & Hnone).
  apply Hnone. discriminate.
Defined.

(** X2.  When the block of the subscription has no error and at least one
    record, [parseResponse] sets the fetch size back to the configured
    default, stores the block's high water mark and records the block's
    preferred read replica if it names one, whatever the loop over the
    records does afterwards, error included. *)
Theorem records_path_resets :
  ∀ (D : Decoder) (conf : Config) (child : partitionConsumer) (response : FetchResponse)
    (block : FetchResponseBlock) (nRecs : Z),
    reaches child response block nRecs → nRecs ≠ 0 →
    let r := parseResponse conf child response in
    fetchSize r.1 = Consumer_Fetch_Default conf
    ∧ highWaterMarkOffset r.1 = HighWaterMarkOffset block
    ∧ preferredReadReplica r.1
      = (if PreferredReadReplica block =? invalidPreferredReplicaID
         then preferredReadReplica child else PreferredReadReplica block).
Proof.
  intros D conf child response block nRecs Hreach Hne. cbv zeta.
  rewrite (reaches_parseResponse conf child response block nRecs Hreach).
  destruct (Z.eqb_spec nRecs 0); [done|]. cbv zeta.
  set (st := mkLoopState _ _ _ _).
  pose proof (parseResponse_loop_up_to_offset conf (RecordsSet block) st) as Hu.
  destruct (with_replica_preferred block child) as (Hpr & _).
  destruct (parseResponse_loop conf st (RecordsSet block)) as [st' [err|]];
    simpl in *; rewrite Hu; fields; by rewrite Hpr.
Qed.

Lemma records_path_resets_witness :
  let conf := Scenario.conf ReadUncommitted 1024 8192 in
  let child := Scenario.subscription 42 4096 in
  let r := @parseResponse SpecDecoder.decoder conf child (Scenario.response replica_block) in
  fetchSize r.1 = 1024 ∧ highWaterMarkOffset r.1 = 900 ∧ preferredReadReplica r.1 = 5.
Proof.
  intros conf child.
  apply (records_path_resets SpecDecoder.decoder conf child
           (Scenario.response replica_block) replica_block 1).
  - split; [by left|]. repeat split; vm_compute; reflexivity.
  - discriminate.
Defined.

(** X3.  A block without error, without records and without a partial
    trailing batch moves the offset to the block's next offset when that is
    present and at most the block's high water mark, and otherwise leaves it:
    a next offset above the high water mark is not adopted.  Neither the
    fetch size nor the stored high water mark changes, no error is emitted,
    and parsing the same response again changes nothing more. *)
Theorem next_offset_path :
  ∀ (D : Decoder) (conf : Config) (child : partitionConsumer) (response : FetchResponse)
    (block : FetchResponseBlock),
    reaches child response block 0 → isPartial block = Ok false →
    let r := parseResponse conf child response in
    r.2 = ([], None)
    ∧ offset r.1
      = match recordsNextOffset block with
        | Some next => if next <=? HighWaterMarkOffset block then next else offset child
        | None => offset child
        end
    ∧ fetchSize r.1 = fetchSize child
    ∧ highWaterMarkOffset r.1 = highWaterMarkOffset child
    ∧ errors r.1 = errors child ∧ logged r.1 = logged child
    ∧ parseResponse conf r.1 response = r.
Proof.
  intros D conf child response block Hreach Hp.
  assert (∀ c, topic c = topic child → partition c = partition child →
               parseResponse conf c response
               = (parseResponse_noRecords conf (with_replica block c) block false,
                  ([], None))) as Hparse.
  { intros c Ht Hpa.
    rewrite (reaches_parseResponse conf c response block 0).
    - simpl. by rewrite Hp.
    - destruct Hreach as (Hans & Hblock & Hrest). split; [done|].
      by rewrite Ht, Hpa. }
  cbv zeta. rewrite (Hparse child eq_refl eq_refl). cbn [fst snd].
  set (c' := parseResponse_noRecords conf (with_replica block child) block false).
  assert (topic c' = topic child ∧ partition c' = partition child) as [Ht' Hp'].
  { unfold c', parseResponse_noRecords, with_replica. repeat case_match; fields; done. }
  rewrite (Hparse c' Ht' Hp').
  unfold c', parseResponse_noRecords, with_replica.
  destruct (recordsNextOffset block) as [next|];
    [destruct (next <=? HighWaterMarkOffset block)|];
    destruct (negb (PreferredReadReplica block =? invalidPreferredReplicaID)) eqn:Hr;
    fields; rewrite ?Hr; fields; rewrite ?Hr; done.
Qed.

Lemma next_offset_path_witness :
  let conf := Scenario.conf ReadUncommitted 1024 8192 in
  let child := Scenario.subscription 50 1024 in
  offset (@parseResponse SpecDecoder.decoder conf child
            (Scenario.response (quiet_block 100))).1 = 60
  ∧ offset (@parseResponse SpecDecoder.decoder conf child
              (Scenario.response (quiet_block 50))).1 = 50.
Proof.
  intros conf child.
  assert (∀ h, @reaches SpecDecoder.decoder child (Scenario.response (quiet_block h))
                 (quiet_block h) 0) as Hreach.
  { intros h. split; [by left|]. repeat split; vm_compute; reflexivity. }
  split.
  - destruct (next_offset_path SpecDecoder.decoder conf child _ _ (Hreach 100) eq_refl)
      as (_ & Ho & _).
    exact Ho.
  - destruct (next_offset_path SpecDecoder.decoder conf child _ _ (Hreach 50) eq_refl)
      as (_ & Ho & _).
    exact Ho.
Defined.

(** ** The order of the messages delivered *)

Section OfferOrder.

Context {X : Type}.
Variable off : X → Z.
Variable mk : partitionConsumer → X → ConsumerMessage.
Variable step : partitionConsumer * list ConsumerMessage → X
                → partitionConsumer * list ConsumerMessage.
Hypothesis step_offer : ∀ st x, step st x = offer (off x) (mk st.1 x) st.
Hypothesis mk_Offset : ∀ c x, Offset (mk c x) = off x.
Hypothesis mk_stamp : ∀ c x, Topic (mk c x) = topic c ∧ Partition (mk c x) = partition c.

Lemma offer_loop_in_order child0 l :
  ∀ st, Forall (λ x, MinInt64 ≤ off x ∧ off x < MaxInt64) l →
        in_order child0 st → in_order child0 (foldl step st l).
Proof.
  induction l as [|x l IH]; intros st Hall Hst; simpl; [done|].
  apply Forall_cons in Hall as [[Hlo Hhi] Hall].
  apply IH; [done|]. rewrite step_offer. unfold offer.
  destruct (Z.ltb_spec (off x) (offset st.1)) as [Hbelow|Hdeliver]; [done|].
  destruct Hst as (Hsorted & Hbelow & Ht & Hp).
  destruct (mk_stamp st.1 x) as [Hmt Hmp].
  unfold in_order. fields. rewrite add64_succ by done.
  rewrite fmap_app, Forall_app. simpl.
  split; [|split; [split|]].
  - apply StronglySorted_app. split; [|split].
    + intros o1 o2 Ho1 Ho2. apply list_elem_of_singleton in Ho2 as ->.
      apply list_elem_of_fmap in Ho1 as (m & -> & Hm).
      rewrite Forall_forall in Hbelow. destruct (Hbelow m Hm) as [Hlt _].
      rewrite mk_Offset. lia.
    + done.
    + repeat constructor.
  - eapply Forall_impl; [exact Hbelow|]. cbv beta. intros m (Hlt & Hrest). split; [lia|done].
  - constructor; [|constructor]. rewrite mk_Offset, Hmt, Hmp, Ht, Hp. split; [lia|done].
  - done.
Qed.

(** On a strictly increasing list of records nothing at or above the cursor
    is lost. *)
Lemma offer_loop_complete l :
  ∀ st, StronglySorted Z.lt (off <$> l) →
        Forall (λ x, MinInt64 ≤ off x ∧ off x < MaxInt64) l →
        Offset <$> (foldl step st l).2
        = (Offset <$> st.2) ++ filter (λ o, offset st.1 ≤ o) (off <$> l).
Proof.
  induction l as [|x l IH]; intros st Hsorted Hall; simpl.
  - by rewrite app_nil_r.
  - apply Forall_cons in Hall as [[Hlo Hhi] Hall].
    rewrite fmap_cons in Hsorted. apply StronglySorted_cons in Hsorted as [Hhead Hsorted].
    rewrite IH by done. rewrite step_offer. unfold offer.
    destruct (Z.ltb_spec (off x) (offset st.1)) as [Hbelow|Hdeliver].
    + by rewrite filter_cons_False by lia.
    + rewrite filter_cons_True by lia. fields. rewrite add64_succ by done.
      rewrite fmap_app. simpl. rewrite mk_Offset, <- app_assoc. simpl.
      f_equal. f_equal.
      rewrite !filter_all; [done | |];
        (eapply Forall_impl; [exact Hhead|]; cbv beta; intros o; lia).
Qed.

End OfferOrder.

Lemma in_order_finish child0 st : in_order child0 st → in_order child0 (finish st).
Proof.
  unfold finish. destruct st as [child messages]. simpl.
  destruct messages as [|m ms]; simpl; [|done].
  intros (Hs & Hb & Ht & Hp). unfold in_order. fields. done.
Qed.

Lemma in_order_start child : in_order child (child, []).
Proof. unfold in_order. simpl. repeat split; try done; constructor. Qed.

Lemma parseRecords_in_order child batch :
  Forall (λ o, o < MaxInt64) (batch_offsets batch) →
  in_order child (parseRecords child batch).
Proof.
  intros Hall.
  assert (parseRecords child batch
          = finish (parseRecords_loop batch (batch_Records batch) (child, []))) as ->.
  { unfold parseRecords, finish.
    by destruct (parseRecords_loop batch (batch_Records batch) (child, [])). }
  apply in_order_finish. unfold parseRecords_loop.
  apply (offer_loop_in_order
           (λ rec, add64 (FirstOffset batch) (rec_OffsetDelta rec))
           (λ c rec, recordMessage c batch rec
                       (add64 (FirstOffset batch) (rec_OffsetDelta rec)))
           _ (parseRecords_step_offer batch) (λ _ _, eq_refl) (λ _ _, conj eq_refl eq_refl)).
  - unfold batch_offsets in Hall. rewrite Forall_fmap in Hall.
    apply Forall_forall. intros rec Hrec. rewrite Forall_forall in Hall.
    split; [|by apply Hall].
    apply (add64_range (FirstOffset batch) (rec_OffsetDelta rec)).
  - apply in_order_start.
Qed.

Section LegacyOrder.

Context `{Decoder}.

Lemma parseMessages_in_order child msgSet :
  Forall (λ o, MinInt64 ≤ o ∧ o < MaxInt64) (messageSet_offsets msgSet) →
  in_order child (parseMessages child msgSet).
Proof.
  intros Hall.
  assert (parseMessages child msgSet
          = finish (parseMessages_loop (set_Messages msgSet) (child, []))) as ->.
  { unfold parseMessages, finish.
    by destruct (parseMessages_loop (set_Messages msgSet) (child, [])). }
  apply in_order_finish. unfold parseMessages_loop, messageSet_offsets in *.
  generalize (in_order_start child). generalize (child, @nil ConsumerMessage).
  induction (set_Messages msgSet) as [|msgBlock blocks IH]; intros st Hst; [done|].
  simpl in Hall. apply Forall_app in Hall as [Hhead Htail].
  simpl. apply IH; [done|]. unfold parseMessages_block.
  apply (offer_loop_in_order (message_offset msgBlock)
           (λ c msg, legacyMessage c msgBlock msg (message_offset msgBlock msg))
           _ (parseMessages_step_offer msgBlock) (λ _ _, eq_refl)
           (λ _ _, conj eq_refl eq_refl)); [|done].
  unfold messageBlock_offsets in Hhead. by rewrite Forall_fmap in Hhead.
Qed.

End LegacyOrder.

Section ResponseOrder.

Context `{Decoder}.

(** Appending the messages of one container keeps the order. *)
Lemma in_order_append child0 child messages child' new :
  in_order child0 (child, messages) →
  in_order child (child', new) →
  offset child ≤ offset child' →
  Forall (λ m, offset child ≤ Offset m) new →
  in_order child0 (child', messages ++ new).
Proof.
  intros (Hs & Hb & Ht & Hp) (Hs' & Hb' & Ht' & Hp') Hle Hge. simpl in *.
  unfold in_order. simpl. rewrite fmap_app, Forall_app.
  split; [|split; [split|]].
  - apply StronglySorted_app. split; [|done].
    intros o1 o2 Ho1 Ho2.
    apply list_elem_of_fmap in Ho1 as (m1 & -> & Hm1).
    apply list_elem_of_fmap in Ho2 as (m2 & -> & Hm2).
    rewrite Forall_forall in Hb. rewrite Forall_forall in Hge.
    destruct (Hb m1 Hm1) as [Hlt _]. specialize (Hge m2 Hm2). lia.
  - eapply Forall_impl; [exact Hb|]. cbv beta. intros m (Hlt & Hrest). split; [lia|done].
  - eapply Forall_impl; [exact Hb'|]. cbv beta. intros m (Hlt & Htm & Hpm).
    rewrite Htm, Hpm, Ht, Hp. done.
  - by rewrite Ht', Hp', Ht, Hp.
Qed.

Lemma in_order_skip child0 child messages child' :
  in_order child0 (child, messages) →
  up_to_offset child child' → offset child ≤ offset child' →
  in_order child0 (child', messages).
Proof.
  intros (Hs & Hb & Ht & Hp) Hu Hle. simpl in *.
  unfold in_order. simpl. rewrite Hu. fields.
  split; [done|]. split; [|done].
  eapply Forall_impl; [exact Hb|]. cbv beta. intros m (Hlt & Hrest). split; [lia|done].
Qed.

Lemma parseResponse_step_in_order conf child0 bound st records :
  bound < MaxInt64 →
  MinInt64 ≤ offset (ls_child st) → offset (ls_child st) ≤ bound →
  Forall (λ o, MinInt64 ≤ o ∧ o < bound) (records_offsets records) →
  in_order child0 (ls_child st, ls_messages st) →
  in_order child0 (ls_child (parseResponse_step conf st records).1,
                   ls_messages (parseResponse_step conf st records).1).
Proof.
  intros Hbound Hlo Hle Hall Hst.
  assert (Forall (λ o, MinInt64 ≤ o ∧ o < MaxInt64) (records_offsets records)) as Hall'.
  { eapply Forall_impl; [exact Hall|]. cbv beta. intros o. lia. }
  destruct records as [msgSet|batch|tag].
  - simpl in Hall, Hall'.
    destruct (parseMessages_advance bound (ls_child st) msgSet) as (Hup & _ & _ & Hbt & _);
      [lia | done | lia | done | done |].
    pose proof (parseMessages_in_order (ls_child st) msgSet Hall') as Hnew.
    unfold parseResponse_step.
    destruct (parseMessages (ls_child st) msgSet) as [child' new]. simpl in *.
    apply (in_order_append child0 (ls_child st)); [done | done | lia |].
    eapply Forall_impl; [exact Hbt|]. cbv beta. intros m. lia.
  - simpl in Hall, Hall'.
    destruct (parseRecords_advance bound (ls_child st) batch) as (Hup & _ & _ & Hbt & _);
      [lia | done | lia | done | done |].
    assert (in_order (ls_child st) (parseRecords (ls_child st) batch)) as Hnew.
    { apply parseRecords_in_order.
      eapply Forall_impl; [exact Hall'|]. cbv beta. intros o. lia. }
    pose proof (parseRecords_up_to_offset (ls_child st) batch) as Hu.
    assert (in_order child0 ((parseRecords (ls_child st) batch).1, ls_messages st)) as Hskip.
    { apply (in_order_skip child0 (ls_child st)); [done | done | lia]. }
    assert (in_order child0 ((parseRecords (ls_child st) batch).1,
                             ls_messages st ++ (parseRecords (ls_child st) batch).2))
      as Happ.
    { apply (in_order_append child0 (ls_child st)); [done | | lia |].
      - by destruct (parseRecords (ls_child st) batch).
      - eapply Forall_impl; [exact Hbt|]. cbv beta. intros m. lia. }
    rewrite parseResponse_step_default. cbv zeta.
    repeat case_match; simpl; done.
  - done.
Qed.

Lemma parseResponse_loop_in_order conf child0 recordsSet :
  ∀ bound st,
    bound + Z.of_nat (length recordsSet) ≤ MaxInt64 →
    MinInt64 ≤ offset (ls_child st) → offset (ls_child st) ≤ bound →
    Forall (λ records, Forall (λ o, MinInt64 ≤ o ∧ o < bound) (records_offsets records))
      recordsSet →
    in_order child0 (ls_child st, ls_messages st) →
    in_order child0 (ls_child (parseResponse_loop conf st recordsSet).1,
                     ls_messages (parseResponse_loop conf st recordsSet).1).
Proof.
  induction recordsSet as [|records rest IH]; intros bound st Hroom Hlo Hle Hall Hst;
    [done|].
  apply Forall_cons in Hall as [Hhead Htail].
  change (length (records :: rest)) with (S (length rest)) in *.
  destruct (parseResponse_step_advance conf bound st records) as [Hup Hb];
    [lia | done | done | done |].
  pose proof (parseResponse_step_in_order conf child0 bound st records) as Hstep.
  simpl parseResponse_loop.
  destruct (parseResponse_step conf st records) as [st' [err|]]; simpl in *.
  { apply Hstep; [lia | done | done | done | done]. }
  apply (IH (bound + 1)); [lia | lia | done | |].
  - eapply Forall_impl; [exact Htail|]. cbv beta. intros r Hr.
    eapply Forall_impl; [exact Hr|]. cbv beta. intros o. lia.
  - apply Hstep; [lia | done | done | done | done].
Qed.

(** The messages of one response, under [roomy]. *)
Lemma parseResponse_in_order conf child response :
  roomy child response →
  in_order child ((parseResponse conf child response).1,
                  (parseResponse conf child response).2.1).
Proof.
  intros Hroomy.
  pose proof (parseResponse_unassigned conf child response) as (Ht & Hp & _).
  assert (in_order child ((parseResponse conf child response).1, [])) as Hempty.
  { unfold in_order. simpl. repeat split; try done; constructor. }
  revert Hempty. unfold roomy, parseResponse in *.
  destruct (negb (ThrottleTime response =? 0) && (size (Blocks response) =? 0)%nat);
    [done|].
  destruct (GetBlock response (topic child) (partition child)) as [block|]; [|done].
  destruct Hroomy as (Hlo & Hroom & Hall).
  destruct (negb (errors_Is (Err block) ErrNoError)); [done|].
  destruct (numRecords block) as [nRecs|err]; [|done].
  destruct (nRecs =? 0).
  { by destruct (isPartial block). }
  fold (with_replica block child) in *.
  set (st := mkLoopState _ _ _ _) in *.
  destruct (with_replica_fields block child) as (Ho & _ & Htw & Hpw & _).
  assert (offset (ls_child st) = offset child) as Hst by (unfold st; simpl; done).
  pose proof (parseResponse_loop_in_order conf child (RecordsSet block)
                (MaxInt64 - Z.of_nat (length (RecordsSet block))) st) as Hloop.
  destruct (parseResponse_loop conf st (RecordsSet block)) as [st' [err|]]; [done|].
  intros _. simpl in *. apply Hloop; [lia | lia | lia | |].
  - eapply Forall_impl; [exact Hall|]. cbv beta. intros r Hr.
    eapply Forall_impl; [exact Hr|]. cbv beta. intros o. lia.
  - unfold st, in_order. simpl. repeat split; try done; constructor.
Qed.

Lemma steady_roomy child response : steady child response → roomy child response.
Proof.
  unfold steady, roomy.
  destruct (GetBlock response (topic child) (partition child)); [|done]. by intros [? _].
Qed.

Lemma deliveredAll_in_order conf responses :
  ∀ child, steady_run conf child responses →
    StronglySorted Z.lt (Offset <$> deliveredAll conf child responses)
    ∧ Forall (λ m, offset child ≤ Offset m
                   ∧ Offset m < offset (parseAll conf child responses)
                   ∧ Topic m = topic child ∧ Partition m = partition child)
        (deliveredAll conf child responses).
Proof.
  induction responses as [|response rest IH]; intros child Hrun; simpl.
  - split; constructor.
  - destruct Hrun as [Hhead Hrest].
    destruct (IH _ Hrest) as [Hs Hb].
    pose proof (parseResponse_in_order conf child response (steady_roomy _ _ Hhead))
      as (Hs1 & Hb1 & Ht1 & Hp1).
    pose proof (parseResponse_between conf child response (steady_roomy _ _ Hhead)) as Hbt.
    pose proof (parseResponse_monotone conf child response Hhead) as Hmono.
    pose proof (parseAll_monotone conf rest _ Hrest) as Hmono'.
    simpl in *. rewrite fmap_app, Forall_app. split; [|split].
    + apply StronglySorted_app. split; [|done].
      intros o1 o2 Ho1 Ho2.
      apply list_elem_of_fmap in Ho1 as (m1 & -> & Hm1).
      apply list_elem_of_fmap in Ho2 as (m2 & -> & Hm2).
      rewrite Forall_forall in Hbt. rewrite Forall_forall in Hb.
      destruct (Hbt m1 Hm1) as [_ Hlt]. destruct (Hb m2 Hm2) as [Hge _]. lia.
    + rewrite Forall_forall in Hbt. rewrite Forall_forall in Hb1.
      apply Forall_forall. intros m Hm.
      destruct (Hbt m Hm) as [Hge Hlt]. destruct (Hb1 m Hm) as (_ & Htm & Hpm).
      repeat split; try done. lia.
    + eapply Forall_impl; [exact Hb|]. cbv beta. intros m (Hge & Hlt & Htm & Hpm).
      rewrite Htm, Hpm, Ht1, Hp1. repeat split; try done. lia.
Qed.

End ResponseOrder.

(** X4.  Over any sequence of responses each of which is steady for the
    consumer as it arrives (no [int64] overflow, no next offset behind the
    subscription), the messages handed out have strictly increasing offsets,
    none below the offset the subscription started from, and every one
    carries the topic and the partition of the subscription: no record is
    delivered twice. *)
Theorem delivered_strictly_increasing :
  ∀ (D : Decoder) (conf : Config) (child : partitionConsumer)
    (responses : list FetchResponse),
    steady_run conf child responses →
    StronglySorted Z.lt (Offset <$> deliveredAll conf child responses)
    ∧ Forall (λ m, offset child ≤ Offset m
                   ∧ Offset m < offset (parseAll conf child responses)
                   ∧ Topic m = topic child ∧ Partition m = partition child)
        (deliveredAll conf child responses).
Proof. intros D conf child responses. apply deliveredAll_in_order. Qed.

Lemma delivered_strictly_increasing_witness :
  let conf := Scenario.conf ReadUncommitted 1024 8192 in
  let child := Scenario.subscription 42 1024 in
  let responses :=
    [Scenario.response (Scenario.block [] [defaultRecords Scenario.s1_batch]);
     Scenario.response (Scenario.block [] [defaultRecords Scenario.s1_batch])] in
  Offset <$> @deliveredAll SpecDecoder.decoder conf child responses = [42; 43]
  ∧ StronglySorted Z.lt (Offset <$> @deliveredAll SpecDecoder.decoder conf child responses).
Proof.
  intros conf child responses. split; [vm_compute; reflexivity|].
  apply (delivered_strictly_increasing SpecDecoder.decoder conf child responses).
  split; [|split; [|exact I]].
  - split.
    + split; [vm_compute; discriminate|]. split; [vm_compute; reflexivity|].
      repeat constructor; vm_compute; discriminate.
    + intros Hn. vm_compute in Hn. discriminate Hn.
  - split.
    + split; [vm_compute; discriminate|]. split; [vm_compute; reflexivity|].
      repeat constructor; vm_compute; discriminate.
    + intros Hn. vm_compute in Hn. discriminate Hn.
Defined.

(** X5.  When the records of a batch have strictly increasing offsets, none
    of them [MaxInt64], [parseRecords] returns exactly the records at or above
    the subscription's offset, in their order: nothing at or above the offset
    is lost. *)
Theorem parseRecords_complete :
  ∀ (child : partitionConsumer) (batch : RecordBatch),
    StronglySorted Z.lt (batch_offsets batch) →
    Forall (λ o, o < MaxInt64) (batch_offsets batch) →
    Offset <$> (parseRecords child batch).2
    = filter (λ o, offset child ≤ o) (batch_offsets batch).
Proof.
  intros child batch Hsorted Hall.
  rewrite parseRecords_finish.
  assert (∀ st, (finish st).2 = st.2) as -> by (intros st; unfold finish; by case_match).
  unfold parseRecords_loop.
  rewrite (offer_loop_complete
             (λ rec, add64 (FirstOffset batch) (rec_OffsetDelta rec))
             (λ c rec, recordMessage c batch rec
                         (add64 (FirstOffset batch) (rec_OffsetDelta rec)))
             _ (parseRecords_step_offer batch) (λ _ _, eq_refl)); [done | done |].
  unfold batch_offsets in Hall. rewrite Forall_fmap in Hall.
  apply Forall_forall. intros rec Hrec. rewrite Forall_forall in Hall.
  split; [|by apply Hall].
  apply (add64_range (FirstOffset batch) (rec_OffsetDelta rec)).
Qed.

Lemma parseRecords_complete_witness :
  Offset <$> (parseRecords (Scenario.subscription 42 1024) Scenario.s1_batch).2
  = filter (λ o, 42 ≤ o) [40; 41; 42; 43].
Proof.
  apply (parseRecords_complete (Scenario.subscription 42 1024) Scenario.s1_batch).
  - repeat constructor.
  - repeat constructor.
Defined.

(** ** Isolation level ReadUncommitted *)

Section Uncommitted.

Context `{Decoder}.

Lemma uncommitted_step conf st batch :
  Consumer_IsolationLevel conf = ReadUncommitted →
  parseResponse_step conf st (defaultRecords batch)
  = let parsed := parseRecords (ls_child st) batch in
    let ids := aborted_at st batch in
    let pending := pending_after (LastOffset batch) (abortedTransactions st) in
    match isControl (defaultRecords batch) with
    | Fail err => (mkLoopState parsed.1 ids pending (ls_messages st), None)
    | Ok true =>
        match getControlRecord (defaultRecords batch) with
        | Fail err => (mkLoopState parsed.1 ids pending (ls_messages st), Some err)
        | Ok controlRecord =>
            (mkLoopState parsed.1
               (match cr_Type controlRecord with
                | ControlRecordAbort => ids ∖ {[ProducerID batch]}
                | _ => ids
                end) pending (ls_messages st), None)
        end
    | Ok false =>
        (mkLoopState parsed.1 ids pending (ls_messages st ++ parsed.2), None)
    end.
Proof.
  intros Hiso. rewrite parseResponse_step_default. cbv zeta. rewrite Hiso.
  destruct (isControl (defaultRecords batch)) as [[|]|err]; simpl; try done.
  destruct (getControlRecord (defaultRecords batch)) as [cr|err]; [|done].
  by destruct (cr_Type cr).
Qed.

Lemma uncommitted_step_same conf child messages ids1 txns1 ids2 txns2 records :
  Consumer_IsolationLevel conf = ReadUncommitted →
  let r1 := parseResponse_step conf (mkLoopState child ids1 txns1 messages) records in
  let r2 := parseResponse_step conf (mkLoopState child ids2 txns2 messages) records in
  ls_child r1.1 = ls_child r2.1 ∧ ls_messages r1.1 = ls_messages r2.1 ∧ r1.2 = r2.2.
Proof.
  intros Hiso. cbv zeta. destruct records as [msgSet|batch|tag].
  - unfold parseResponse_step. simpl. by destruct (parseMessages child msgSet).
  - rewrite !uncommitted_step by done. cbv zeta. simpl.
    destruct (isControl (defaultRecords batch)) as [[|]|err]; try done.
    by destruct (getControlRecord (defaultRecords batch)).
  - done.
Qed.

Lemma uncommitted_loop_same conf recordsSet :
  Consumer_IsolationLevel conf = ReadUncommitted →
  ∀ child messages ids1 txns1 ids2 txns2,
    let r1 := parseResponse_loop conf (mkLoopState child ids1 txns1 messages) recordsSet in
    let r2 := parseResponse_loop conf (mkLoopState child ids2 txns2 messages) recordsSet in
    ls_child r1.1 = ls_child r2.1 ∧ ls_messages r1.1 = ls_messages r2.1 ∧ r1.2 = r2.2.
Proof.
  intros Hiso. induction recordsSet as [|records rest IH];
    intros child messages ids1 txns1 ids2 txns2; [done|].
  cbv zeta. simpl.
  destruct (uncommitted_step_same conf child messages ids1 txns1 ids2 txns2 records Hiso)
    as (Hc & Hm & He).
  destruct (parseResponse_step conf (mkLoopState child ids1 txns1 messages) records)
    as [[c1 i1 t1 m1] e1].
  destruct (parseResponse_step conf (mkLoopState child ids2 txns2 messages) records)
    as [[c2 i2 t2 m2] e2].
  simpl in *. subst c2 m2 e2.
  destruct e1; [done|]. apply IH.
Qed.

End Uncommitted.

(** X6.  Under [ReadUncommitted] the aborted transactions of a block have no
    influence on what is delivered: whatever the aborted set and the pending
    list are, the loop over the records ends with the same consumer, the same
    messages and the same error.  A batch that is not a control batch has
    all the messages of [parseRecords] appended, transactional or not; and a
    failure of [isControl] is swallowed: the batch is skipped without an
    error. *)
Theorem read_uncommitted_ignores_aborted :
  ∀ (D : Decoder) (conf : Config),
    Consumer_IsolationLevel conf = ReadUncommitted →
    (∀ (recordsSet : list Records) (child : partitionConsumer)
       (messages : list ConsumerMessage) (ids1 ids2 : gset Z)
       (txns1 txns2 : list AbortedTransaction),
       let r1 := parseResponse_loop conf (mkLoopState child ids1 txns1 messages) recordsSet in
       let r2 := parseResponse_loop conf (mkLoopState child ids2 txns2 messages) recordsSet in
       ls_child r1.1 = ls_child r2.1 ∧ ls_messages r1.1 = ls_messages r2.1 ∧ r1.2 = r2.2)
    ∧ (∀ (st : loopState) (batch : RecordBatch),
         isControl (defaultRecords batch) = Ok false →
         let r := parseResponse_step conf st (defaultRecords batch) in
         r.2 = None
         ∧ ls_messages r.1 = ls_messages st ++ (parseRecords (ls_child st) batch).2)
    ∧ (∀ (st : loopState) (batch : RecordBatch) (err : error),
         isControl (defaultRecords batch) = Fail err →
         let r := parseResponse_step conf st (defaultRecords batch) in
         r.2 = None ∧ ls_messages r.1 = ls_messages st
         ∧ ls_child r.1 = (parseRecords (ls_child st) batch).1).
Proof.
  intros D conf Hiso. split; [|split].
  - intros recordsSet child messages ids1 ids2 txns1 txns2.
    by apply uncommitted_loop_same.
  - intros st batch Hc. cbv zeta. rewrite uncommitted_step by done. cbv zeta.
    by rewrite Hc.
  - intros st batch err Hc. cbv zeta. rewrite uncommitted_step by done. cbv zeta.
    by rewrite Hc.
Qed.

Lemma read_uncommitted_ignores_aborted_witness :
  let conf := Scenario.conf ReadUncommitted 1024 8192 in
  let r := @parseResponse_step SpecDecoder.decoder conf s3_start
             (defaultRecords Scenario.s3_batch100) in
  r.2 = None ∧ Offset <$> ls_messages r.1 = [100].
Proof.
  intros conf.
  destruct (read_uncommitted_ignores_aborted SpecDecoder.decoder conf eq_refl)
    as (_ & Hemit & _).
  destruct (Hemit s3_start Scenario.s3_batch100 eq_refl) as [Hr Hm].
  split; [exact Hr|]. etransitivity; [exact (f_equal (fmap Offset) Hm)|].
  vm_compute. reflexivity.
Defined.

(** ** handleResponses, outcome by outcome *)

Lemma handleResponse_keeps conf client brokerID child :
  let child' := (handleResponse conf client brokerID child).1 in
  offset child' = offset child ∧ fetchSize child' = fetchSize child
  ∧ highWaterMarkOffset child' = highWaterMarkOffset child
  ∧ topic child' = topic child ∧ partition child' = partition child
  ∧ paused child' = paused child ∧ leaderEpoch child' = leaderEpoch child
  ∧ retries child' = retries child ∧ responseResult child' = None.
Proof.
  cbv zeta. unfold handleResponse, preferredBroker, sendError.
  destruct (responseResult child) as [err|].
  - repeat case_match; fields; done.
  - fields. repeat case_match; simplify_eq; fields; done.
Qed.

Lemma handleResponses_fold_none conf client brokerID l :
  ∀ st q, st.1 !! q = None →
    (foldl (handleResponses_step conf client brokerID) st l).1 !! q = None.
Proof.
  induction l as [|p l IH]; intros st q Hq; simpl; [done|].
  apply IH. unfold handleResponses_step.
  destruct (st.1 !! p) as [child|] eqn:Hp; [|done].
  destruct (handleResponse conf client brokerID child) as [child' deleted]. simpl.
  rewrite lookup_insert_ne; [done|]. intros ->. congruence.
Qed.

Lemma handleResponses_outside conf client store bc q :
  q ∉ subscriptions bc →
  (handleResponses conf client store bc).1 !! q = store !! q
  ∧ q ∉ subscriptions (handleResponses conf client store bc).2.
Proof.
  intros Hq. unfold handleResponses.
  destruct (handleResponses_fold_other conf client (bc_broker bc)
              (elements (subscriptions bc)) (store, subscriptions bc) q) as [Hl Hs].
  { by rewrite elem_of_elements. }
  destruct (foldl _ _ _) as [store' subs]. simpl in *. split; [done|]. by rewrite Hs.
Qed.

Lemma handleResponse_error conf client brokerID child err :
  responseResult child = Some err →
  let r := handleResponse conf client brokerID child in
  r.2 = true
  ∧ preferredReadReplica r.1 = invalidPreferredReplicaID
  ∧ (err = errTimedOut →
     trigger r.1 = trigger child ∧ errors r.1 = errors child ∧ logged r.1 = logged child)
  ∧ (err ∈ silent_retriable →
     trigger r.1 = chan_send (trigger child)
     ∧ errors r.1 = errors child ∧ logged r.1 = logged child)
  ∧ (¬ named_outcome err →
     surfaced conf r.1 = surfaced conf child ++ [consumerError child err]
     ∧ trigger r.1 = chan_send (trigger child)).
Proof.
  intros Hres. cbv zeta. unfold handleResponse, sendError. rewrite Hres.
  split; [repeat case_match; done|]. split; [repeat case_match; fields; done|].
  split; [intros ->; done|]. split.
  - unfold silent_retriable. intros Hin.
    repeat (apply elem_of_cons in Hin as [->|Hin]; [done|]). by apply elem_of_nil in Hin.
  - intros Hnot. unfold named_outcome, silent_retriable in Hnot.
    unfold surfaced, consumerError.
    destruct err; simpl;
      try (exfalso; apply Hnot; set_unfold; tauto);
      destruct (Consumer_Return_Errors conf); done.
Qed.

(** X7.  Whatever error a subscription has recorded, [handleResponses]
    removes the subscription from the broker consumer, clears the recorded
    result and discards the preferred read replica, and leaves offset, fetch
    size, high water mark, pause flag, leader epoch and retry counter as they
    are.  A timed-out feeder is dropped silently, without a send on the
    trigger; an error that is none of the named ones is surfaced to the user
    and the subscription is redispatched by one send on its trigger. *)
Theorem handleResponses_any_error :
  ∀ (conf : Config) (client : Client) (store : gmap nat partitionConsumer)
    (bc : brokerConsumer) (p : nat) (child : partitionConsumer) (err : error),
    p ∈ subscriptions bc → store !! p = Some child →
    responseResult child = Some err →
    let r := handleResponses conf client store bc in
    (p ∉ subscriptions r.2)
    ∧ ∃ child', r.1 !! p = Some child'
        ∧ preferredReadReplica child' = invalidPreferredReplicaID
        ∧ responseResult child' = None
        ∧ offset child' = offset child ∧ fetchSize child' = fetchSize child
        ∧ highWaterMarkOffset child' = highWaterMarkOffset child
        ∧ paused child' = paused child ∧ leaderEpoch child' = leaderEpoch child
        ∧ retries child' = retries child
        ∧ (err = errTimedOut →
           trigger child' = trigger child
           ∧ errors child' = errors child ∧ logged child' = logged child)
        ∧ (¬ named_outcome err →
           surfaced conf child' = surfaced conf child ++ [consumerError child err]
           ∧ trigger child' = chan_send (trigger child)).
Proof.
  intros conf client store bc p child err Hp Hchild Hres. cbv zeta.
  destruct (handleResponses_child conf client store bc p child Hp Hchild) as [Hl Hs].
  destruct (handleResponse_keeps conf client (bc_broker bc) child)
    as (Ho & Hf & Hh & _ & _ & Hpa & Hle & Hre & Hrr).
  destruct (handleResponse_error conf client (bc_broker bc) child err Hres)
    as (Hdel & Hpref & Htimed & _ & Hother).
  split; [rewrite Hs, Hdel; done|].
  eexists. split; [exact Hl|].
  repeat (split; [done|]). done.
Qed.

Lemma handleResponses_any_error_witness :
  let conf := Scenario.conf ReadUncommitted 1024 8192 in
  let store : gmap nat partitionConsumer :=
    {[ 0%nat := answered_with errTimedOut;
       1%nat := answered_with ErrIncompleteResponse ]} in
  let bc := mkBrokerConsumer 1 {[ 0%nat; 1%nat ]} in
  let r := handleResponses conf leader_one store bc in
  (0%nat ∉ subscriptions r.2) ∧ (1%nat ∉ subscriptions r.2)
  ∧ ∃ child', r.1 !! 1%nat = Some child'
      ∧ ce_Err <$> surfaced conf child' = [ErrIncompleteResponse]
      ∧ chan_sent (trigger child') = 1%nat.
Proof.
  intros conf store bc r.
  assert (∀ q, q = 0%nat ∨ q = 1%nat → q ∈ subscriptions bc) as Hin.
  { intros q [->| ->]; apply (bool_decide_unpack _); vm_compute; exact I. }
  destruct (handleResponses_any_error conf leader_one store bc 0%nat
              (answered_with errTimedOut) errTimedOut (Hin _ (or_introl eq_refl))
              eq_refl eq_refl) as [Hout0 _].
  destruct (handleResponses_any_error conf leader_one store bc 1%nat
              (answered_with ErrIncompleteResponse) ErrIncompleteResponse
              (Hin _ (or_intror eq_refl)) eq_refl eq_refl)
    as [Hout1 (child' & Hl & _ & _ & _ & _ & _ & _ & _ & _ & _ & Hother)].
  split; [exact Hout0|]. split; [exact Hout1|].
  exists child'. split; [exact Hl|].
  destruct Hother as [Hs Ht].
  - unfold named_outcome, silent_retriable. set_unfold. intros [?|[?|?]]; try discriminate.
    repeat destruct H as [?|H]; try discriminate; done.
  - rewrite Hs, Ht. split; reflexivity.
Defined.


(** X8.  A subscription without a recorded error stays with the broker
    consumer exactly when its preferred broker cannot be determined or is
    the broker of this broker consumer; then it is left as [preferredBroker]
    left it.  When the preferred broker is another one, the subscription is
    removed and redispatched by one send on its trigger; no error is
    surfaced either way. *)
Theorem handleResponses_success :
  ∀ (conf : Config) (client : Client) (store : gmap nat partitionConsumer)
    (bc : brokerConsumer) (p : nat) (child : partitionConsumer),
    p ∈ subscriptions bc → store !! p = Some child →
    responseResult child = None →
    let r := handleResponses conf client store bc in
    let found := preferredBroker client child in
    (∀ broker epoch, found.2 = Ok (broker, epoch) → broker ≠ bc_broker bc →
       (p ∉ subscriptions r.2)
       ∧ r.1 !! p = Some (set_trigger (chan_send (trigger child)) found.1))
    ∧ ((∃ err, found.2 = Fail err) ∨ (∃ epoch, found.2 = Ok (bc_broker bc, epoch)) →
       p ∈ subscriptions r.2 ∧ r.1 !! p = Some found.1)
    ∧ (∀ child', r.1 !! p = Some child' →
         errors child' = errors child ∧ logged child' = logged child).
Proof.
  intros conf client store bc p child Hp Hchild Hres. cbv zeta.
  destruct (handleResponses_child conf client store bc p child Hp Hchild) as [Hl Hs].
  assert (set_responseResult None child = child) as Hsame.
  { destruct child. simpl in Hres. by subst. }
  assert (trigger (preferredBroker client child).1 = trigger child
          ∧ errors (preferredBroker client child).1 = errors child
          ∧ logged (preferredBroker client child).1 = logged child) as (Htr & He & Hlg).
  { unfold preferredBroker. repeat case_match; done. }
  unfold handleResponse in Hl, Hs. rewrite Hres, Hsame in Hl, Hs.
  destruct (preferredBroker client child) as [child1 [[broker epoch]|err]] eqn:Hfound;
    simpl in *.
  - destruct (Z.eqb_spec (bc_broker bc) broker) as [Heq|Hne]; simpl in *.
    + split; [|split].
      * intros b e [= <- <-] Hne. by destruct Hne.
      * intros _. by rewrite Hs.
      * intros child' Hc. rewrite Hl in Hc. by simplify_eq.
    + split; [|split].
      * intros b e [= <- <-] _. rewrite Hs, Hl, Htr. done.
      * intros [[err [=]]|[e [= -> _]]]. by destruct Hne.
      * intros child' Hc. rewrite Hl in Hc. by simplify_eq.
  - split; [|split].
    + intros b e [=].
    + intros _. by rewrite Hs.
    + intros child' Hc. rewrite Hl in Hc. by simplify_eq.
Qed.

Lemma handleResponses_success_witness :
  let conf := Scenario.conf ReadUncommitted 1024 8192 in
  let child := set_preferredReadReplica 5 (Scenario.subscription 42 1024) in
  let store : gmap nat partitionConsumer := {[ 0%nat := child ]} in
  let moved := handleResponses conf replicas_known store (mkBrokerConsumer 1 {[ 0%nat ]}) in
  let kept := handleResponses conf replicas_known store (mkBrokerConsumer 5 {[ 0%nat ]}) in
  (0%nat ∉ subscriptions moved.2) ∧ 0%nat ∈ subscriptions kept.2.
Proof.
  intros conf child store moved kept.
  assert (0%nat ∈ ({[ 0%nat ]} : gset nat)) as Hin
      by (apply (bool_decide_unpack _); vm_compute; exact I).
  split.
  - destruct (handleResponses_success conf replicas_known store
                (mkBrokerConsumer 1 {[ 0%nat ]}) 0%nat child Hin eq_refl eq_refl)
      as (Hmoved & _).
    destruct (Hmoved 5 0 eq_refl) as [Hout _]; [discriminate | exact Hout].
  - destruct (handleResponses_success conf replicas_known store
                (mkBrokerConsumer 5 {[ 0%nat ]}) 0%nat child Hin eq_refl eq_refl)
      as (_ & Hkept & _).
    destruct Hkept as [Hin' _]; [right; by exists 0 | exact Hin'].
Defined.

(** X9.  [handleResponses] changes nothing outside the subscriptions of the
    broker consumer, only ever removes subscriptions, creates and deletes no
    partition consumer, and never changes the offset, the fetch size, the high
    water mark or the pause flag of any. *)
Theorem handleResponses_frame :
  ∀ (conf : Config) (client : Client) (store : gmap nat partitionConsumer)
    (bc : brokerConsumer),
    let r := handleResponses conf client store bc in
    (∀ q, q ∉ subscriptions bc → r.1 !! q = store !! q)
    ∧ subscriptions r.2 ⊆ subscriptions bc
    ∧ bc_broker r.2 = bc_broker bc
    ∧ (∀ q, r.1 !! q = None ↔ store !! q = None)
    ∧ (∀ q child', r.1 !! q = Some child' →
         ∃ child, store !! q = Some child
           ∧ offset child' = offset child ∧ fetchSize child' = fetchSize child
           ∧ highWaterMarkOffset child' = highWaterMarkOffset child
           ∧ paused child' = paused child
           ∧ topic child' = topic child ∧ partition child' = partition child).
Proof.
  intros conf client store bc. cbv zeta.
  assert (∀ q, (handleResponses conf client store bc).1 !! q
               = if decide (q ∈ subscriptions bc)
                 then (λ child, (handleResponse conf client (bc_broker bc) child).1)
                        <$> store !! q
                 else store !! q) as Hlookup.
  { intros q. destruct (decide (q ∈ subscriptions bc)) as [Hin|Hout].
    - destruct (store !! q) as [child|] eqn:Hq.
      + by destruct (handleResponses_child conf client store bc q child Hin Hq).
      + unfold handleResponses.
        pose proof (handleResponses_fold_none conf client (bc_broker bc)
                      (elements (subscriptions bc)) (store, subscriptions bc) q Hq).
        by destruct (foldl _ _ _).
    - by destruct (handleResponses_outside conf client store bc q Hout). }
  split; [|split; [|split; [|split]]].
  - intros q Hq. rewrite Hlookup. by destruct (decide _).
  - intros q Hq. destruct (decide (q ∈ subscriptions bc)) as [|Hout]; [done|].
    by destruct (handleResponses_outside conf client store bc q Hout).
  - unfold handleResponses. by destruct (foldl _ _ _).
  - intros q. rewrite Hlookup. destruct (decide _); [|done].
    by rewrite fmap_None.
  - intros q child'. rewrite Hlookup. destruct (decide _).
    + intros (child & Hq & ->)%fmap_Some. exists child. split; [done|].
      destruct (handleResponse_keeps conf client (bc_broker bc) child)
        as (Ho & Hf & Hh & Ht & Hp & Hpa & _). done.
    + intros Hq. by exists child'.
Qed.

Lemma handleResponses_frame_witness :
  let conf := Scenario.conf ReadUncommitted 1024 8192 in
  let store : gmap nat partitionConsumer :=
    {[ 0%nat := answered_with ErrOffsetOutOfRange;
       1%nat := answered_with ErrOffsetOutOfRange ]} in
  let r := handleResponses conf leader_one store (mkBrokerConsumer 1 {[ 0%nat ]}) in
  r.1 !! 1%nat = Some (answered_with ErrOffsetOutOfRange)
  ∧ (1%nat ∉ subscriptions r.2).
Proof.
  intros conf store r.
  destruct (handleResponses_frame conf leader_one store (mkBrokerConsumer 1 {[ 0%nat ]}))
    as (Hout & Hsubs & _).
  assert (1%nat ∉ ({[ 0%nat ]} : gset nat)) as Hnot.
  { intros Hin. apply elem_of_singleton in Hin. discriminate. }
  split.
  - fold r in Hout. rewrite (Hout 1%nat Hnot). reflexivity.
  - intros Hin. apply Hnot. by apply Hsubs.
Defined.

(** ** preferredBroker *)

(** X10.  [preferredBroker] changes the consumer at most in its preferred
    read replica.  The preference survives the call only when the client
    knows that replica, which is then the broker returned, with the
    consumer's leader epoch; otherwise the preference is reset to the
    invalid identifier and the answer is the leader lookup.  Asking again
    gives the same answer and changes nothing more. *)
Theorem preferredBroker_falls_back :
  ∀ (client : Client) (child : partitionConsumer),
    let r := preferredBroker client child in
    (r.1 = child ∨ r.1 = set_preferredReadReplica invalidPreferredReplicaID child)
    ∧ (0 ≤ preferredReadReplica r.1 →
       ∃ broker, client_Broker client (preferredReadReplica child) = Ok broker
                 ∧ r = (child, Ok (broker, leaderEpoch child)))
    ∧ (preferredReadReplica r.1 < 0 →
       r.2 = client_LeaderAndEpoch client (topic child) (partition child))
    ∧ preferredBroker client r.1 = r.
Proof.
  intros client child. cbv zeta. unfold preferredBroker.
  destruct (Z.geb_spec (preferredReadReplica child) 0) as [Hset|Hunset].
  - destruct (client_Broker client (preferredReadReplica child)) as [broker|err] eqn:Hb;
      simpl.
    + split; [by left|]. split; [intros _; by exists broker|]. split; [lia|].
      destruct (Z.geb_spec (preferredReadReplica child) 0); [|lia]. by rewrite Hb.
    + split; [by right|]. split; [unfold invalidPreferredReplicaID; lia|].
      split; [done|]. done.
  - simpl. split; [by left|]. split; [lia|]. split; [done|].
    destruct (Z.geb_spec (preferredReadReplica child) 0); [lia|done].
Qed.

Lemma preferredBroker_falls_back_witness :
  let child := set_preferredReadReplica 5 (Scenario.subscription 42 1024) in
  preferredBroker replicas_known child = (child, Ok (5, 0))
  ∧ (preferredBroker leader_one child).2 = Ok (1, 0)
  ∧ preferredReadReplica (preferredBroker leader_one child).1 = invalidPreferredReplicaID.
Proof.
  intros child. split; [|split].
  - destruct (preferredBroker_falls_back replicas_known child) as (_ & Hkept & _).
    destruct Hkept as (broker & Hb & Hr); [vm_compute; discriminate|].
    rewrite Hr. injection Hb as <-. reflexivity.
  - destruct (preferredBroker_falls_back leader_one child) as (_ & _ & Hleader & _).
    rewrite Hleader; [reflexivity | vm_compute; reflexivity].
  - reflexivity.
Defined.

(** ** The blocks of a fetch request *)

Lemma addSubscription_blocks (store : gmap nat partitionConsumer) l :
  ∀ request,
    let request' := foldl (addSubscription store) request l in
    req_blocks request' = req_blocks request ++ unpausedBlocks store l
    ∧ req_MinBytes request' = req_MinBytes request
    ∧ req_MaxWaitTime request' = req_MaxWaitTime request.
Proof.
  induction l as [|p l IH]; intros request; simpl.
  - by rewrite app_nil_r.
  - destruct (IH (addSubscription store request p)) as (Hb & Hm & Hw).
    rewrite Hb, Hm, Hw. unfold addSubscription, unpausedBlocks. simpl.
    destruct (store !! p) as [child|]; [|done].
    destruct (IsPaused child); simpl; [done|].
    unfold AddBlock, blockFor. simpl. by rewrite <- app_assoc.
Qed.

Lemma fetchRequest_blocks MaxResponseSize conf store bc :
  req_blocks (fetchRequest MaxResponseSize conf store bc)
  = unpausedBlocks store (elements (subscriptions bc))
  ∧ req_MinBytes (fetchRequest MaxResponseSize conf store bc) = Consumer_Fetch_Min conf.
Proof.
  destruct (addSubscription_blocks store
              (elements (subscriptions bc)) (versionedRequest MaxResponseSize conf))
    as (Hb & Hm & _).
  assert (req_blocks (versionedRequest MaxResponseSize conf) = []
          ∧ req_MinBytes (versionedRequest MaxResponseSize conf) = Consumer_Fetch_Min conf)
    as [Hnil Hmin].
  { unfold versionedRequest, when. repeat case_match; done. }
  rewrite Hnil in Hb. simpl in Hb. fold (fetchRequest MaxResponseSize conf store bc) in Hb, Hm.
  by rewrite Hb, Hm.
Qed.

Lemma unpausedBlocks_elem (store : gmap nat partitionConsumer) (subs : gset nat) b :
  b ∈ unpausedBlocks store (elements subs)
  ↔ ∃ p child, p ∈ subs ∧ store !! p = Some child
               ∧ IsPaused child = false ∧ b = blockFor child.
Proof.
  unfold unpausedBlocks. rewrite list_elem_of_omap. split.
  - intros (p & Hp & Hsome). apply elem_of_elements in Hp.
    destruct (store !! p) as [child|] eqn:Hc; [|done].
    destruct (IsPaused child) eqn:Hpa; [done|]. injection Hsome as <-.
    by exists p, child.
  - intros (p & child & Hp & Hc & Hpa & ->). exists p.
    split; [by apply elem_of_elements|]. by rewrite Hc, Hpa.
Qed.

Lemma fetchNewMessages_idle MaxResponseSize Fetch conf store bc :
  fetchNewMessages MaxResponseSize Fetch conf store bc = Ok None
  ↔ ∀ p child, p ∈ subscriptions bc → store !! p = Some child → IsPaused child = true.
Proof.
  destruct (fetchRequest_blocks MaxResponseSize conf store bc) as [Hb _].
  pose proof (unpausedBlocks_elem store (subscriptions bc)) as Hmem.
  unfold fetchNewMessages. rewrite Hb.
  destruct (unpausedBlocks store (elements (subscriptions bc))) as [|b bs] eqn:Hblocks;
    simpl.
  - split; [|done]. intros _ p child Hp Hc.
    destruct (IsPaused child) eqn:Hpa; [done|].
    assert (blockFor child ∈ @nil fetchRequestBlock) as Hin
        by (apply Hmem; by exists p, child).
    by apply elem_of_nil in Hin.
  - split.
    + by destruct (Fetch _).
    + intros Hall. assert (b ∈ b :: bs) as Hin by left.
      apply Hmem in Hin as (p & child & Hp & Hc & Hpa & _).
      rewrite (Hall p child Hp Hc) in Hpa. done.
Qed.

(** X11.  The request [fetchNewMessages] builds holds one block for every
    subscription that is not paused, with the subscription's topic,
    partition, offset, fetch size and leader epoch, and none for a paused
    one; and [fetchNewMessages] returns without calling the broker exactly
    when every subscription is paused. *)
Theorem fetch_request_blocks :
  ∀ (MaxResponseSize : Z) (Fetch : FetchRequest → result FetchResponse)
    (conf : Config) (store : gmap nat partitionConsumer) (bc : brokerConsumer),
    let request := fetchRequest MaxResponseSize conf store bc in
    req_blocks request = unpausedBlocks store (elements (subscriptions bc))
    ∧ (∀ b, b ∈ req_blocks request
            ↔ ∃ p child, p ∈ subscriptions bc ∧ store !! p = Some child
                         ∧ IsPaused child = false ∧ b = blockFor child)
    ∧ req_MinBytes request = Consumer_Fetch_Min conf
    ∧ (fetchNewMessages MaxResponseSize Fetch conf store bc = Ok None
       ↔ ∀ p child, p ∈ subscriptions bc → store !! p = Some child →
                    IsPaused child = true).
Proof.
  intros MaxResponseSize Fetch conf store bc. cbv zeta.
  destruct (fetchRequest_blocks MaxResponseSize conf store bc) as [Hb Hm].
  split; [done|]. split; [intros b; rewrite Hb; apply unpausedBlocks_elem|].
  split; [done|]. apply fetchNewMessages_idle.
Qed.

Lemma fetch_request_blocks_witness :
  let conf := Scenario.conf ReadUncommitted 1024 8192 in
  let store : gmap nat partitionConsumer :=
    {[ 0%nat := set_paused 1 (Scenario.subscription 42 1024) ]} in
  fetchNewMessages 104857600 (λ _, Fail ErrLeaderNotAvailable) conf store
    (mkBrokerConsumer 1 {[ 0%nat ]}) = Ok None.
Proof.
  intros conf store.
  apply (fetch_request_blocks 104857600 (λ _, Fail ErrLeaderNotAvailable) conf store
           (mkBrokerConsumer 1 {[ 0%nat ]})).
  intros p child Hp Hc. simpl in Hp. apply elem_of_singleton in Hp as ->.
  unfold store in Hc. rewrite lookup_singleton_eq in Hc. by injection Hc as <-.
Defined.

(** ** The registry of broker consumers *)

(** Projections of an updated consumer. *)
Ltac regs :=
  unfold set_workers, set_brokerConsumers, set_children, set_heap in *;
  cbn [workers brokerConsumers children heap fst snd] in *.

Lemma registry_sound_mono n m c : n ≤ m → registry_sound n c → registry_sound m c.
Proof.
  intros Hnm [Hreg Hheap]. split; [done|].
  intros bc w Hw. destruct (Hheap bc w Hw) as (? & ? & ?). repeat split; [lia|lia|done|done].
Qed.

Lemma registry_step_sound n c call :
  0 ≤ n → n + 1 ≤ MaxInt64 →
  registry_sound n c → registry_sound (n + 1) (registry_step c call).
Proof.
  intros Hn Hmax [Hreg Hheap]. unfold registry_sound.
  destruct call as [broker|bc|bc]; simpl.
  - (* refBrokerConsumer *)
    unfold refBrokerConsumer, newBrokerConsumer.
    destruct (brokerConsumers c !! broker) as [bc|] eqn:Hb; regs.
    + destruct (Hreg broker bc Hb) as (w & Hw & Hwb & Hrefs & Hcl).
      destruct (Hheap bc w Hw) as (Hbound & _ & _).
      assert (add64 (refs w) 1 = refs w + 1) as Hadd.
      { unfold add64. apply wrap64_id. unfold is_int64, MinInt64, MaxInt64 in *. lia. }
      split.
      * intros broker' bc' Hb'. destruct (Hreg broker' bc' Hb') as (w' & Hw' & ? & ? & ?).
        destruct (decide (bc' = bc)) as [->|Hne].
        -- rewrite lookup_alter_eq, Hw. simpl. eexists. split; [done|]. simpl.
           rewrite Hadd. simplify_eq. repeat split; try done; try lia.
        -- rewrite lookup_alter_ne by done. by exists w'.
      * intros bc' w'. destruct (decide (bc' = bc)) as [->|Hne].
        -- rewrite lookup_alter_eq, Hw. simpl. intros [= <-]. simpl. rewrite Hadd.
           repeat split; try done; try lia.
        -- rewrite lookup_alter_ne by done. intros Hw'.
           destruct (Hheap bc' w' Hw') as (? & ? & ?). repeat split; try done; try lia.
    + pose proof (is_fresh (dom (workers c))) as Hfresh.
      rewrite not_elem_of_dom in Hfresh.
      set (bc := fresh (dom (workers c))) in *.
      regs. split.
      * intros broker' bc'. destruct (decide (broker' = broker)) as [->|Hne].
        -- rewrite lookup_insert_eq. intros [= <-].
           rewrite lookup_alter_eq, lookup_insert_eq. simpl. eexists. split; [done|].
           simpl. repeat split; try done; vm_compute; discriminate.
        -- rewrite lookup_insert_ne by done. intros Hb'.
           destruct (Hreg broker' bc' Hb') as (w' & Hw' & ? & ? & ?).
           assert (bc' ≠ bc) by (intros ->; congruence).
           rewrite lookup_alter_ne, lookup_insert_ne by done. by exists w'.
      * intros bc' w'. destruct (decide (bc' = bc)) as [->|Hne].
        -- rewrite lookup_alter_eq, lookup_insert_eq. simpl. intros [= <-]. simpl.
           change (add64 0 1) with 1. repeat split; try done; try lia.
        -- rewrite lookup_alter_ne, lookup_insert_ne by done. intros Hw'.
           destruct (Hheap bc' w' Hw') as (? & ? & ?). repeat split; try done; try lia.
  - (* unrefBrokerConsumer *)
    unfold unrefBrokerConsumer.
    destruct (workers c !! bc) as [w|] eqn:Hw;
      [|by apply (registry_sound_mono n); [lia|]].
    destruct (Hheap bc w Hw) as (Hbound & Hcl1 & Hclosed).
    assert (sub64 (refs w) 1 = refs w - 1) as Hsub.
    { unfold sub64. apply wrap64_id. unfold is_int64, MinInt64, MaxInt64 in *. lia. }
    cbn [refs worker_broker input input_closes]. rewrite Hsub.
    destruct (Z.eqb_spec (refs w - 1) 0) as [Hzero|Hnonzero].
    + assert (input_closes w = 0%nat) as Hopen.
      { destruct (input_closes w) as [|[|k]] eqn:Hk; [done| |lia].
        specialize (Hclosed eq_refl). lia. }
      assert (∀ broker' bc', brokerConsumers c !! broker' = Some bc' → bc' = bc →
                broker' = worker_broker w) as Hkey.
      { intros broker' bc' Hb' ->. destruct (Hreg broker' bc Hb') as (w' & Hw' & ? & _).
        congruence. }
      regs. case_bool_decide as Hsame; regs.
      * split.
        -- intros broker' bc' Hb'. apply lookup_delete_Some in Hb' as [Hne Hb'].
           destruct (Hreg broker' bc' Hb') as (w' & Hw' & ? & ? & ?).
           assert (bc' ≠ bc) by (intros Heq; apply Hne; symmetry; by eapply Hkey).
           rewrite lookup_insert_ne by done. by exists w'.
        -- intros bc' w'. destruct (decide (bc' = bc)) as [->|Hne].
           ++ rewrite lookup_insert_eq. intros [= <-]. simpl. rewrite Hopen.
              repeat split; try done; try lia.
           ++ rewrite lookup_insert_ne by done. intros Hw'.
              destruct (Hheap bc' w' Hw') as (? & ? & ?). repeat split; try done; try lia.
      * split.
        -- intros broker' bc' Hb'.
           destruct (Hreg broker' bc' Hb') as (w' & Hw' & ? & ? & ?).
           assert (bc' ≠ bc).
           { intros ->. apply Hsame. rewrite <- (Hkey broker' bc Hb' eq_refl). done. }
           rewrite lookup_insert_ne by done. by exists w'.
        -- intros bc' w'. destruct (decide (bc' = bc)) as [->|Hne].
           ++ rewrite lookup_insert_eq. intros [= <-]. simpl. rewrite Hopen.
              repeat split; try done; try lia.
           ++ rewrite lookup_insert_ne by done. intros Hw'.
              destruct (Hheap bc' w' Hw') as (? & ? & ?). repeat split; try done; try lia.
    + regs. split.
      * intros broker' bc' Hb'. destruct (Hreg broker' bc' Hb') as (w' & Hw' & ? & ? & ?).
        destruct (decide (bc' = bc)) as [->|Hne].
        -- rewrite lookup_insert_eq. eexists. split; [done|]. simpl.
           simplify_eq. repeat split; try done; try lia.
        -- rewrite lookup_insert_ne by done. by exists w'.
      * intros bc' w'. destruct (decide (bc' = bc)) as [->|Hne].
        -- rewrite lookup_insert_eq. intros [= <-]. simpl.
           repeat split; try done; try lia.
        -- rewrite lookup_insert_ne by done. intros Hw'.
           destruct (Hheap bc' w' Hw') as (? & ? & ?). repeat split; try done; try lia.
  - (* abandonBrokerConsumer *)
    unfold abandonBrokerConsumer.
    destruct (workers c !! bc) as [w|] eqn:Hw; [|by apply (registry_sound_mono n); [lia|]].
    regs. split.
    + intros broker' bc' Hb'. apply lookup_delete_Some in Hb' as [Hne Hb'].
      by apply Hreg.
    + intros bc' w' Hw'.
      destruct (Hheap bc' w' Hw') as (? & ? & ?). repeat split; try done; try lia.
Qed.

Lemma registry_run_sound calls :
  ∀ n c, 0 ≤ n → n + Z.of_nat (length calls) ≤ MaxInt64 →
    registry_sound n c →
    registry_sound (n + Z.of_nat (length calls)) (foldl registry_step c calls).
Proof.
  induction calls as [|call calls IH]; intros n c Hn Hmax Hc; cbn [foldl length] in *.
  - by rewrite Z.add_0_r.
  - replace (n + Z.of_nat (S (length calls)))
      with ((n + 1) + Z.of_nat (length calls)) by lia.
    apply IH; [lia|lia|]. apply registry_step_sound; [done|lia|done].
Qed.

(** X12.  After any sequence of fewer than 2^63 calls of
    [refBrokerConsumer], [unrefBrokerConsumer] and [abandonBrokerConsumer]
    on a new consumer, whatever their order and arguments, every registered
    broker consumer is registered under its own broker, holds at least one
    reference and has an open [input] channel, and no [input] channel has
    been closed twice. *)
Theorem registry_never_closes_twice :
  ∀ (calls : list registryCall),
    Z.of_nat (length calls) ≤ MaxInt64 →
    let c := foldl registry_step newConsumer calls in
    (∀ broker bc, brokerConsumers c !! broker = Some bc →
       ∃ w, workers c !! bc = Some w ∧ worker_broker w = broker
            ∧ 1 ≤ refs w ∧ input_closes w = 0%nat)
    ∧ (∀ bc w, workers c !! bc = Some w → (input_closes w ≤ 1)%nat).
Proof.
  intros calls Hlen. cbv zeta.
  destruct (registry_run_sound calls 0 newConsumer) as [Hreg Hheap]; [done|lia| |].
  { split; [intros ?? Hl|intros ?? Hl]; cbn [newConsumer brokerConsumers workers] in Hl;
      by rewrite lookup_empty in Hl. }
  split; [done|]. intros bc w Hw. by destruct (Hheap bc w Hw) as (_ & ? & _).
Qed.

Lemma registry_never_closes_twice_witness :
  let c := foldl registry_step newConsumer
             [callRef 1; callRef 1; callAbandon 0%nat; callRef 1;
              callUnref 0%nat; callUnref 0%nat; callUnref 0%nat] in
  brokerConsumers c !! 1 = Some 1%nat
  ∧ (input_closes <$> workers c !! 0%nat) = Some 1%nat
  ∧ ∀ bc w, workers c !! bc = Some w → (input_closes w ≤ 1)%nat.
Proof.
  intros c. split; [vm_compute; reflexivity|]. split; [vm_compute; reflexivity|].
  apply (registry_never_closes_twice
           [callRef 1; callRef 1; callAbandon 0%nat; callRef 1;
            callUnref 0%nat; callUnref 0%nat; callUnref 0%nat]).
  vm_compute. discriminate.
Defined.

(** ** The registry of partition consumers *)

Lemma addChild_cases p child c :
  match lookupChild c (topic child) (partition child) with
  | Some _ => (addChild p child c).1 = c ∧ (addChild p child c).2 ≠ None
  | None =>
      (addChild p child c).2 = None
      ∧ children (addChild p child c).1
        = <[topic child := <[partition child := p]> (default ∅ (children c !! topic child))]>
            (children c)
      ∧ brokerConsumers (addChild p child c).1 = brokerConsumers c
      ∧ workers (addChild p child c).1 = workers c
      ∧ heap (addChild p child c).1 = heap c
  end.
Proof.
  unfold lookupChild, addChild.
  destruct (children c !! topic child) as [topicChildren|] eqn:Ht; simpl.
  - destruct (topicChildren !! partition child) eqn:Hp; simpl; [done|].
    repeat split; done.
  - rewrite lookup_empty. simpl. rewrite insert_insert_eq. repeat split; done.
Qed.

(** X13.  [addChild] fails exactly when the topic and partition of the child
    are already being consumed, and then changes nothing.  When it succeeds
    the child is found under its topic and partition and every other entry
    is as before; [removeChild] then empties the place again but keeps the
    entry of the topic, so that [HighWaterMarks] goes on reporting a topic
    all of whose partition consumers are gone. *)
Theorem children_registry :
  ∀ (p : nat) (child : partitionConsumer) (c : consumer),
    let added := addChild p child c in
    let removed := removeChild child added.1 in
    (added.2 = None ↔ lookupChild c (topic child) (partition child) = None)
    ∧ (added.2 ≠ None → added.1 = c)
    ∧ (added.2 = None →
       lookupChild added.1 (topic child) (partition child) = Some p
       ∧ (∀ topic_ partition_,
            (topic_, partition_) ≠ (topic child, partition child) →
            lookupChild added.1 topic_ partition_ = lookupChild c topic_ partition_
            ∧ lookupChild removed topic_ partition_ = lookupChild c topic_ partition_)
       ∧ lookupChild removed (topic child) (partition child) = None
       ∧ (children c !! topic child = None →
          children removed !! topic child = Some ∅
          ∧ HighWaterMarks removed !! topic child = Some ∅)).
Proof.
  intros p child c. cbv zeta.
  pose proof (addChild_cases p child c) as Hcases.
  destruct (lookupChild c (topic child) (partition child)) as [q|] eqn:Hocc.
  - destruct Hcases as [Hsame Herr]. split; [split; [done|discriminate]|].
    split; [done|]. intros Hnone. done.
  - destruct Hcases as (Hok & Hch & _ & _ & _).
    split; [done|]. split; [done|]. intros _.
    assert (∀ topic_ partition_,
              lookupChild (addChild p child c).1 topic_ partition_
              = if decide ((topic_, partition_) = (topic child, partition child))
                then Some p else lookupChild c topic_ partition_) as Hadded.
    { intros topic_ partition_. unfold lookupChild in *. rewrite Hch.
      destruct (decide (topic_ = topic child)) as [->|Hne].
      - rewrite lookup_insert_eq. simpl.
        destruct (decide (partition_ = partition child)) as [->|Hnp].
        + rewrite lookup_insert_eq. by rewrite decide_True.
        + rewrite lookup_insert_ne by done. rewrite decide_False by congruence.
          by destruct (children c !! topic child).
      - rewrite lookup_insert_ne by done. rewrite decide_False by congruence. done. }
    assert (children (removeChild child (addChild p child c).1)
            = <[topic child := delete (partition child)
                                 (default ∅ (children c !! topic child))]> (children c))
      as Hremoved.
    { unfold removeChild. rewrite Hch, lookup_insert_eq. simpl.
      rewrite insert_insert_eq, delete_insert_eq. done. }
    assert (∀ topic_ partition_,
              lookupChild (removeChild child (addChild p child c).1) topic_ partition_
              = if decide ((topic_, partition_) = (topic child, partition child))
                then None else lookupChild c topic_ partition_) as Hgone.
    { intros topic_ partition_. unfold lookupChild in *. rewrite Hremoved.
      destruct (decide (topic_ = topic child)) as [->|Hne].
      - rewrite lookup_insert_eq. simpl.
        destruct (decide (partition_ = partition child)) as [->|Hnp].
        + rewrite lookup_delete_eq. by rewrite decide_True.
        + rewrite lookup_delete_ne by done. rewrite decide_False by congruence.
          by destruct (children c !! topic child).
      - rewrite lookup_insert_ne by done. rewrite decide_False by congruence. done. }
    split; [by rewrite Hadded, decide_True|].
    split; [intros topic_ partition_ Hne; by rewrite Hadded, Hgone, !decide_False|].
    split; [by rewrite Hgone, decide_True|].
    intros Hfresh. unfold HighWaterMarks. rewrite lookup_fmap, Hremoved, lookup_insert_eq.
    rewrite Hfresh. simpl. rewrite delete_empty. split; [done|].
    by rewrite omap_empty.
Qed.

Lemma children_registry_witness :
  let child := Scenario.subscription 42 1024 in
  let added := addChild 0%nat child newConsumer in
  lookupChild added.1 "events" 0 = Some 0%nat
  ∧ (addChild 1%nat child added.1).2 ≠ None
  ∧ HighWaterMarks (removeChild child added.1) !! "events" = Some ∅.
Proof.
  intros child added.
  destruct (children_registry 0%nat child newConsumer) as (Hfree & _ & Hok).
  destruct Hok as (Hfound & _ & _ & Hkept); [by apply Hfree|].
  split; [exact Hfound|]. split.
  - destruct (children_registry 1%nat child added.1) as (Hocc & _).
    intros Hnone. apply Hocc in Hnone. fold added in Hfound.
    change (topic child) with "events" in *. change (partition child) with 0 in *.
    congruence.
  - by destruct Hkept.
Defined.

(** ** ConsumePartition *)

Lemma chooseStartingOffset_cases ON OO GetOffset offset_ child :
  let r := chooseStartingOffset ON OO GetOffset offset_ child in
  r.2 = None →
  ∃ newest oldest,
    GetOffset (topic child) (partition child) ON = Ok newest
    ∧ GetOffset (topic child) (partition child) OO = Ok oldest
    ∧ r.1 = set_offset (offset r.1) (set_highWaterMarkOffset newest child)
    ∧ offset r.1 = (if offset_ =? ON then newest
                    else if offset_ =? OO then oldest else offset_)
    ∧ (offset_ ≠ ON → offset_ ≠ OO → oldest ≤ offset_ ≤ newest).
Proof.
  cbv zeta. unfold chooseStartingOffset.
  destruct (GetOffset (topic child) (partition child) ON) as [newest|err]; [|done].
  fields.
  destruct (GetOffset (topic child) (partition child) OO) as [oldest|err]; [|done].
  intros Hok. exists newest, oldest. split; [done|]. split; [done|].
  destruct (Z.eqb_spec offset_ ON) as [->|Hn]; fields; [by repeat split|].
  destruct (Z.eqb_spec offset_ OO) as [->|Ho]; fields; [by repeat split|].
  destruct (Z.leb_spec oldest offset_); destruct (Z.leb_spec offset_ newest);
    simpl in *; try done.
  all: repeat split; try done; lia.
Qed.

(** X14.  [ConsumePartition] either fails and leaves the consumer as it
    was, or registers a new partition consumer under the topic and partition,
    which were free, and sends it to the broker consumer registered for the
    leader of the partition.  The new consumer starts with the newest offset
    as its high water mark, the default fetch size, the leader's epoch and no
    preferred replica; its offset is the newest or oldest offset when one of
    them was asked for by its constant, and otherwise the offset asked for,
    which then lies between the oldest and the newest. *)
Theorem ConsumePartition_all_or_nothing :
  ∀ (OffsetNewest OffsetOldest invalidLeaderEpoch : Z)
    (GetOffset : string → Z → Z → result Z) (conf : Config) (client : Client)
    (topic_ : string) (partition_ offset_ : Z) (c : consumer),
    (∀ broker bc, brokerConsumers c !! broker = Some bc → is_Some (workers c !! bc)) →
    let r := ConsumePartition OffsetNewest OffsetOldest invalidLeaderEpoch GetOffset
               conf client topic_ partition_ offset_ c in
    (∀ err, r.2 = Fail err → r.1 = c)
    ∧ (∀ p, r.2 = Ok p →
         heap c !! p = None
         ∧ lookupChild c topic_ partition_ = None
         ∧ lookupChild r.1 topic_ partition_ = Some p
         ∧ ∃ child newest oldest leader epoch bc w,
             heap r.1 !! p = Some child
             ∧ GetOffset topic_ partition_ OffsetNewest = Ok newest
             ∧ GetOffset topic_ partition_ OffsetOldest = Ok oldest
             ∧ client_LeaderAndEpoch client topic_ partition_ = Ok (leader, epoch)
             ∧ topic child = topic_ ∧ partition child = partition_
             ∧ highWaterMarkOffset child = newest
             ∧ leaderEpoch child = epoch
             ∧ fetchSize child = Consumer_Fetch_Default conf
             ∧ preferredReadReplica child = invalidPreferredReplicaID
             ∧ offset child = (if offset_ =? OffsetNewest then newest
                               else if offset_ =? OffsetOldest then oldest else offset_)
             ∧ (offset_ ≠ OffsetNewest → offset_ ≠ OffsetOldest →
                oldest ≤ offset_ ≤ newest)
             ∧ brokerConsumers r.1 !! leader = Some bc
             ∧ workers r.1 !! bc = Some w
             ∧ last (input w) = Some p).
Proof.
  intros ON OO iLE GetOffset conf client topic_ partition_ offset_ c Hwf. cbv zeta.
  unfold ConsumePartition.
  set (child0 := mkPartitionConsumer 0 iLE invalidPreferredReplicaID
                   (mkSignalChan 0 false) topic_ partition_ None
                   (Consumer_Fetch_Default conf) 0 0 0 [] []).
  pose proof (chooseStartingOffset_cases ON OO GetOffset offset_ child0) as Hstart.
  cbv zeta in Hstart.
  destruct (chooseStartingOffset ON OO GetOffset offset_ child0) as [child [err|]];
    [split; [done|intros p [=]]|].
  destruct Hstart as (newest & oldest & Hnew & Hold & Hchild & Hoff & Hrange); [done|].
  cbn [fst snd] in Hchild, Hoff.
  assert (topic child = topic_ ∧ partition child = partition_) as [Ht Hp]
      by (rewrite Hchild; done).
  rewrite Ht, Hp.
  destruct (client_LeaderAndEpoch client topic_ partition_) as [[leader epoch]|err] eqn:Hl;
    [|split; [done|intros p [=]]].
  set (p := fresh (dom (heap c))).
  pose proof (is_fresh (dom (heap c))) as Hfresh. rewrite not_elem_of_dom in Hfresh.
  fold p in Hfresh.
  pose proof (addChild_cases p child c) as Hadd. rewrite Ht, Hp in Hadd.
  destruct (lookupChild c topic_ partition_) as [q|] eqn:Hfree.
  { destruct Hadd as [Hsame Herr].
    destruct (addChild p child c) as [c1 [err|]]; [|done].
    simpl in Hsame. subst c1. split; [done|intros ? [=]]. }
  destruct Hadd as (Hok & Hch & Hbc & Hw & Hh).
  assert (lookupChild (addChild p child c).1 topic_ partition_ = Some p) as Hfound.
  { unfold lookupChild. rewrite Hch, lookup_insert_eq. simpl. by rewrite lookup_insert_eq. }
  destruct (addChild p child c) as [c1 [err|]]; [done|]. cbn [fst snd] in *.
  split.
  { intros err. destruct (refBrokerConsumer leader c1). intros [=]. }
  intros p' Hret.
  assert (p' = p) as -> by (destruct (refBrokerConsumer leader c1); by injection Hret).
  clear Hret.
  assert (∃ bc w,
            brokerConsumers (refBrokerConsumer leader c1).1 !! leader = Some bc
            ∧ (refBrokerConsumer leader c1).2 = bc
            ∧ workers (refBrokerConsumer leader c1).1 !! bc = Some w
            ∧ children (refBrokerConsumer leader c1).1 = children c1) as
    (bc & w & Hreg & Hbceq & Hworker & Hchildren).
  { unfold refBrokerConsumer, newBrokerConsumer.
    destruct (brokerConsumers c1 !! leader) as [bc|] eqn:Hb; regs.
    - destruct (Hwf leader bc) as [w Hwk]; [by rewrite <- Hbc|].
      rewrite <- Hw in Hwk. eexists bc, _. split; [done|]. split; [done|].
      split; [|done]. rewrite lookup_alter_eq, Hwk. done.
    - eexists _, _. rewrite lookup_insert_eq. split; [done|]. split; [done|].
      split; [|done]. rewrite lookup_alter_eq, lookup_insert_eq. done. }
  destruct (refBrokerConsumer leader c1) as [c2 bc']. cbn [fst snd] in *. subst bc'.
  regs.
  split; [done|]. split; [done|].
  split; [unfold lookupChild in *; regs; by rewrite Hchildren|].
  eexists _, newest, oldest, leader, epoch, bc, _.
  rewrite lookup_insert_eq, lookup_alter_eq, Hworker. simpl.
  split; [done|]. rewrite Hchild. unfold set_leaderEpoch. subst child0. fields.
  repeat (split; [done|]). cbn [input]. rewrite last_snoc. done.
Qed.

Lemma ConsumePartition_all_or_nothing_witness :
  let conf := Scenario.conf ReadUncommitted 1024 8192 in
  let first := ConsumePartition (-1) (-2) (-1) offsets_100_200 conf leader_one
                 "events" 0 150 newConsumer in
  let second := ConsumePartition (-1) (-2) (-1) offsets_100_200 conf leader_one
                  "events" 0 (-1) first.1 in
  let third := ConsumePartition (-1) (-2) (-1) offsets_100_200 conf leader_one
                 "events" 1 99 first.1 in
  first.2 = Ok 0%nat ∧ second.1 = first.1 ∧ third.1 = first.1.
Proof.
  intros conf first second third.
  assert (∀ broker bc, brokerConsumers first.1 !! broker = Some bc →
                       is_Some (workers first.1 !! bc)) as Hwf.
  { intros broker bc. vm_compute. destruct broker as [|[| |]|]; try discriminate.
    intros [= <-]. eexists. reflexivity. }
  split; [vm_compute; reflexivity|]. split.
  - apply (ConsumePartition_all_or_nothing (-1) (-2) (-1) offsets_100_200 conf leader_one
             "events" 0 (-1) first.1 Hwf) with (err := OtherError
             "That topic/partition is already being consumed").
    vm_compute. reflexivity.
  - apply (ConsumePartition_all_or_nothing (-1) (-2) (-1) offsets_100_200 conf leader_one
             "events" 1 99 first.1 Hwf) with (err := ErrOffsetOutOfRange).
    vm_compute. reflexivity.
Defined.

(** ** Pausing and resuming *)

Section Visit.

Variable f : partitionConsumer → partitionConsumer.
Hypothesis f_idempotent : ∀ child, f (f child) = f child.

(** Calling [f] on the partition consumers of a list of references. *)
Lemma visit_heap (pcs : list nat) :
  ∀ c q,
    let c' := foldl (λ c pc, set_heap (alter f pc (heap c)) c) c pcs in
    children c' = children c ∧ brokerConsumers c' = brokerConsumers c
    ∧ workers c' = workers c
    ∧ heap c' !! q = if decide (q ∈ pcs) then f <$> heap c !! q else heap c !! q.
Proof.
  induction pcs as [|pc pcs IH]; intros c q; cbn [foldl].
  - rewrite decide_False by apply not_elem_of_nil. done.
  - cbv zeta in IH.
    destruct (IH (set_heap (alter f pc (heap c)) c) q) as (Hc & Hb & Hw & Hh).
    rewrite Hc, Hb, Hw, Hh. regs. repeat (split; [done|]).
    destruct (decide (q = pc)) as [->|Hne].
    + rewrite lookup_alter_eq. rewrite (decide_True (P := pc ∈ pc :: pcs)) by left.
      destruct (decide (pc ∈ pcs)); [|done].
      destruct (heap c !! pc); simpl; [|done]. by rewrite f_idempotent.
    + rewrite lookup_alter_ne by done.
      destruct (decide (q ∈ pcs)) as [Hin|Hout].
      * rewrite decide_True by (by right). done.
      * rewrite decide_False; [done|]. by intros [?|?]%elem_of_cons.
Qed.

Lemma at_partition_visit topic_ c partition_ :
  at_partition f topic_ c partition_
  = foldl (λ c pc, set_heap (alter f pc (heap c)) c) c
      (option_list (lookupChild c topic_ partition_)).
Proof.
  unfold at_partition, lookupChild.
  destruct (children c !! topic_) as [topicConsumers|]; simpl; [|done].
  by destruct (topicConsumers !! partition_).
Qed.

(** The references the loops of [Pause] and [Resume] call [f] on. *)
Lemma at_partitions_visit (tps : list (string * list Z)) :
  ∀ c,
    foldl (λ c tp, foldl (at_partition f tp.1) c tp.2) c tps
    = foldl (λ c pc, set_heap (alter f pc (heap c)) c) c
        (tps ≫= λ tp, tp.2 ≫= λ partition_, option_list (lookupChild c tp.1 partition_)).
Proof.
  assert (∀ topic_ partitions c,
            foldl (at_partition f topic_) c partitions
            = foldl (λ c pc, set_heap (alter f pc (heap c)) c) c
                (partitions ≫= λ partition_, option_list (lookupChild c topic_ partition_)))
    as Hinner.
  { intros topic_ partitions. induction partitions as [|partition_ partitions IH];
      intros c; [done|].
    cbn [foldl mbind list_bind]. change (mbind ?g ?l) with (l ≫= g).
    rewrite foldl_app, <- at_partition_visit, IH.
    f_equal. apply list_bind_ext; [|done]. intros q.
    unfold lookupChild.
    destruct (visit_heap (option_list (lookupChild c topic_ partition_)) c 0%nat)
      as (Hc & _). cbv zeta in Hc. rewrite <- at_partition_visit in Hc. by rewrite Hc. }
  induction tps as [|[topic_ partitions] tps IH]; intros c; [done|].
  cbn [foldl mbind list_bind fst snd]. change (mbind ?g ?l) with (l ≫= g).
  rewrite foldl_app, <- Hinner, IH. f_equal. apply list_bind_ext; [|done].
  intros [topic' partitions']. cbn [fst snd]. apply list_bind_ext; [|done]. intros q.
  unfold lookupChild.
  destruct (visit_heap (partitions ≫= λ partition_,
                          option_list (lookupChild c topic_ partition_)) c 0%nat)
    as (Hc & _). cbv zeta in Hc. rewrite <- Hinner in Hc. by rewrite Hc.
Qed.

Lemma at_partitions_heap topicPartitions c :
  let c' := at_partitions f topicPartitions c in
  children c' = children c ∧ brokerConsumers c' = brokerConsumers c
  ∧ workers c' = workers c
  ∧ (∀ q, listed topicPartitions c q → heap c' !! q = f <$> heap c !! q)
  ∧ (∀ q, ¬ listed topicPartitions c q → heap c' !! q = heap c !! q).
Proof.
  cbv zeta. unfold at_partitions. rewrite at_partitions_visit.
  set (pcs := map_to_list topicPartitions ≫= _).
  assert (∀ q, q ∈ pcs ↔ listed topicPartitions c q) as Hpcs.
  { intros q. unfold pcs, listed. rewrite list_elem_of_bind. split.
    - intros ([topic_ partitions] & Hq & Htp). cbn [fst snd] in Hq.
      apply list_elem_of_bind in Hq as (partition_ & Hq & Hin).
      apply elem_of_map_to_list in Htp.
      exists topic_, partitions, partition_. split; [done|]. split; [done|].
      destruct (lookupChild c topic_ partition_); simpl in Hq;
        [by apply list_elem_of_singleton in Hq as ->|by apply elem_of_nil in Hq].
    - intros (topic_ & partitions & partition_ & Htp & Hin & Hq).
      exists (topic_, partitions). split; [|by apply elem_of_map_to_list].
      cbn [fst snd]. apply list_elem_of_bind. exists partition_. split; [|done].
      rewrite Hq. simpl. by apply list_elem_of_singleton. }
  pose proof (visit_heap pcs c) as Hvisit. cbv zeta in Hvisit.
  destruct (Hvisit 0%nat) as (Hc & Hb & Hw & _). repeat (split; [done|]).
  split; intros q Hq; destruct (Hvisit q) as (_ & _ & _ & ->).
  - by rewrite decide_True by by apply Hpcs.
  - by rewrite decide_False by by rewrite Hpcs.
Qed.

Lemma at_all_heap c :
  let c' := at_all f c in
  children c' = children c ∧ brokerConsumers c' = brokerConsumers c
  ∧ workers c' = workers c
  ∧ (∀ q, registered c q → heap c' !! q = f <$> heap c !! q)
  ∧ (∀ q, ¬ registered c q → heap c' !! q = heap c !! q).
Proof.
  cbv zeta. unfold at_all.
  assert (∀ (tps : list (string * gmap Z nat)) c,
            foldl (λ c tp, foldl (λ c pp, set_heap (alter f pp.2 (heap c)) c) c
                             (map_to_list tp.2)) c tps
            = foldl (λ c pc, set_heap (alter f pc (heap c)) c) c
                (tps ≫= λ tp, (map_to_list tp.2).*2)) as Hflat.
  { intros tps. induction tps as [|tp tps IH]; intros c0; [done|].
    cbn [foldl mbind list_bind]. change (mbind ?g ?l) with (l ≫= g).
    rewrite foldl_app, IH. f_equal.
    generalize (map_to_list tp.2). intros l. revert c0.
    induction l as [|pp l IHl]; intros c0; [done|]. cbn [foldl fmap list_fmap]. apply IHl. }
  rewrite Hflat.
  set (pcs := map_to_list (children c) ≫= _).
  assert (∀ q, q ∈ pcs ↔ registered c q) as Hpcs.
  { intros q. unfold pcs, registered, lookupChild. rewrite list_elem_of_bind. split.
    - intros ([topic_ topicConsumers] & Hq & Htp). cbn [snd] in Hq.
      apply list_elem_of_fmap in Hq as ([partition_ pc] & -> & Hq).
      apply elem_of_map_to_list in Htp, Hq.
      exists topic_, partition_. rewrite Htp. done.
    - intros (topic_ & partition_ & Hq).
      destruct (children c !! topic_) as [topicConsumers|] eqn:Htp; [|done].
      simpl in Hq. exists (topic_, topicConsumers).
      split; [|by apply elem_of_map_to_list]. cbn [snd].
      apply list_elem_of_fmap. exists (partition_, q). split; [done|].
      by apply elem_of_map_to_list. }
  pose proof (visit_heap pcs c) as Hvisit. cbv zeta in Hvisit.
  destruct (Hvisit 0%nat) as (Hc & Hb & Hw & _). repeat (split; [done|]).
  split; intros q Hq; destruct (Hvisit q) as (_ & _ & _ & ->).
  - by rewrite decide_True by by apply Hpcs.
  - by rewrite decide_False by by rewrite Hpcs.
Qed.

End Visit.

Lemma child_Pause_idempotent child : child_Pause (child_Pause child) = child_Pause child.
Proof. done. Qed.

Lemma child_Resume_idempotent child : child_Resume (child_Resume child) = child_Resume child.
Proof. done. Qed.

(** X15.  [Pause] of the consumer pauses the partition consumers registered
    under the topics and partitions given, and changes nothing else: not the
    registries, not any other partition consumer, and of a paused one only
    the pause flag.  The next fetch request of a broker consumer then holds
    no block for a paused partition, and for the others the blocks it would
    have held. *)
Theorem Pause_withholds_fetch :
  ∀ (topicPartitions : gmap string (list Z)) (c : consumer)
    (MaxResponseSize : Z) (conf : Config) (bc : brokerConsumer),
    let c' := Pause topicPartitions c in
    children c' = children c ∧ brokerConsumers c' = brokerConsumers c
    ∧ workers c' = workers c
    ∧ (∀ q, listed topicPartitions c q → heap c' !! q = set_paused 1 <$> heap c !! q)
    ∧ (∀ q, ¬ listed topicPartitions c q → heap c' !! q = heap c !! q)
    ∧ (∀ b, b ∈ req_blocks (fetchRequest MaxResponseSize conf (heap c') bc)
            ↔ ∃ p child, p ∈ subscriptions bc ∧ ¬ listed topicPartitions c p
                         ∧ heap c !! p = Some child
                         ∧ IsPaused child = false ∧ b = blockFor child).
Proof.
  intros topicPartitions c MaxResponseSize conf bc. cbv zeta.
  destruct (at_partitions_heap child_Pause child_Pause_idempotent topicPartitions c)
    as (Hc & Hb & Hw & Hin & Hout).
  fold (Pause topicPartitions c) in *.
  repeat (split; [done|]).
  intros b. destruct (fetchRequest_blocks MaxResponseSize conf
                        (heap (Pause topicPartitions c)) bc) as [-> _].
  rewrite unpausedBlocks_elem. split.
  - intros (p & child' & Hp & Hchild' & Hpaused & ->).
    assert (¬ listed topicPartitions c p) as Hnot.
    { intros Hl. rewrite (Hin p Hl) in Hchild'.
      destruct (heap c !! p) as [child|]; [|done]. injection Hchild' as <-. done. }
    exists p, child'. rewrite <- (Hout p Hnot). done.
  - intros (p & child & Hp & Hnot & Hchild & Hpaused & ->).
    exists p, child. by rewrite (Hout p Hnot).
Qed.

Lemma Pause_withholds_fetch_witness :
  let conf := Scenario.conf ReadUncommitted 1024 8192 in
  let c := (ConsumePartition (-1) (-2) (-1) offsets_100_200 conf leader_one
              "events" 0 150 newConsumer).1 in
  let c' := Pause {[ "events" := [0] ]} c in
  (IsPaused <$> heap c' !! 0%nat) = Some true
  ∧ req_blocks (fetchRequest 104857600 conf (heap c') (mkBrokerConsumer 1 {[ 0%nat ]})) = [].
Proof.
  intros conf c c'.
  destruct (Pause_withholds_fetch {[ "events" := [0] ]} c 104857600 conf
              (mkBrokerConsumer 1 {[ 0%nat ]})) as (_ & _ & _ & Hin & _ & Hblocks).
  assert (listed {[ "events" := [0] ]} c 0%nat) as Hlisted.
  { exists "events", [0], 0. split; [reflexivity|]. split; [left|]. vm_compute. reflexivity. }
  split.
  - fold c' in Hin. rewrite (Hin 0%nat Hlisted). vm_compute. reflexivity.
  - fold c' in Hblocks.
    destruct (req_blocks (fetchRequest 104857600 conf (heap c')
                (mkBrokerConsumer 1 {[0%nat]}))) as [|b bs]; [reflexivity|].
    destruct (proj1 (Hblocks b)) as (p & child & Hp & Hnot & _); [left|].
    cbn [subscriptions] in Hp. apply elem_of_singleton in Hp as ->. by destruct Hnot.
Defined.

(** X16.  [Resume] after [Pause] of the same topics and partitions leaves
    every partition consumer they list unpaused, also one that was paused
    before, and every other partition consumer as it was. *)
Theorem Resume_after_Pause :
  ∀ (topicPartitions : gmap string (list Z)) (c : consumer),
    let c' := Resume topicPartitions (Pause topicPartitions c) in
    children c' = children c
    ∧ (∀ q, listed topicPartitions c q → heap c' !! q = set_paused 0 <$> heap c !! q)
    ∧ (∀ q child', listed topicPartitions c q → heap c' !! q = Some child' →
         IsPaused child' = false)
    ∧ (∀ q, ¬ listed topicPartitions c q → heap c' !! q = heap c !! q).
Proof.
  intros topicPartitions c. cbv zeta.
  destruct (at_partitions_heap child_Pause child_Pause_idempotent topicPartitions c)
    as (Hc & _ & _ & Hin & Hout).
  fold (Pause topicPartitions c) in *.
  destruct (at_partitions_heap child_Resume child_Resume_idempotent topicPartitions
              (Pause topicPartitions c)) as (Hc' & _ & _ & Hin' & Hout').
  fold (Resume topicPartitions (Pause topicPartitions c)) in *.
  assert (∀ q, listed topicPartitions (Pause topicPartitions c) q
               ↔ listed topicPartitions c q) as Hsame.
  { intros q. unfold listed, lookupChild. by rewrite Hc. }
  assert (∀ q, listed topicPartitions c q →
               heap (Resume topicPartitions (Pause topicPartitions c)) !! q
               = set_paused 0 <$> heap c !! q) as Hresumed.
  { intros q Hq. rewrite Hin' by by apply Hsame. rewrite (Hin q Hq).
    by destruct (heap c !! q). }
  split; [by rewrite Hc', Hc|]. split; [done|]. split.
  - intros q child' Hq. rewrite (Hresumed q Hq).
    destruct (heap c !! q); [|done]. by intros [= <-].
  - intros q Hq. rewrite Hout' by by rewrite Hsame. by apply Hout.
Qed.

Lemma Resume_after_Pause_witness :
  let conf := Scenario.conf ReadUncommitted 1024 8192 in
  let c := (ConsumePartition (-1) (-2) (-1) offsets_100_200 conf leader_one
              "events" 0 150 newConsumer).1 in
  (IsPaused <$> heap (Resume {[ "events" := [0] ]} (Pause {[ "events" := [0] ]} c)) !! 0%nat)
  = Some false.
Proof.
  intros conf c.
  destruct (Resume_after_Pause {[ "events" := [0] ]} c) as (_ & Hin & _).
  rewrite Hin; [vm_compute; reflexivity|].
  exists "events", [0], 0. split; [reflexivity|]. split; [left|]. vm_compute. reflexivity.
Defined.

(** X17.  [PauseAll] pauses every registered partition consumer and touches
    no other; a broker consumer whose subscriptions are all registered then
    makes no fetch at all.  [ResumeAll] after it leaves every registered
    partition consumer unpaused. *)
Theorem PauseAll_stops_fetching :
  ∀ (c : consumer),
    (∀ q, registered c q → heap (PauseAll c) !! q = set_paused 1 <$> heap c !! q)
    ∧ (∀ q, ¬ registered c q → heap (PauseAll c) !! q = heap c !! q)
    ∧ children (PauseAll c) = children c
    ∧ (∀ (MaxResponseSize : Z) (Fetch : FetchRequest → result FetchResponse)
         (conf : Config) (bc : brokerConsumer),
         (∀ p, p ∈ subscriptions bc → registered c p) →
         fetchNewMessages MaxResponseSize Fetch conf (heap (PauseAll c)) bc = Ok None)
    ∧ (∀ q, registered c q →
         heap (ResumeAll (PauseAll c)) !! q = set_paused 0 <$> heap c !! q).
Proof.
  intros c.
  destruct (at_all_heap child_Pause child_Pause_idempotent c) as (Hc & _ & _ & Hin & Hout).
  fold (PauseAll c) in *.
  destruct (at_all_heap child_Resume child_Resume_idempotent (PauseAll c))
    as (_ & _ & _ & Hin' & _).
  fold (ResumeAll (PauseAll c)) in *.
  repeat (split; [done|]). split.
  - intros MaxResponseSize Fetch conf bc Hsubs. apply fetchNewMessages_idle.
    intros p child' Hp. rewrite (Hin p (Hsubs p Hp)).
    destruct (heap c !! p); [|done]. by intros [= <-].
  - intros q Hq. rewrite Hin'.
    + rewrite (Hin q Hq). by destruct (heap c !! q).
    + unfold registered, lookupChild in *. by rewrite Hc.
Qed.

Lemma PauseAll_stops_fetching_witness :
  let conf := Scenario.conf ReadUncommitted 1024 8192 in
  let c := (ConsumePartition (-1) (-2) (-1) offsets_100_200 conf leader_one
              "events" 0 150 newConsumer).1 in
  fetchNewMessages 104857600 (λ _, Fail ErrLeaderNotAvailable) conf (heap (PauseAll c))
    (mkBrokerConsumer 1 {[ 0%nat ]}) = Ok None.
Proof.
  intros conf c.
  destruct (PauseAll_stops_fetching c) as (_ & _ & _ & Hidle & _).
  apply Hidle. intros p Hp. cbn [subscriptions] in Hp.
  apply elem_of_singleton in Hp as ->. exists "events", 0. vm_compute. reflexivity.
Defined.

(** ** One round of the broker consumer *)

Lemma updateSubscriptions_spec dying newSubscriptions store bc :
  let r := updateSubscriptions dying newSubscriptions store bc in
  let all : gset nat := subscriptions bc ∪ list_to_set newSubscriptions in
  subscriptions r.2 = all ∖ dying
  ∧ bc_broker r.2 = bc_broker bc
  ∧ (∀ q, r.1 !! q = if decide (q ∈ all ∧ q ∈ dying)
                     then (λ c, set_trigger (chan_close (trigger c)) c) <$> store !! q
                     else store !! q).
Proof.
  cbv zeta. unfold updateSubscriptions.
  assert (∀ l (s : gset nat),
            foldl (λ subs child, {[child]} ∪ subs) s l = s ∪ list_to_set l) as Hadd.
  { induction l as [|x l IH]; intros s; simpl.
    - by rewrite (right_id_L ∅ (∪)).
    - rewrite IH. rewrite (comm_L (∪) {[x]} s), <- (assoc_L (∪)). done. }
  rewrite Hadd. set (all := subscriptions bc ∪ list_to_set newSubscriptions).
  assert (∀ l, NoDup l → ∀ (st : gmap nat partitionConsumer * gset nat),
            let st' := foldl (λ st child,
                                if bool_decide (child ∈ dying)
                                then (alter (λ c, set_trigger (chan_close (trigger c)) c)
                                        child st.1, st.2 ∖ {[child]})
                                else st) st l in
            (∀ q, q ∈ st'.2 ↔ q ∈ st.2 ∧ ¬ (q ∈ l ∧ q ∈ dying))
            ∧ (∀ q, st'.1 !! q
                    = if decide (q ∈ l ∧ q ∈ dying)
                      then (λ c, set_trigger (chan_close (trigger c)) c) <$> st.1 !! q
                      else st.1 !! q)) as Hloop.
  { induction 1 as [|x l Hx Hnodup IH]; intros st; cbn [foldl].
    - split; intros q.
      + split; [intros ?; split; [done|]; intros [[]%elem_of_nil _]|by intros [? _]].
      + rewrite decide_False; [done|]. by intros [[]%elem_of_nil _].
    - cbv zeta in IH. destruct (IH (if bool_decide (x ∈ dying)
                                    then (alter (λ c, set_trigger (chan_close (trigger c)) c)
                                            x st.1, st.2 ∖ {[x]})
                                    else st)) as [Hs Hl].
      split; intros q.
      + rewrite Hs. case_bool_decide as Hd; cbn [fst snd].
        * rewrite elem_of_difference, elem_of_singleton, elem_of_cons.
          split; [intros [[? ?] ?]|intros [? ?]]; repeat split; try done.
          -- intros [[->|?] ?]; tauto.
          -- intros ->. tauto.
          -- intros [? ?]. tauto.
        * rewrite elem_of_cons. split; intros [? Hn]; (split; [done|]).
          -- intros [[->|?] ?]; tauto.
          -- intros [? ?]. tauto.
      + rewrite Hl. case_bool_decide as Hd; cbn [fst snd].
        * destruct (decide (q = x)) as [->|Hne].
          -- rewrite lookup_alter_eq. rewrite (decide_False (P := x ∈ l ∧ _)) by tauto.
             rewrite decide_True; [done|]. split; [left|done].
          -- rewrite lookup_alter_ne by done.
             destruct (decide (q ∈ l ∧ q ∈ dying)) as [[? ?]|Hn].
             ++ rewrite decide_True; [done|]. split; [by right|done].
             ++ rewrite decide_False; [done|]. intros [[?|?]%elem_of_cons ?]; tauto.
        * destruct (decide (q ∈ l ∧ q ∈ dying)) as [[? ?]|Hn].
          -- rewrite decide_True; [done|]. split; [by right|done].
          -- rewrite decide_False; [done|].
             intros [[->|?]%elem_of_cons ?]; tauto. }
  specialize (Hloop (elements all) (NoDup_elements all) (store, all)). cbv zeta in Hloop.
  destruct (foldl _ (store, all) (elements all)) as [store' subs']. cbn [fst snd] in *.
  destruct Hloop as [Hs Hl]. split; [|split; [done|]].
  - apply set_eq. intros q. rewrite Hs, elem_of_difference, elem_of_elements. tauto.
  - intros q. rewrite Hl. destruct (decide (q ∈ all ∧ q ∈ dying)) as [[? ?]|Hn].
    + rewrite decide_True; [done|]. by rewrite elem_of_elements.
    + rewrite decide_False; [done|]. by rewrite elem_of_elements.
Qed.

Section RoundFacts.

Context `{Decoder}.

Lemma feed_step_other conf response st p q :
  q ≠ p →
  (feed_step conf response st p).1 !! q = st.1 !! q
  ∧ (feed_step conf response st p).2 !! q = st.2 !! q.
Proof.
  intros Hne. unfold feed_step. destruct (st.1 !! p) as [child|]; [|done].
  destruct (Blocks response !! topic child) as [partitions|]; [|done].
  destruct (partitions !! partition child); [|done].
  destruct (feed conf child response) as [child' msgs]. cbn [fst snd].
  by rewrite !lookup_insert_ne.
Qed.

Lemma feed_fold_other conf response l :
  ∀ st q, q ∉ l →
    (foldl (feed_step conf response) st l).1 !! q = st.1 !! q
    ∧ (foldl (feed_step conf response) st l).2 !! q = st.2 !! q.
Proof.
  induction l as [|p l IH]; intros st q Hq; cbn [foldl]; [done|].
  apply not_elem_of_cons in Hq as [Hne Hq].
  destruct (IH (feed_step conf response st p) q Hq) as [-> ->].
  by apply feed_step_other.
Qed.

Lemma feed_fold_child conf response l :
  NoDup l →
  ∀ st p child, p ∈ l → st.1 !! p = Some child →
    let st' := foldl (feed_step conf response) st l in
    match Blocks response !! topic child ≫= (.!! partition child) with
    | Some _ =>
        st'.1 !! p = Some (feed conf child response).1
        ∧ st'.2 !! p = Some (feed conf child response).2
    | None => st'.1 !! p = Some child ∧ st'.2 !! p = st.2 !! p
    end.
Proof.
  induction 1 as [|q l Hq Hnodup IH]; intros st p child Hp Hchild; cbn [foldl].
  - by apply elem_of_nil in Hp.
  - cbv zeta in *. destruct (decide (p = q)) as [->|Hne].
    + destruct (feed_fold_other conf response l (feed_step conf response st q) q Hq)
        as [-> ->].
      unfold feed_step. rewrite Hchild.
      destruct (Blocks response !! topic child) as [partitions|]; simpl; [|done].
      destruct (partitions !! partition child); [|done].
      destruct (feed conf child response) as [child' msgs]. cbn [fst snd].
      by rewrite !lookup_insert_eq.
    + apply elem_of_cons in Hp as [?|Hp]; [done|].
      destruct (feed_step_other conf response st q p Hne) as [Hl Hd].
      specialize (IH (feed_step conf response st q) p child Hp).
      rewrite Hl, Hd in IH. by apply IH.
Qed.

Lemma feedSubscriptions_child conf response store subs p child :
  p ∈ subs → store !! p = Some child →
  let r := feedSubscriptions conf response store subs in
  match Blocks response !! topic child ≫= (.!! partition child) with
  | Some _ =>
      r.1 !! p = Some (feed conf child response).1
      ∧ r.2 !! p = Some (feed conf child response).2
  | None => r.1 !! p = Some child ∧ r.2 !! p = None
  end.
Proof.
  intros Hp Hchild.
  pose proof (feed_fold_child conf response (elements subs) (NoDup_elements subs)
                (store, ∅) p child) as Hfold.
  cbv zeta in *. cbn [fst snd] in Hfold. rewrite lookup_empty in Hfold.
  apply Hfold; [by apply elem_of_elements|done].
Qed.

Lemma feedSubscriptions_other conf response store (subs : gset nat) q :
  q ∉ subs →
  (feedSubscriptions conf response store subs).1 !! q = store !! q
  ∧ (feedSubscriptions conf response store subs).2 !! q = None.
Proof.
  intros Hq. unfold feedSubscriptions.
  destruct (feed_fold_other conf response (elements subs) (store, ∅) q) as [-> ->];
    [by rewrite elem_of_elements|done].
Qed.

(** What [feed] makes of a block that reports an error. *)
Lemma feed_error_block conf child response partitions block :
  Blocks response !! topic child = Some partitions →
  GetBlock response (topic child) (partition child) = Some block →
  Err block ≠ ErrNoError →
  feed conf child response = (set_responseResult (Some (Err block)) child, []).
Proof.
  intros Hblocks Hblock Herr. unfold feed, parseResponse.
  assert ((size (Blocks response) =? 0)%nat = false) as ->.
  { apply Nat.eqb_neq. intros Hsize. apply map_size_empty_iff in Hsize.
    by rewrite Hsize, lookup_empty in Hblocks. }
  rewrite andb_false_r, Hblock.
  unfold errors_Is. rewrite bool_decide_eq_false_2 by done. done.
Qed.


End RoundFacts.

(** X18.  A round in which the broker answers a subscription with a block
    that reports an error delivers no message of that subscription, leaves
    its offset, fetch size and high water mark as they are, removes it from
    the broker consumer and discards its preferred replica; the loop goes
    on.  For one of the retriable errors the user sees nothing and the
    subscription is redispatched by one send on its trigger; an error that
    has no branch of its own in [handleResponses] is surfaced once. *)
Theorem round_with_error_block :
  ∀ (D : Decoder) (MaxResponseSize : Z) (Fetch : FetchRequest → result FetchResponse)
    (conf : Config) (client : Client) (dying : gset nat) (bcRef : nat)
    (queued : list (list nat)) (newSubscriptions : list nat)
    (bc : brokerConsumer) (c : consumer) (p : nat) (child : partitionConsumer)
    (response : FetchResponse) (partitions : gmap Z FetchResponseBlock)
    (block : FetchResponseBlock),
    p ∈ subscriptions bc ∨ p ∈ newSubscriptions →
    p ∉ dying →
    heap c !! p = Some child →
    fetchNewMessages MaxResponseSize Fetch conf
      (updateSubscriptions dying newSubscriptions (heap c) bc).1
      (updateSubscriptions dying newSubscriptions (heap c) bc).2 = Ok (Some response) →
    Blocks response !! topic child = Some partitions →
    is_Some (partitions !! partition child) →
    GetBlock response (topic child) (partition child) = Some block →
    Err block ≠ ErrNoError →
    let r := subscriptionConsumer_round MaxResponseSize Fetch conf client dying bcRef
               queued newSubscriptions bc c in
    round_continues r = true
    ∧ (p ∉ subscriptions (round_bc r))
    ∧ round_delivered r !! p = Some []
    ∧ ∃ child', heap (round_consumer r) !! p = Some child'
        ∧ offset child' = offset child ∧ fetchSize child' = fetchSize child
        ∧ highWaterMarkOffset child' = highWaterMarkOffset child
        ∧ responseResult child' = None
        ∧ preferredReadReplica child' = invalidPreferredReplicaID
        ∧ (Err block ∈ silent_retriable →
           trigger child' = chan_send (trigger child)
           ∧ errors child' = errors child ∧ logged child' = logged child)
        ∧ (¬ named_outcome (Err block) →
           surfaced conf child' = surfaced conf child ++ [consumerError child (Err block)]).
Proof.
  intros D MaxResponseSize Fetch conf client dying bcRef queued newSubscriptions bc c p
    child response partitions block Hsub Halive Hchild Hfetch Hblocks [b Hpart] Hblock
    Herr. cbv zeta.
  unfold subscriptionConsumer_round.
  pose proof (updateSubscriptions_spec dying newSubscriptions (heap c) bc) as Hupd.
  cbv zeta in Hupd. destruct Hupd as (Hsubs & Hbroker & Hstore).
  destruct (updateSubscriptions dying newSubscriptions (heap c) bc) as [store1 bc1].
  cbn [fst snd] in *. regs.
  assert (p ∈ subscriptions bc1) as Hp1.
  { rewrite Hsubs, elem_of_difference, elem_of_union, elem_of_list_to_set. tauto. }
  assert (store1 !! p = Some child) as Hchild1.
  { rewrite Hstore, decide_False by tauto. done. }
  assert ((size (subscriptions bc1) =? 0)%nat = false) as ->.
  { apply Nat.eqb_neq. intros Hsize. apply size_empty_iff in Hsize.
    rewrite Hsize in Hp1. by apply not_elem_of_empty in Hp1. }
  rewrite Hfetch.
  pose proof (feedSubscriptions_child conf response store1 (subscriptions bc1) p child
                Hp1 Hchild1) as Hfed.
  cbv zeta in Hfed. rewrite Hblocks in Hfed. simpl in Hfed. rewrite Hpart in Hfed.
  rewrite (feed_error_block conf child response partitions block Hblocks Hblock Herr)
    in Hfed. cbn [fst snd] in Hfed. destruct Hfed as [Hfed Hnone].
  destruct (feedSubscriptions conf response store1 (subscriptions bc1))
    as [store2 delivered]. cbn [fst snd] in *.
  destruct (handleResponses_child conf client store2 bc1 p
              (set_responseResult (Some (Err block)) child) Hp1 Hfed) as [Hl Hs].
  destruct (handleResponse_keeps conf client (bc_broker bc1)
              (set_responseResult (Some (Err block)) child))
    as (Ho & Hf & Hh & _ & _ & _ & _ & _ & Hrr).
  destruct (handleResponse_error conf client (bc_broker bc1)
              (set_responseResult (Some (Err block)) child) (Err block) eq_refl)
    as (Hdel & Hpref & _ & Hsilent & Hother).
  destruct (handleResponses conf client store2 bc1) as [store3 bc3].
  cbn [fst snd round_continues round_bc round_delivered round_consumer] in *. regs.
  split; [done|]. split; [rewrite Hs, Hdel; done|]. split; [done|].
  eexists. split; [exact Hl|].
  repeat (split; [done|]).
  intros Hnot. by destruct (Hother Hnot).
Qed.


Lemma round_with_error_block_witness :
  let conf := Scenario.conf ReadUncommitted 1024 8192 in
  let c := (ConsumePartition (-1) (-2) (-1) offsets_100_200 conf leader_one
              "events" 0 150 newConsumer).1 in
  let r := @subscriptionConsumer_round SpecDecoder.decoder 104857600
             (λ _, Ok (error_response ErrNotLeaderForPartition)) conf leader_one ∅ 0%nat []
             [0%nat] (mkBrokerConsumer 1 ∅) c in
  (0%nat ∉ subscriptions (round_bc r))
  ∧ (offset <$> heap (round_consumer r) !! 0%nat) = Some 150
  ∧ (errors <$> heap (round_consumer r) !! 0%nat) = Some [].
Proof.
  intros conf c r.
  destruct (round_with_error_block SpecDecoder.decoder 104857600
              (λ _, Ok (error_response ErrNotLeaderForPartition)) conf leader_one ∅ 0%nat
              [] [0%nat] (mkBrokerConsumer 1 ∅) c 0%nat
              (set_leaderEpoch 0 (set_offset 150 (set_highWaterMarkOffset 200
                 (Scenario.subscription 0 1024))))
              (error_response ErrNotLeaderForPartition)
              {[ 0 := mkFetchResponseBlock ErrNotLeaderForPartition 0
                        invalidPreferredReplicaID None [] [] false ]}
              (mkFetchResponseBlock ErrNotLeaderForPartition 0
                 invalidPreferredReplicaID None [] [] false))
    as (_ & Hout & _ & child' & Hl & Ho & _ & _ & _ & _ & Hsilent & _).
  - right. left.
  - apply not_elem_of_empty.
  - vm_compute. reflexivity.
  - vm_compute. reflexivity.
  - vm_compute. reflexivity.
  - eexists. vm_compute. reflexivity.
  - vm_compute. reflexivity.
  - discriminate.
  - fold r in Hout, Hl. split; [exact Hout|]. rewrite Hl. simpl. rewrite Ho.
    split; [reflexivity|]. destruct Hsilent as (_ & -> & _); [|reflexivity].
    right. left.
Defined.

(** ** abort *)

Lemma occurrences_app q l1 l2 :
  occurrences q (l1 ++ l2) = (occurrences q l1 + occurrences q l2)%nat.
Proof. unfold occurrences. by rewrite filter_app, length_app. Qed.

Lemma occurrences_NoDup q l : NoDup l → q ∈ l → occurrences q l = 1%nat.
Proof.
  unfold occurrences. induction 1 as [|x l Hx Hnodup IH]; intros Hq.
  - by apply elem_of_nil in Hq.
  - rewrite filter_cons. destruct (decide (x = q)) as [->|Hne].
    + simpl. f_equal. apply length_zero_iff_nil. apply filter_none.
      apply Forall_forall. intros y Hy ->. done.
    + apply elem_of_cons in Hq as [?|Hq]; [done|]. by apply IH.
Qed.

Lemma alter_fold {A} (f : A → A) l :
  ∀ (store : gmap nat A) q,
    foldl (λ store child, alter f child store) store l !! q
    = Nat.iter (occurrences q l) f <$> store !! q.
Proof.
  unfold occurrences. induction l as [|x l IH]; intros store q; cbn [foldl].
  - simpl. by destruct (store !! q).
  - rewrite IH, filter_cons. destruct (decide (x = q)) as [->|Hne].
    + rewrite lookup_alter_eq. destruct (store !! q); [|done]. simpl.
      f_equal. apply Nat.iter_swap.
    + by rewrite lookup_alter_ne.
Qed.

Lemma alter_fold_batches {A} (f : A → A) (batches : list (list nat)) :
  ∀ (store : gmap nat A),
    foldl (λ store batch, foldl (λ store child, alter f child store) store batch)
      store batches
    = foldl (λ store child, alter f child store) store (concat batches).
Proof.
  induction batches as [|batch batches IH]; intros store; [done|].
  cbn [foldl concat]. by rewrite foldl_app, IH.
Qed.

Lemma abort_child_once conf err child :
  offset (abort_child conf err child) = offset child
  ∧ fetchSize (abort_child conf err child) = fetchSize child
  ∧ topic (abort_child conf err child) = topic child
  ∧ partition (abort_child conf err child) = partition child
  ∧ surfaced conf (abort_child conf err child)
    = surfaced conf child ++ [consumerError child err]
  ∧ chan_sent (trigger (abort_child conf err child)) = S (chan_sent (trigger child)).
Proof.
  unfold abort_child, sendError, surfaced, consumerError.
  destruct (Consumer_Return_Errors conf); fields; done.
Qed.

Lemma abort_child_iter conf err n child :
  offset (Nat.iter n (abort_child conf err) child) = offset child
  ∧ fetchSize (Nat.iter n (abort_child conf err) child) = fetchSize child
  ∧ topic (Nat.iter n (abort_child conf err) child) = topic child
  ∧ partition (Nat.iter n (abort_child conf err) child) = partition child
  ∧ surfaced conf (Nat.iter n (abort_child conf err) child)
    = surfaced conf child ++ replicate n (consumerError child err)
  ∧ chan_sent (trigger (Nat.iter n (abort_child conf err) child))
    = (chan_sent (trigger child) + n)%nat.
Proof.
  induction n as [|n IH].
  - simpl. rewrite app_nil_r, Nat.add_0_r. done.
  - rewrite Nat.iter_succ. destruct IH as (Ho & Hf & Ht & Hp & Hs & Hc).
    destruct (abort_child_once conf err (Nat.iter n (abort_child conf err) child))
      as (Ho' & Hf' & Ht' & Hp' & Hs' & Hc').
    rewrite Ho', Hf', Ht', Hp', Hs', Hc', Ho, Hf, Ht, Hp, Hs, Hc.
    repeat (split; [done|]). split; [|lia].
    rewrite replicate_S_end, app_assoc. unfold consumerError. by rewrite Ht, Hp.
Qed.

(** X19.  When the fetch fails, the round ends the loop of
    [subscriptionConsumer], delivers nothing and unregisters the broker of the
    broker consumer, so that the next [refBrokerConsumer] for it starts a new
    one.  A subscription is told the error of the fetch once, and once more
    for every time it arrives among the new subscriptions that are still
    queued, with one send on its trigger each time; its offset and fetch
    size are not changed. *)
Theorem failed_fetch_aborts :
  ∀ (D : Decoder) (MaxResponseSize : Z) (Fetch : FetchRequest → result FetchResponse)
    (conf : Config) (client : Client) (dying : gset nat) (bcRef : nat)
    (queued : list (list nat)) (newSubscriptions : list nat)
    (bc : brokerConsumer) (c : consumer) (w : brokerWorker) (p : nat)
    (child : partitionConsumer) (err : error),
    p ∈ subscriptions bc ∨ p ∈ newSubscriptions →
    p ∉ dying →
    heap c !! p = Some child →
    workers c !! bcRef = Some w →
    fetchNewMessages MaxResponseSize Fetch conf
      (updateSubscriptions dying newSubscriptions (heap c) bc).1
      (updateSubscriptions dying newSubscriptions (heap c) bc).2 = Fail err →
    let r := subscriptionConsumer_round MaxResponseSize Fetch conf client dying bcRef
               queued newSubscriptions bc c in
    let n := S (occurrences p (concat queued)) in
    round_continues r = false
    ∧ round_delivered r = ∅
    ∧ brokerConsumers (round_consumer r) !! worker_broker w = None
    ∧ (refBrokerConsumer (worker_broker w) (round_consumer r)).2
      = fresh (dom (workers c))
    ∧ ∃ child', heap (round_consumer r) !! p = Some child'
        ∧ offset child' = offset child ∧ fetchSize child' = fetchSize child
        ∧ surfaced conf child' = surfaced conf child ++ replicate n (consumerError child err)
        ∧ chan_sent (trigger child') = (chan_sent (trigger child) + n)%nat.
Proof.
  intros D MaxResponseSize Fetch conf client dying bcRef queued newSubscriptions bc c w p
    child err Hsub Halive Hchild Hw Hfetch. cbv zeta.
  unfold subscriptionConsumer_round.
  pose proof (updateSubscriptions_spec dying newSubscriptions (heap c) bc) as Hupd.
  cbv zeta in Hupd. destruct Hupd as (Hsubs & Hbroker & Hstore).
  destruct (updateSubscriptions dying newSubscriptions (heap c) bc) as [store1 bc1].
  cbn [fst snd] in *. regs.
  assert (p ∈ subscriptions bc1) as Hp1.
  { rewrite Hsubs, elem_of_difference, elem_of_union, elem_of_list_to_set. tauto. }
  assert (store1 !! p = Some child) as Hchild1.
  { rewrite Hstore, decide_False by tauto. done. }
  assert ((size (subscriptions bc1) =? 0)%nat = false) as ->.
  { apply Nat.eqb_neq. intros Hsize. apply size_empty_iff in Hsize.
    rewrite Hsize in Hp1. by apply not_elem_of_empty in Hp1. }
  rewrite Hfetch. cbn [round_continues round_delivered round_consumer].
  unfold abort, abandonBrokerConsumer. regs. rewrite Hw. regs.
  split; [done|]. split; [done|]. split; [by rewrite lookup_delete_eq|].
  split.
  { unfold refBrokerConsumer, newBrokerConsumer. regs. by rewrite lookup_delete_eq. }
  rewrite alter_fold_batches, <- foldl_app, alter_fold, Hchild1, occurrences_app.
  rewrite (occurrences_NoDup p (elements (subscriptions bc1)));
    [|apply NoDup_elements|by apply elem_of_elements].
  eexists. split; [done|].
  destruct (abort_child_iter conf err (1 + occurrences p (concat queued)) child)
    as (Ho & Hf & _ & _ & Hs & Hc).
  done.
Qed.

Lemma failed_fetch_aborts_witness :
  let conf := Scenario.conf ReadUncommitted 1024 8192 in
  let c := (ConsumePartition (-1) (-2) (-1) offsets_100_200 conf leader_one
              "events" 0 150 newConsumer).1 in
  let r := @subscriptionConsumer_round SpecDecoder.decoder 104857600
             (λ _, Fail ErrLeaderNotAvailable) conf leader_one ∅ 0%nat [[0%nat]]
             [0%nat] (mkBrokerConsumer 1 ∅) c in
  round_continues r = false
  ∧ brokerConsumers (round_consumer r) !! 1 = None
  ∧ ∃ child', heap (round_consumer r) !! 0%nat = Some child'
      ∧ ce_Err <$> surfaced conf child' = [ErrLeaderNotAvailable; ErrLeaderNotAvailable]
      ∧ chan_sent (trigger child') = 2%nat.
Proof.
  intros conf c r.
  destruct (failed_fetch_aborts SpecDecoder.decoder 104857600
              (λ _, Fail ErrLeaderNotAvailable) conf leader_one ∅ 0%nat [[0%nat]]
              [0%nat] (mkBrokerConsumer 1 ∅) c (mkBrokerWorker 1 1 [0%nat] 0) 0%nat
              (set_leaderEpoch 0 (set_offset 150 (set_highWaterMarkOffset 200
                 (Scenario.subscription 0 1024))))
              ErrLeaderNotAvailable)
    as (Hstop & _ & Hgone & _ & child' & Hl & _ & _ & Hs & Ht).
  - right. left.
  - apply not_elem_of_empty.
  - vm_compute. reflexivity.
  - vm_compute. reflexivity.
  - vm_compute. reflexivity.
  - fold r in Hstop, Hgone, Hl. split; [exact Hstop|]. split; [exact Hgone|].
    exists child'. split; [exact Hl|]. rewrite Hs, Ht. split; reflexivity.
Defined.


(** * Protocol messages *)

Lemma field_codec_sound : codec_sound field_codec.
Proof. split; intros; simplify_eq/=; done. Qed.

Lemma result_fold_fail {A B} (step : result A → B → result A) err l :
  (∀ x, step (Fail err) x = Fail err) → foldl step (Fail err) l = Fail err.
Proof. intros Hstep. induction l as [|x l IH]; [done|]. simpl. by rewrite Hstep. Qed.

Lemma insert_fold_list_to_map (entries : list (string * Z)) :
  NoDup (entries.*1) →
  foldl (λ codes entry, <[entry.1 := entry.2]> codes) (∅ : gmap string Z) entries
  = list_to_map entries.
Proof.
  induction entries as [|[topic_ code] entries IH] using rev_ind; intros Hnodup; [done|].
  rewrite fmap_app in Hnodup. apply NoDup_app in Hnodup as (Hl & Hnot & _).
  rewrite foldl_snoc, IH by done. cbn [fst snd].
  rewrite list_to_map_snoc; [done|]. intros Hin. apply (Hnot topic_ Hin). left.
Qed.

Section MessageFacts.

Context {T : Type} (codec : packetCodec T).
Hypothesis sound : codec_sound codec.

(** The entries [encode] writes are the entries [decode] reads. *)
Lemma dtr_entries_round_trip (entries : list (string * Z)) :
  Forall (λ entry, is_int16 entry.2) entries →
  ∀ pe written,
    foldl (λ pe entry, pe ← pe; pe ← putString codec entry.1 pe;
                       Ok (putInt16 codec entry.2 pe))
      (Ok pe) entries = Ok written →
    ∃ chunk, written = pe ++ chunk
      ∧ ∀ codes rest,
          dtr_decode_entries codec (length entries) codes (chunk ++ rest)
          = Ok (foldl (λ codes entry, <[entry.1 := entry.2]> codes) codes entries, rest).
Proof.
  induction 1 as [|[topic_ code] entries Hcode _ IH]; intros pe written Hfold.
  - exists []. injection Hfold as <-. by rewrite app_nil_r.
  - cbn [foldl fst snd] in Hfold. unfold putString at 2 in Hfold.
    destruct (encString codec topic_) as [ws|err] eqn:Hs; simpl in Hfold.
    + apply IH in Hfold as (chunk & -> & Hdecode).
      exists (ws ++ encInt16 codec code ++ chunk). unfold putInt16.
      split; [by rewrite <- !app_assoc|].
      intros codes rest. cbn [length dtr_decode_entries].
      rewrite <- !app_assoc.
      rewrite (sound_string codec sound topic_ ws _ Hs). simpl.
      rewrite (sound_int16 codec sound code _ Hcode). simpl.
      apply Hdecode.
    + rewrite result_fold_fail in Hfold; done.
Qed.

End MessageFacts.

(** X20.  Decoding what [encode] wrote for a [DeleteTopicsResponse], at the
    version of the response, succeeds, consumes exactly what was written and
    restores the error codes, in whatever order [encode] visited the map.
    From version 1 on it restores the version, and the throttle time cut
    down to whole milliseconds and to 32 bits; at version 0 it leaves the
    version and the throttle time of the response it decodes into as they
    were.  A throttle time of a whole number of milliseconds that fits 32
    bits comes back unchanged. *)
Theorem dtr_round_trip :
  ∀ (T : Type) (codec : packetCodec T) (d target : DeleteTopicsResponse)
    (entries : list (string * Z)) (written rest : list T),
    codec_sound codec →
    entries ≡ₚ map_to_list (TopicErrorCodes d) →
    map_Forall (λ _ code, is_int16 code) (TopicErrorCodes d) →
    dtr_encode codec entries d [] = Ok written →
    let throttle := wrap32 (dtr_ThrottleTime d `quot` millisecond) * millisecond in
    dtr_decode codec target (written ++ rest) (dtr_Version d)
    = Ok (mkDeleteTopicsResponse
            (if dtr_Version d >=? 1 then dtr_Version d else dtr_Version target)
            (if dtr_Version d >=? 1 then throttle else dtr_ThrottleTime target)
            (TopicErrorCodes d), rest)
    ∧ (∀ ms, is_int32 ms → dtr_ThrottleTime d = ms * millisecond →
         throttle = dtr_ThrottleTime d).
Proof.
  intros T codec d target entries written rest sound Hperm Hcodes Hencode. cbv zeta. split.
  - unfold dtr_encode in Hencode. unfold dtr_decode.
    assert (NoDup (entries.*1)) as Hnodup.
    { rewrite Hperm. apply NoDup_fst_map_to_list. }
    assert (Forall (λ entry, is_int16 entry.2) entries) as Hint16.
    { rewrite Hperm. apply Forall_forall. intros [topic_ code] Hin.
      apply elem_of_map_to_list in Hin. by apply (Hcodes topic_ code). }
    assert (length entries = size (TopicErrorCodes d)) as Hlen.
    { by rewrite Hperm, length_map_to_list. }
    assert (foldl (λ codes entry, <[entry.1 := entry.2]> codes) ∅ entries
            = TopicErrorCodes d) as Hmap.
    { rewrite insert_fold_list_to_map by done.
      rewrite (list_to_map_proper _ _ Hnodup Hperm). apply list_to_map_to_list. }
    unfold putArrayLength in Hencode.
    destruct (encArrayLength codec (Z.of_nat (size (TopicErrorCodes d))))
      as [wn|err] eqn:Hn; simpl in Hencode; [|done].
    apply (dtr_entries_round_trip codec sound entries Hint16) in Hencode
      as (chunk & -> & Hdecode).
    destruct (Z.geb_spec (dtr_Version d) 1) as [Hv|Hv]; unfold putInt32; simpl.
    + rewrite <- !app_assoc.
      rewrite (sound_int32 codec sound); [|apply add64_range || idtac].
      * simpl. rewrite (sound_arrayLength codec sound _ wn _ Hn). simpl.
        rewrite Nat2Z.id, <- Hlen, Hdecode, Hmap. simpl.
        do 3 f_equal. apply wrap64_id.
        pose proof (Z.mod_pos_bound (dtr_ThrottleTime d `quot` millisecond + 2 ^ (32 - 1))
                      (2 ^ 32)) as Hmod.
        unfold is_int64, wrap32, wrap, millisecond, MinInt64, MaxInt64 in *. lia.
      * pose proof (Z.mod_pos_bound (dtr_ThrottleTime d `quot` millisecond + 2 ^ (32 - 1))
                      (2 ^ 32)) as Hmod.
        unfold is_int32, wrap32, wrap, MinInt32, MaxInt32 in *. lia.
    + rewrite <- !app_assoc.
      rewrite (sound_arrayLength codec sound _ wn _ Hn). simpl.
      rewrite Nat2Z.id, <- Hlen, Hdecode, Hmap. done.
  - intros ms Hms ->. unfold millisecond. rewrite Z.quot_mul by done.
    f_equal. unfold wrap32, wrap, is_int32, MinInt32, MaxInt32 in *.
    rewrite Z.mod_small; lia.
Qed.

Lemma dtr_round_trip_witness :
  let d := mkDeleteTopicsResponse 1 250000000 {[ "events" := 0; "orders" := 3 ]} in
  dtr_decode field_codec (mkDeleteTopicsResponse 0 0 ∅)
    [fInt32 250; fArrayLength 2; fString "orders"; fInt16 3; fString "events"; fInt16 0] 1
  = Ok (d, []).
Proof.
  intros d.
  destruct (dtr_round_trip field field_codec d (mkDeleteTopicsResponse 0 0 ∅)
              [("orders", 3); ("events", 0)]
              [fInt32 250; fArrayLength 2; fString "orders"; fInt16 3;
               fString "events"; fInt16 0] [] field_codec_sound)
    as [Hdecode Hexact].
  - apply (bool_decide_unpack _). vm_compute. exact I.
  - intros topic_ code Hl. unfold d in Hl. cbn [TopicErrorCodes] in Hl.
    apply lookup_insert_Some in Hl as [[_ <-]|[_ Hl]]; [vm_compute; split; discriminate|].
    apply lookup_singleton_Some in Hl as [_ <-]. vm_compute; split; discriminate.
  - vm_compute. reflexivity.
  - rewrite app_nil_r in Hdecode. etransitivity; [exact Hdecode|]. vm_compute. reflexivity.
Defined.

Section RequestFacts.

Context {T : Type} (codec : packetCodec T).
Hypothesis sound : codec_sound codec.

Lemma milliseconds_exact x : wrap64 (wrap32 x * millisecond) = wrap32 x * millisecond.
Proof.
  apply wrap64_id. pose proof (wrap32_range x) as Hx.
  unfold is_int64, is_int32, millisecond, MinInt32, MaxInt32, MinInt64, MaxInt64 in *. lia.
Qed.

End RequestFacts.

(** X21.  Decoding what [encode] wrote for an [EndTxnRequest] succeeds at
    any version, consumes exactly what was written and restores the
    transactional id, the producer id and epoch and the result.  It never
    sets the version: the request decoded into keeps the version it had. *)
Theorem etr_round_trip :
  ∀ (T : Type) (codec : packetCodec T) (a target : EndTxnRequest)
    (written rest : list T) (version : Z),
    codec_sound codec →
    is_int64 (etr_ProducerID a) → is_int16 (etr_ProducerEpoch a) →
    etr_encode codec a [] = Ok written →
    etr_decode codec target (written ++ rest) version
    = Ok (mkEndTxnRequest (etr_Version target) (etr_TransactionalID a) (etr_ProducerID a)
            (etr_ProducerEpoch a) (etr_TransactionResult a), rest).
Proof.
  intros T codec a target written rest version sound Hid Hepoch Hencode.
  unfold etr_encode, putString in Hencode.
  destruct (encString codec (etr_TransactionalID a)) as [ws|err] eqn:Hs;
    simpl in Hencode; [|done].
  injection Hencode as <-. unfold etr_decode, putBool, putInt16, putInt64.
  rewrite <- !app_assoc.
  rewrite (sound_string codec sound _ ws _ Hs). simpl.
  rewrite (sound_int64 codec sound _ _ Hid). simpl.
  rewrite (sound_int16 codec sound _ _ Hepoch). simpl.
  rewrite (sound_bool codec sound). done.
Qed.

(** X22.  Decoding what [encode] wrote for an [InitProducerIDRequest], at
    the version of the request, succeeds, consumes exactly what was written
    and restores the version, the transactional id and the timeout cut down
    to whole milliseconds and to 32 bits.  The producer id and epoch are
    restored from version 3 on; below, they are not written, and the
    request decoded into keeps the ones it had. *)
Theorem ipr_round_trip :
  ∀ (T : Type) (codec : packetCodec T) (i target : InitProducerIDRequest)
    (written rest : list T),
    codec_sound codec →
    is_int64 (ipr_ProducerID i) → is_int16 (ipr_ProducerEpoch i) →
    ipr_encode codec i [] = Ok written →
    ipr_decode codec target (written ++ rest) (ipr_Version i)
    = Ok (mkInitProducerIDRequest (ipr_Version i) (ipr_TransactionalID i)
            (wrap32 (ipr_TransactionTimeout i `quot` millisecond) * millisecond)
            (if ipr_Version i >=? 3 then ipr_ProducerID i else ipr_ProducerID target)
            (if ipr_Version i >=? 3 then ipr_ProducerEpoch i else ipr_ProducerEpoch target),
          rest).
Proof.
  intros T codec i target written rest sound Hid Hepoch Hencode.
  unfold ipr_encode in Hencode. unfold ipr_decode. cbn [ipr_Version].
  assert (∃ ws, written
                = ws ++ encInt32 codec (wrap32 (ipr_TransactionTimeout i `quot` millisecond))
                  ++ (if ipr_Version i >=? 3
                      then encInt64 codec (ipr_ProducerID i)
                           ++ encInt16 codec (ipr_ProducerEpoch i)
                      else [])
                  ++ (if ipr_Version i >=? 2 then encEmptyTaggedFieldArray codec else [])
              ∧ ∀ rest', (if ipr_Version i <? 2 then getNullableString codec (ws ++ rest')
                          else getCompactNullableString codec (ws ++ rest'))
                         = Ok (ipr_TransactionalID i, rest')) as (ws & -> & Hid').
  { unfold putNullableString, putNullableCompactString, putInt32, putInt64, putInt16,
      putEmptyTaggedFieldArray in Hencode.
    destruct (ipr_Version i <? 2) eqn:Hlt.
    - destruct (encNullableString codec (ipr_TransactionalID i)) as [ws|err] eqn:Hs;
        simpl in Hencode; [|done].
      exists ws. split.
      + injection Hencode as <-.
        destruct (ipr_Version i >=? 3), (ipr_Version i >=? 2);
          by rewrite <- ?app_assoc, ?app_nil_r.
      + intros rest'. by apply (sound_nullableString codec sound).
    - destruct (encNullableCompactString codec (ipr_TransactionalID i)) as [ws|err] eqn:Hs;
        simpl in Hencode; [|done].
      exists ws. split.
      + injection Hencode as <-.
        destruct (ipr_Version i >=? 3), (ipr_Version i >=? 2);
          by rewrite <- ?app_assoc, ?app_nil_r.
      + intros rest'. by apply (sound_compactNullableString codec sound). }
  rewrite <- !app_assoc, Hid'. simpl.
  rewrite (sound_int32 codec sound) by apply wrap32_range. simpl.
  rewrite milliseconds_exact.
  destruct (ipr_Version i >=? 3) eqn:H3; destruct (ipr_Version i >=? 2) eqn:H2;
    simpl; rewrite ?H2, ?H3; simpl; rewrite <- ?app_assoc;
    rewrite ?(sound_int64 codec sound _ _ Hid); simpl;
    rewrite ?(sound_int16 codec sound _ _ Hepoch); simpl; rewrite ?H2, ?H3; simpl;
    rewrite ?(sound_emptyTaggedFieldArray codec sound); simpl; rewrite ?app_nil_r;
    try done.
  all: exfalso; rewrite Z.geb_leb in H2, H3;
    apply Z.leb_le in H3; apply Z.leb_gt in H2; lia.
Qed.

Lemma etr_round_trip_witness :
  etr_decode field_codec (mkEndTxnRequest 1 "" 0 0 false)
    [fString "tx"; fInt64 4000; fInt16 7; fBool true] 0
  = Ok (mkEndTxnRequest 1 "tx" 4000 7 true, []).
Proof.
  apply (etr_round_trip field field_codec (mkEndTxnRequest 2 "tx" 4000 7 true)
           (mkEndTxnRequest 1 "" 0 0 false)
           [fString "tx"; fInt64 4000; fInt16 7; fBool true] [] 0 field_codec_sound).
  - vm_compute. split; discriminate.
  - vm_compute. split; discriminate.
  - vm_compute. reflexivity.
Defined.

Lemma ipr_round_trip_witness :
  ipr_decode field_codec (mkInitProducerIDRequest 0 None 0 11 12)
    [fCompactNullableString (Some "tx"); fInt32 1; fEmptyTaggedFieldArray] 2
  = Ok (mkInitProducerIDRequest 2 (Some "tx") 1000000 11 12, []).
Proof.
  apply (ipr_round_trip field field_codec
           (mkInitProducerIDRequest 2 (Some "tx") 1999999 5 6)
           (mkInitProducerIDRequest 0 None 0 11 12)
           [fCompactNullableString (Some "tx"); fInt32 1; fEmptyTaggedFieldArray] []
           field_codec_sound).
  - vm_compute. split; discriminate.
  - vm_compute. split; discriminate.
  - vm_compute. reflexivity.
Defined.

(** * The cluster administrator *)

Section AdminFacts.

Context {World : Type}.

Lemma retry_loop_attempts (retryable : error → bool)
    (fn : World → option error * World) (fuel : nat) :
  ∀ (attemptsRemaining : Z) (s : World),
    (1 ≤ fuel)%nat → attemptsRemaining ≤ Z.of_nat fuel →
    MinInt64 < attemptsRemaining ≤ MaxInt64 →
    ∃ k, (1 ≤ k)%nat ∧ Z.of_nat k ≤ Z.max 1 attemptsRemaining
      ∧ retry_loop World retryable fn fuel attemptsRemaining s = Some (attempt World fn k s)
      ∧ (∀ j, (1 ≤ j < k)%nat →
           ∃ err, (attempt World fn j s).1 = Some err ∧ retryable err = true)
      ∧ ((attempt World fn k s).1 = None
         ∨ (∃ err, (attempt World fn k s).1 = Some err ∧ retryable err = false)
         ∨ Z.of_nat k = Z.max 1 attemptsRemaining).
Proof.
  induction fuel as [|fuel IH]; intros a s Hfuel Ha Hrange; [lia|].
  cbn [retry_loop].
  assert (sub64 a 1 = a - 1) as ->.
  { unfold sub64. apply wrap64_id. unfold is_int64, MinInt64, MaxInt64 in *. lia. }
  destruct (fn s) as [[e|] s1] eqn:Hfn.
  - destruct (Z.leb_spec (a - 1) 0) as [Hlast|Hmore]; simpl.
    + exists 1%nat. simpl. rewrite Hfn. repeat split; try done; try lia.
    + destruct (retryable e) eqn:Hretry; simpl.
      * destruct (IH (a - 1) s1) as (k & Hk1 & Hk & Hloop & Hearlier & Hlast);
          [lia|lia|unfold MinInt64, MaxInt64 in *; lia|].
        assert (∀ j, attempt World fn (S j) s = attempt World fn j s1
                     ∨ j = 0%nat) as Hshift.
        { induction j as [|j IHj]; [by right|]. left.
          destruct IHj as [IHj| ->]; [|simpl; by rewrite Hfn].
          change (attempt World fn (S (S j)) s) with (fn (attempt World fn (S j) s).2).
          by rewrite IHj. }
        assert (∀ j, (1 ≤ j)%nat → attempt World fn (S j) s = attempt World fn j s1)
          as Hshift'.
        { intros j Hj. destruct (Hshift j) as [?| ->]; [done|lia]. }
        exists (S k). split; [lia|]. split; [lia|].
        split; [by rewrite Hloop, Hshift'|]. split.
        -- intros j Hj. destruct (decide (j = 1%nat)) as [->|Hne].
           ++ exists e. simpl. by rewrite Hfn.
           ++ destruct j as [|j]; [lia|]. rewrite Hshift' by lia. apply Hearlier. lia.
        -- rewrite Hshift' by lia. destruct Hlast as [?|[?|?]]; [by left|by right; left|].
           right; right. lia.
      * exists 1%nat. simpl. rewrite Hfn. repeat split; try done; try lia.
        right. left. by exists e.
  - exists 1%nat. simpl. rewrite Hfn. repeat split; try done; try lia.
    by left.
Qed.

End AdminFacts.

(** X23.  [retryOnError] returns.  It calls [fn] at least once and at most
    [Retry.Max + 1] times, each call in the state the call before left, and
    returns what the last call returned.  Every call before the last
    returned an error that [retryable] accepts, and the last call either
    succeeded, or returned an error that [retryable] rejects, or was the
    last one allowed. *)
Theorem retryOnError_attempts :
  ∀ (World : Type) (retryMax : Z) (retryable : error → bool) (fn : World → option error * World)
    (s : World),
    MinInt64 ≤ retryMax < MaxInt64 →
    ∃ k, (1 ≤ k)%nat ∧ Z.of_nat k ≤ Z.max 1 (retryMax + 1)
      ∧ retryOnError World retryMax retryable fn s = Some (attempt World fn k s)
      ∧ (∀ j, (1 ≤ j < k)%nat →
           ∃ err, (attempt World fn j s).1 = Some err ∧ retryable err = true)
      ∧ ((attempt World fn k s).1 = None
         ∨ (∃ err, (attempt World fn k s).1 = Some err ∧ retryable err = false)
         ∨ Z.of_nat k = Z.max 1 (retryMax + 1)).
Proof.
  intros World retryMax retryable fn s Hmax. unfold retryOnError.
  assert (add64 retryMax 1 = retryMax + 1) as ->.
  { unfold add64. apply wrap64_id. unfold is_int64, MinInt64, MaxInt64 in *. lia. }
  apply retry_loop_attempts; [lia|lia|unfold MinInt64, MaxInt64 in *; lia].
Qed.

Lemma retryOnError_attempts_witness :
  ∃ k, (k ≤ 3)%nat
    ∧ retryOnError (list error) 2 (λ _, true)
        (λ s, match s with [] => (None, []) | err :: s => (Some err, s) end)
        [ErrLeaderNotAvailable; ErrLeaderNotAvailable; ErrLeaderNotAvailable;
         ErrLeaderNotAvailable]
      = Some (attempt (list error)
                (λ s, match s with [] => (None, []) | err :: s => (Some err, s) end) k
                [ErrLeaderNotAvailable; ErrLeaderNotAvailable; ErrLeaderNotAvailable;
                 ErrLeaderNotAvailable]).
Proof.
  destruct (retryOnError_attempts (list error) 2 (λ _, true)
              (λ s : list error, match s with [] => (None, []) | err :: s => (Some err, s) end)
              [ErrLeaderNotAvailable; ErrLeaderNotAvailable; ErrLeaderNotAvailable;
               ErrLeaderNotAvailable])
    as (k & _ & Hk & Hrun & _).
  - vm_compute. split; [discriminate|reflexivity].
  - exists k. split; [|exact Hrun]. change (Z.max 1 (2 + 1)) with 3 in Hk. lia.
Defined.

(** X24.  [DeleteTopic] refuses the empty topic without contacting anyone.
    Otherwise it asks for the one topic, at the highest version of the
    protocol whose [DeleteTopicsResponse] the configured broker version
    supports, and returns after at least one and at most [Retry.Max + 1]
    attempts.  It returns without an error only when the controller of its
    last attempt answered with [ErrNoError] for the topic. *)
Theorem DeleteTopic_outcome :
  ∀ (World : Type) (ErrInvalidTopic ErrNotController EOF : error)
    (Controller : World → result Z * World) (refreshController : World → World)
    (DeleteTopics : Z → DeleteTopicsRequest → World → result (gmap string error) * World)
    (version : KafkaVersion) (retryMax timeout : Z) (topic_ : string) (s : World),
    MinInt64 ≤ retryMax < MaxInt64 →
    let request := deleteTopicRequest version timeout topic_ in
    let run := DeleteTopic World ErrInvalidTopic ErrNotController EOF Controller
                 refreshController DeleteTopics version retryMax timeout topic_ s in
    dtq_Topics request = [topic_] ∧ dtq_Timeout request = timeout
    ∧ dtr_isValidVersion (mkDeleteTopicsResponse (dtq_Version request) 0 ∅) = true
    ∧ (IsAtLeast version V0_10_1_0 = true →
       IsAtLeast version
         (dtr_requiredVersion (mkDeleteTopicsResponse (dtq_Version request) 0 ∅)) = true)
    ∧ (∀ v, 0 ≤ v ≤ 3 →
         IsAtLeast version (dtr_requiredVersion (mkDeleteTopicsResponse v 0 ∅)) = true →
         v ≤ dtq_Version request)
    ∧ (topic_ = "" → run = Some (Some ErrInvalidTopic, s))
    ∧ (topic_ ≠ "" →
       ∃ k, (1 ≤ k)%nat ∧ Z.of_nat k ≤ Z.max 1 (retryMax + 1)
         ∧ run = Some (attempt World
                         (deleteTopicAttempt World ErrNotController Controller
                            refreshController DeleteTopics request topic_) k s)
         ∧ ∀ s', run = Some (None, s') →
             ∃ s0 b s1 topicErrorCodes,
               Controller s0 = (Ok b, s1)
               ∧ DeleteTopics b request s1 = (Ok topicErrorCodes, s')
               ∧ topicErrorCodes !! topic_ = Some ErrNoError).
Proof.
  intros World ErrInvalidTopic ErrNotController EOF Controller refreshController
    DeleteTopics version retryMax timeout topic_ s Hmax. cbv zeta.
  unfold deleteTopicRequest, dtr_isValidVersion, dtr_requiredVersion.
  cbn [dtq_Topics dtq_Timeout dtr_Version].
  split; [by repeat case_match|]. split; [by repeat case_match|].
  split; [by repeat case_match|]. split.
  { intros Hold. destruct (IsAtLeast version V2_1_0_0) eqn:H3; [done|].
    destruct (IsAtLeast version V2_0_0_0) eqn:H2; [done|].
    destruct (IsAtLeast version V0_11_0_0) eqn:H1; done. }
  split.
  { intros v Hv. assert (v = 0 ∨ v = 1 ∨ v = 2 ∨ v = 3) as Hcases by lia.
    destruct Hcases as [Hv0|[Hv0|[Hv0|Hv0]]]; subst v;
      cbn [dtr_Version]; simpl; intros Hsupported;
      destruct (IsAtLeast version V2_1_0_0); cbn [dtq_Version]; try lia;
      destruct (IsAtLeast version V2_0_0_0); cbn [dtq_Version]; try lia;
      destruct (IsAtLeast version V0_11_0_0); cbn [dtq_Version]; try lia; done. }
  unfold DeleteTopic. split.
  { intros ->. done. }
  intros Hne. destruct (String.eqb_spec topic_ "") as [?|_]; [done|].
  fold (deleteTopicRequest version timeout topic_).
  set (request := deleteTopicRequest version timeout topic_).
  set (fn := deleteTopicAttempt World ErrNotController Controller refreshController
               DeleteTopics request topic_).
  unfold retryOnError.
  assert (add64 retryMax 1 = retryMax + 1) as ->.
  { unfold add64. apply wrap64_id. unfold is_int64, MinInt64, MaxInt64 in *. lia. }
  destruct (retry_loop_attempts (isRetriableControllerError ErrNotController EOF) fn
              (S (Z.to_nat retryMax)) (retryMax + 1) s)
    as (k & Hk1 & Hk & Hrun & _); [lia|lia|unfold MinInt64, MaxInt64 in *; lia|].
  exists k. split; [done|]. split; [done|]. split; [done|].
  intros s' Hnone. rewrite Hrun in Hnone. injection Hnone as Hnone.
  destruct k as [|k]; [lia|]. cbn [attempt] in Hnone.
  exists (attempt World fn k s).2. revert Hnone.
  generalize (attempt World fn k s).2. intros s0. unfold fn, deleteTopicAttempt.
  destruct (Controller s0) as [[b|err] s1]; [|done].
  destruct (DeleteTopics b request s1) as [[codes|err] s2] eqn:Hd; [|done].
  destruct (codes !! topic_) as [topicErr|] eqn:Hcode; [|done].
  unfold errors_Is at 1. case_bool_decide as Hno; simpl; [|done].
  intros [= <-]. exists b, s1, codes.
  split; [done|]. split; [exact Hd|]. by rewrite Hcode, Hno.
Qed.

Lemma DeleteTopic_outcome_witness :
  DeleteTopic (list error) (OtherError "invalid topic") (OtherError "not controller")
    (OtherError "EOF") scripted_Controller (λ s, s) scripted_DeleteTopics
    V2_0_0_0 5 1000 "" [] = Some (Some (OtherError "invalid topic"), [])
  ∧ dtq_Version (deleteTopicRequest V2_0_0_0 1000 "events") = 2.
Proof.
  destruct (DeleteTopic_outcome (list error) (OtherError "invalid topic")
              (OtherError "not controller") (OtherError "EOF") scripted_Controller
              (λ s, s) scripted_DeleteTopics V2_0_0_0 5 1000 "" [])
    as (_ & _ & _ & _ & _ & Hempty & _).
  - vm_compute. split; [discriminate|reflexivity].
  - split; [by apply Hempty|reflexivity].
Defined.

(** ** The dispatcher *)

Lemma unrefBrokerConsumer_last bc w c :
  workers c !! bc = Some w → refs w = 1 →
  brokerConsumers c !! worker_broker w = Some bc →
  let c' := unrefBrokerConsumer bc c in
  brokerConsumers c' = delete (worker_broker w) (brokerConsumers c)
  ∧ workers c' = <[bc := mkBrokerWorker (worker_broker w) 0 (input w) (S (input_closes w))]>
                   (workers c)
  ∧ heap c' = heap c ∧ children c' = children c.
Proof.
  intros Hw Hrefs Hreg. cbv zeta. unfold unrefBrokerConsumer. rewrite Hw, Hrefs.
  change (sub64 1 1) with 0. cbn [refs worker_broker input input_closes]. simpl.
  regs. rewrite bool_decide_eq_true_2 by done. regs. done.
Qed.

(** X26.  An iteration of the dispatcher first gives up the reference to the
    broker consumer the partition consumer was with, and then dispatches.
    If the metadata refresh or the search for the preferred broker fails, the
    partition consumer is left without a broker consumer, the error is
    surfaced once and one value is sent on the trigger, so that the dispatcher
    tries again.  If the partition consumer held the only reference to a
    registered broker consumer, that one is closed and unregistered; a
    dispatch that succeeds for the same broker then starts a new broker
    consumer and hands the partition consumer to it, with the epoch of the
    preferred broker. *)
Theorem dispatcher_restarts_sole_subscription :
  ∀ (RefreshMetadata : string → option error) (conf : Config) (client : Client)
    (p bc : nat) (w : brokerWorker) (child : partitionConsumer) (c : consumer),
    (∀ broker bc', brokerConsumers c !! broker = Some bc' →
       ∃ w', workers c !! bc' = Some w' ∧ worker_broker w' = broker) →
    heap c !! p = Some child →
    workers c !! bc = Some w → refs w = 1 →
    brokerConsumers c !! worker_broker w = Some bc →
    let r := dispatcher_step RefreshMetadata conf client p (Some bc) c in
    (input_closes <$> workers r.1 !! bc) = Some (S (input_closes w))
    ∧ (refs <$> workers r.1 !! bc) = Some 0
    ∧ children r.1 = children c
    ∧ (r.2 = None →
       brokerConsumers r.1 = delete (worker_broker w) (brokerConsumers c)
       ∧ ∃ err child', heap r.1 !! p = Some child'
           ∧ offset child' = offset child ∧ fetchSize child' = fetchSize child
           ∧ surfaced conf child' = surfaced conf child ++ [consumerError child err]
           ∧ trigger child' = chan_send (trigger child))
    ∧ (∀ bc', r.2 = Some bc' →
       ∃ broker epoch child' w',
         RefreshMetadata (topic child) = None
         ∧ (preferredBroker client child).2 = Ok (broker, epoch)
         ∧ brokerConsumers r.1 !! broker = Some bc'
         ∧ workers r.1 !! bc' = Some w'
         ∧ last (input w') = Some p
         ∧ heap r.1 !! p = Some child'
         ∧ leaderEpoch child' = epoch
         ∧ offset child' = offset child ∧ trigger child' = trigger child
         ∧ (broker = worker_broker w →
            bc' = fresh (dom (workers c)) ∧ bc' ≠ bc
            ∧ w' = mkBrokerWorker broker 1 [p] 0)).
Proof.
  intros RefreshMetadata conf client p bc w child c Hwf Hchild Hw Hrefs Hreg. cbv zeta.
  unfold dispatcher_step.
  destruct (unrefBrokerConsumer_last bc w c Hw Hrefs Hreg) as (Hb1 & Hw1 & Hh1 & Hc1).
  cbv zeta in Hb1, Hw1, Hh1, Hc1.
  set (c1 := unrefBrokerConsumer bc c) in *.
  rewrite Hh1, Hchild. unfold dispatch.
  destruct (RefreshMetadata (topic child)) as [err|] eqn:Hrefresh.
  { regs. rewrite Hw1, lookup_insert_eq. simpl.
    split; [done|]. split; [done|]. split; [done|]. split; [|intros ? [=]].
    intros _. split; [done|]. exists err. rewrite Hh1, lookup_alter_eq, Hchild. simpl.
    eexists. split; [done|]. unfold sendError, surfaced, consumerError.
    destruct (Consumer_Return_Errors conf); fields; done. }
  assert (topic (preferredBroker client child).1 = topic child
          ∧ partition (preferredBroker client child).1 = partition child
          ∧ offset (preferredBroker client child).1 = offset child
          ∧ fetchSize (preferredBroker client child).1 = fetchSize child
          ∧ trigger (preferredBroker client child).1 = trigger child
          ∧ errors (preferredBroker client child).1 = errors child
          ∧ logged (preferredBroker client child).1 = logged child)
    as (Ht & Hp & Ho & Hf & Htr & He & Hl).
  { unfold preferredBroker. repeat case_match; done. }
  destruct (preferredBroker client child) as [child1 [[broker epoch]|err]];
    cbn [fst snd] in *.
  - (* dispatched *)
    unfold refBrokerConsumer, newBrokerConsumer.
    destruct (brokerConsumers c1 !! broker) as [bc1|] eqn:Hb; regs.
    + (* to the broker consumer of another broker *)
      assert (broker ≠ worker_broker w) as Hother.
      { intros ->. by rewrite Hb1, lookup_delete_eq in Hb. }
      rewrite Hb1, lookup_delete_ne in Hb by done.
      destruct (Hwf broker bc1 Hb) as (w1 & Hw1' & Hkey).
      assert (bc1 ≠ bc) as Hne by (intros ->; congruence).
      rewrite Hw1. rewrite !lookup_alter_ne, lookup_insert_eq by done. simpl.
      split; [done|]. split; [done|]. split; [done|]. split; [intros [=]|].
      intros bc' [= <-]. rewrite !lookup_alter_eq, lookup_insert_ne, Hw1' by done.
      exists broker, epoch. eexists _, _. simpl.
      rewrite lookup_insert_eq, Hb1, lookup_delete_ne by done.
      repeat (split; [done|]).
      split; [cbn [input]; by rewrite last_snoc|].
      split; [done|]. unfold set_leaderEpoch. fields.
      repeat (split; [done|]). done.
    + (* to a new broker consumer *)
      pose proof (is_fresh (dom (workers c1))) as Hfresh.
      rewrite not_elem_of_dom in Hfresh.
      assert (dom (workers c1) = dom (workers c)) as Hdom.
      { rewrite Hw1, dom_insert_L. apply (elem_of_dom_2 (workers c)) in Hw as Hin.
        apply set_eq. intros x. rewrite elem_of_union, elem_of_singleton.
        split; [intros [->|?]; done|tauto]. }
      rewrite Hdom in *. set (new := fresh (dom (workers c))) in *.
      assert (new ≠ bc) as Hne.
      { intros Heq. rewrite Heq, Hw1, lookup_insert_eq in Hfresh. done. }
      rewrite !lookup_alter_ne, lookup_insert_ne, Hw1, lookup_insert_eq by done. simpl.
      split; [done|]. split; [done|]. split; [done|]. split; [intros [=]|].
      intros bc' [= <-]. rewrite !lookup_alter_eq, !lookup_insert_eq.
      exists broker, epoch. eexists _, _. simpl. rewrite lookup_insert_eq.
      unfold set_leaderEpoch. fields.
      repeat (split; [done|]). try done; intros; repeat split; try done.
  - (* no preferred broker *)
    regs. rewrite Hw1, lookup_insert_eq. simpl.
    split; [done|]. split; [done|]. split; [done|]. split; [|intros ? [=]].
    intros _. split; [done|]. exists err. rewrite lookup_alter_eq, lookup_insert_eq. simpl.
    eexists. split; [done|]. unfold sendError, surfaced, consumerError.
    destruct (Consumer_Return_Errors conf); fields; rewrite ?Ho, ?Hf, ?Htr, ?He, ?Hl, ?Ht, ?Hp;
      done.
Qed.

Lemma dispatcher_restarts_sole_subscription_witness :
  let conf := Scenario.conf ReadUncommitted 1024 8192 in
  let c := (ConsumePartition (-1) (-2) (-1) offsets_100_200 conf leader_one
              "events" 0 150 newConsumer).1 in
  let r := dispatcher_step (λ _, None) conf leader_one 0%nat (Some 0%nat) c in
  (input_closes <$> workers r.1 !! 0%nat) = Some 1%nat
  ∧ r.2 = Some 1%nat
  ∧ brokerConsumers r.1 !! 1 = Some 1%nat.
Proof.
  intros conf c r.
  destruct (dispatcher_restarts_sole_subscription (λ _, None) conf leader_one 0%nat 0%nat
              (mkBrokerWorker 1 1 [0%nat] 0)
              (set_leaderEpoch 0 (set_offset 150 (set_highWaterMarkOffset 200
                 (Scenario.subscription 0 1024)))) c)
    as (Hclosed & _ & _ & _ & Hnew).
  - intros broker bc'. vm_compute. destruct broker as [|[| |]|]; try discriminate.
    intros [= <-]. eexists. split; reflexivity.
  - vm_compute. reflexivity.
  - vm_compute. reflexivity.
  - reflexivity.
  - vm_compute. reflexivity.
  - fold r in Hclosed, Hnew. split; [exact Hclosed|].
    assert (r.2 = Some 1%nat) as Hr by (vm_compute; reflexivity).
    split; [exact Hr|].
    destruct (Hnew 1%nat Hr) as (broker & epoch & child' & w' & _ & Hpref & Hreg & _).
    injection Hpref as <- _. exact Hreg.
Defined.
